(** * go-adb: the device client (device.go, device_extra.go)

    A shallow embedding of the shell-command pipeline, the forwarding
    manager and the device-info lookup of the ADB client, with the
    properties of its specification proved over it.

    Go strings are byte sequences: they are modelled by [string], whose
    characters are the 256 byte values.  Go's [int] is taken to be 64 bits
    wide (amd64, arm64) and is modelled by [Z] with the bounds written out
    where the code depends on them. *)

From Stdlib Require Import ZArith Ascii DecimalString Lia Bool.
From stdpp Require Import base option list gmap strings.

Local Open Scope Z_scope.

(** ** Bytes and string slicing *)

Definition byte_val (c : ascii) : Z := Z.of_N (N_of_ascii c).

Definition TAB : ascii := "009"%char.
Definition LF : ascii := "010"%char.
Definition VT : ascii := "011"%char.
Definition FF : ascii := "012"%char.
Definition CR : ascii := "013"%char.
Definition SP : ascii := " "%char.
Definition DQUOTE : ascii := "034"%char.

Definition CRLF : string := String CR (String LF "").
Definition NL : string := String LF "".

Fixpoint str_take (n : nat) (s : string) : string :=
  match n, s with
  | S k, String a s' => String a (str_take k s')
  | _, _ => ""
  end.

Fixpoint str_drop (n : nat) (s : string) : string :=
  match n, s with
  | S k, String _ s' => str_drop k s'
  | _, _ => s
  end.

(** [s[lo:hi]], for indices within the string. *)
Definition str_slice (s : string) (lo hi : Z) : string :=
  str_take (Z.to_nat (hi - lo)) (str_drop (Z.to_nat lo) s).

Definition len (s : string) : Z := Z.of_nat (String.length s).

Fixpoint str_mem (c : ascii) (s : string) : bool :=
  match s with
  | "" => false
  | String a s' => Ascii.eqb a c || str_mem c s'
  end.

(** ** Package unicode/utf8: decoding of one rune *)

Module utf8.

Definition RuneError : Z := 65533.
Definition RuneSelf : Z := 128.
Definition UTFMax : Z := 4.

(** The table [first]: information about the first byte of an encoding.
    [240] marks an ASCII byte and [241] an invalid one; otherwise the low
    three bits give the size and the high four the accept range. *)
Definition first (b : Z) : Z :=
  if b <? 128 then 240
  else if b <? 194 then 241
  else if b <? 224 then 2
  else if b =? 224 then 19
  else if b <? 237 then 3
  else if b =? 237 then 35
  else if b <? 240 then 3
  else if b =? 240 then 52
  else if b <? 244 then 4
  else if b =? 244 then 68
  else 241.

Definition acceptRanges (i : Z) : Z * Z :=
  if i =? 0 then (128, 191)
  else if i =? 1 then (160, 191)
  else if i =? 2 then (128, 159)
  else if i =? 3 then (144, 191)
  else if i =? 4 then (128, 143)
  else (0, 0).

Definition locb : Z := 128.
Definition hicb : Z := 191.

Definition nth_byte (s : string) (i : nat) : Z :=
  match String.get i s with
  | Some c => byte_val c
  | None => 0
  end.

(** [DecodeRuneInString]: the rune at the head of [s] and its width in
    bytes; an invalid encoding is [RuneError] of width 1. *)
Definition DecodeRuneInString (s : string) : Z * Z :=
  let n := len s in
  if n <? 1 then (RuneError, 0)
  else
    let s0 := nth_byte s 0 in
    let x := first s0 in
    if x >=? 240 then
      (if x =? 240 then s0 else RuneError, 1)
    else
      let sz := Z.land x 7 in
      let '(lo, hi) := acceptRanges (Z.shiftr x 4) in
      if n <? sz then (RuneError, 1)
      else
        let s1 := nth_byte s 1 in
        if (s1 <? lo) || (hi <? s1) then (RuneError, 1)
        else if sz <=? 2 then
          (Z.lor (Z.shiftl (Z.land s0 31) 6) (Z.land s1 63), 2)
        else
          let s2 := nth_byte s 2 in
          if (s2 <? locb) || (hicb <? s2) then (RuneError, 1)
          else if sz <=? 3 then
            (Z.lor (Z.lor (Z.shiftl (Z.land s0 15) 12)
                          (Z.shiftl (Z.land s1 63) 6))
                   (Z.land s2 63), 3)
          else
            let s3 := nth_byte s 3 in
            if (s3 <? locb) || (hicb <? s3) then (RuneError, 1)
            else
              (Z.lor (Z.lor (Z.lor (Z.shiftl (Z.land s0 7) 18)
                                   (Z.shiftl (Z.land s1 63) 12))
                            (Z.shiftl (Z.land s2 63) 6))
                     (Z.land s3 63), 4).

(** [RuneStart]: the byte is not a continuation byte. *)
Definition RuneStart (b : Z) : bool := negb (Z.land b 192 =? 128).

(** The backwards scan of [DecodeLastRuneInString]: from [start], step
    down while [start >= lim] until a rune start is met. *)
Fixpoint scan_back (fuel : nat) (s : string) (start lim : Z) : Z :=
  match fuel with
  | O => start
  | S k =>
      if start >=? lim then
        if RuneStart (nth_byte s (Z.to_nat start)) then start
        else scan_back k s (start - 1) lim
      else start
  end.

Definition DecodeLastRuneInString (s : string) : Z * Z :=
  let e := len s in
  if e =? 0 then (RuneError, 0)
  else
    let start := e - 1 in
    let r := nth_byte s (Z.to_nat start) in
    if r <? RuneSelf then (r, 1)
    else
      let lim := Z.max 0 (e - UTFMax) in
      let start := scan_back 4 s (start - 1) lim in
      let start := Z.max 0 start in
      let '(r, size) := DecodeRuneInString (str_slice s start e) in
      if start + size =? e then (r, size) else (RuneError, 1).

End utf8.

(** ** Package unicode *)

Module unicode.

(** [IsSpace]: the Latin-1 spaces, then the White_Space table. *)
Definition IsSpace (r : Z) : bool :=
  if (0 <=? r) && (r <=? 255) then
    (r =? 9) || (r =? 10) || (r =? 11) || (r =? 12) || (r =? 13)
    || (r =? 32) || (r =? 133) || (r =? 160)
  else
    (r =? 5760) || ((8192 <=? r) && (r <=? 8202))
    || (r =? 8232) || (r =? 8233) || (r =? 8239) || (r =? 8287)
    || (r =? 12288).

End unicode.

(** ** Package strings *)

Module strings.

(** The table [asciiSpace]. *)
Definition asciiSpace (c : ascii) : bool :=
  let b := byte_val c in
  (b =? 9) || (b =? 10) || (b =? 11) || (b =? 12) || (b =? 13) || (b =? 32).

Definition isASCII (c : ascii) : bool := byte_val c <? utf8.RuneSelf.

Fixpoint allASCII (s : string) : bool :=
  match s with
  | "" => true
  | String a s' => isASCII a && allASCII s'
  end.

(** [ContainsRune(s, r)] for an ASCII rune [r], as at its call site: a
    search for the byte. *)
Definition ContainsRune (s : string) (r : ascii) : bool := str_mem r s.

(** [LastIndexByte(s, c)]: the index of the last [c] in [s], or -1. *)
Fixpoint LastIndexByte (s : string) (c : ascii) : Z :=
  match s with
  | "" => -1
  | String a s' =>
      let r := LastIndexByte s' c in
      if 0 <=? r then r + 1
      else if Ascii.eqb a c then 0 else -1
  end.

Definition Join (elems : list string) (sep : string) : string :=
  String.concat sep elems.

(** [Split(s, sep)] for a non-empty separator: the pieces between the
    successive leftmost occurrences of [sep].  [skip] counts the bytes
    of a separator still to be passed over; the result is the piece
    under construction and the pieces after it. *)
Fixpoint Split_go (sep s : string) (skip : nat) : string * list string :=
  match s with
  | "" => ("", [])
  | String a s' =>
      match skip with
      | S k => Split_go sep s' k
      | O =>
          if String.prefix sep s then
            let '(w, rest) := Split_go sep s' (String.length sep - 1) in
            ("", w :: rest)
          else
            let '(w, rest) := Split_go sep s' 0 in
            (String a w, rest)
      end
  end.

Definition Split (s sep : string) : list string :=
  let '(w, rest) := Split_go sep s 0 in w :: rest.

(** [Replace(s, old, new, n)] for a non-empty [old]: the first [n]
    non-overlapping occurrences replaced, all of them when [n < 0]. *)
Fixpoint Replace_go (old new s : string) (n : Z) (skip : nat) : string :=
  match s with
  | "" => ""
  | String a s' =>
      match skip with
      | S k => Replace_go old new s' n k
      | O =>
          if negb (n =? 0) && String.prefix old s then
            new +:+ Replace_go old new s' (if n <? 0 then n else n - 1)
                                (String.length old - 1)
          else String a (Replace_go old new s' n 0)
      end
  end.

Definition Replace (s old new : string) (n : Z) : string :=
  Replace_go old new s n 0.

(** [indexFunc]: the byte index of the first rune [r] of [s] with
    [f r = truth], or -1; the runes are decoded from the front. *)
Fixpoint indexFunc_go (s : string) (f : Z -> bool) (truth : bool)
         (i : Z) (skip : nat) : Z :=
  match s with
  | "" => -1
  | String _ s' =>
      match skip with
      | S k => indexFunc_go s' f truth (i + 1) k
      | O =>
          let '(r, size) := utf8.DecodeRuneInString s in
          if Bool.eqb (f r) truth then i
          else indexFunc_go s' f truth (i + 1) (Z.to_nat (size - 1))
      end
  end.

Definition indexFunc (s : string) (f : Z -> bool) (truth : bool) : Z :=
  indexFunc_go s f truth 0 0.

(** [lastIndexFunc]: the same from the back, one
    [DecodeLastRuneInString] per step. *)
Fixpoint lastIndexFunc_go (fuel : nat) (s : string) (f : Z -> bool)
         (truth : bool) (i : Z) : Z :=
  match fuel with
  | O => -1
  | S k =>
      if 0 <? i then
        let '(r, size) := utf8.DecodeLastRuneInString (str_slice s 0 i) in
        let i := i - size in
        if Bool.eqb (f r) truth then i
        else lastIndexFunc_go k s f truth i
      else -1
  end.

Definition lastIndexFunc (s : string) (f : Z -> bool) (truth : bool) : Z :=
  lastIndexFunc_go (S (String.length s)) s f truth (len s).

Definition TrimLeftFunc (s : string) (f : Z -> bool) : string :=
  let i := indexFunc s f false in
  if i =? -1 then "" else str_slice s i (len s).

Definition TrimRightFunc (s : string) (f : Z -> bool) : string :=
  let i := lastIndexFunc s f false in
  let i :=
    if (0 <=? i) && (utf8.RuneSelf <=? utf8.nth_byte s (Z.to_nat i)) then
      let '(_, wid) := utf8.DecodeRuneInString (str_slice s i (len s)) in
      i + wid
    else i + 1 in
  str_slice s 0 i.

Definition TrimFunc (s : string) (f : Z -> bool) : string :=
  TrimRightFunc (TrimLeftFunc s f) f.

(** [TrimSpace]: the ASCII fast path from the front, then from the back,
    falling back on the Unicode-aware functions at the first non-ASCII
    byte. *)
Fixpoint TrimSpace_stop (stop : nat) (s : string) : string :=
  match stop with
  | O => ""
  | S k =>
      let c := utf8.nth_byte s k in
      if utf8.RuneSelf <=? c then
        TrimRightFunc (str_take stop s) unicode.IsSpace
      else if (c =? 9) || (c =? 10) || (c =? 11) || (c =? 12)
              || (c =? 13) || (c =? 32)
      then TrimSpace_stop k s
      else str_take stop s
  end.

Fixpoint TrimSpace (s : string) : string :=
  match s with
  | "" => ""
  | String c s' =>
      if negb (isASCII c) then TrimFunc s unicode.IsSpace
      else if asciiSpace c then TrimSpace s'
      else TrimSpace_stop (String.length s) s
  end.

(** [FieldsFunc(s, f)]: the maximal runs of runes that do not satisfy
    [f].  [skip] counts the remaining bytes of the rune being passed and
    [sp] records whether that rune satisfies [f]; the result is the
    field under construction and the fields after it. *)
Fixpoint FieldsFunc_go (f : Z -> bool) (s : string) (skip : nat) (sp : bool)
  : string * list string :=
  match s with
  | "" => ("", [])
  | String a s' =>
      let '(skip', sp') :=
        match skip with
        | S k => (k, sp)
        | O =>
            let '(r, size) := utf8.DecodeRuneInString s in
            (Z.to_nat (size - 1), f r)
        end in
      let '(w, rest) := FieldsFunc_go f s' skip' sp' in
      if sp' then ("", match w with "" => rest | _ => w :: rest end)
      else (String a w, rest)
  end.

Definition FieldsFunc (s : string) (f : Z -> bool) : list string :=
  let '(w, rest) := FieldsFunc_go f s 0 false in
  match w with "" => rest | _ => w :: rest end.

(** The ASCII path of [Fields]. *)
Fixpoint Fields_ascii_go (s : string) : string * list string :=
  match s with
  | "" => ("", [])
  | String a s' =>
      let '(w, rest) := Fields_ascii_go s' in
      if asciiSpace a then ("", match w with "" => rest | _ => w :: rest end)
      else (String a w, rest)
  end.

(** [Fields(s)]: the fields of [s] between runs of white space, on the
    ASCII path when every byte is below [RuneSelf]. *)
Definition Fields (s : string) : list string :=
  if allASCII s then
    let '(w, rest) := Fields_ascii_go s in
    match w with "" => rest | _ => w :: rest end
  else FieldsFunc s unicode.IsSpace.

End strings.

(** ** Package strconv *)

Module strconv.

Inductive NumError := ErrSyntax | ErrRange.

Definition IntSize : Z := 64.
Definition maxUint64 : Z := 2 ^ 64 - 1.

(** The digit loop of [ParseUint(s, 10, 64)]; a letter is a digit of
    value at least 10 and so a syntax error like any other byte. *)
Fixpoint ParseUint_go (s : string) (n : Z) : Z * option NumError :=
  match s with
  | "" => (n, None)
  | String c s' =>
      let b := byte_val c in
      if (48 <=? b) && (b <=? 57) then
        let d := b - 48 in
        let cutoff := maxUint64 / 10 + 1 in
        let maxVal := 2 ^ IntSize - 1 in
        if cutoff <=? n then (maxVal, Some ErrRange)
        else
          let n := n * 10 in
          let n1 := (n + d) mod 2 ^ 64 in
          if (n1 <? n) || (maxVal <? n1) then (maxVal, Some ErrRange)
          else ParseUint_go s' n1
      else (0, Some ErrSyntax)
  end.

Definition ParseUint (s : string) : Z * option NumError :=
  match s with
  | "" => (0, Some ErrSyntax)
  | _ => ParseUint_go s 0
  end.

(** [ParseInt(s, 10, 0)]. *)
Definition ParseInt (s : string) : Z * option NumError :=
  match s with
  | "" => (0, Some ErrSyntax)
  | String c s' =>
      let neg := Ascii.eqb c "-" in
      let s1 := if Ascii.eqb c "+" || neg then s' else s in
      let '(un, err) := ParseUint s1 in
      match err with
      | Some ErrSyntax => (0, err)
      | _ =>
          let cutoff := 2 ^ (IntSize - 1) in
          if negb neg && (cutoff <=? un) then (cutoff - 1, Some ErrRange)
          else if neg && (cutoff <? un) then (- cutoff, Some ErrRange)
          else (if neg then - un else un, None)
      end
  end.

(** The digit loop of the fast path of [Atoi]. *)
Fixpoint Atoi_go (s : string) (n : Z) : option Z :=
  match s with
  | "" => Some n
  | String c s' =>
      let ch := (byte_val c - 48) mod 256 in
      if 9 <? ch then None else Atoi_go s' (n * 10 + ch)
  end.

(** [Atoi(s)]: the value and the error; a syntax error comes with the
    value 0, a range error with the nearest bound of [int]. *)
Definition Atoi (s : string) : Z * option NumError :=
  let sLen := len s in
  if (0 <? sLen) && (sLen <? 19) then
    match s with
    | "" => (0, Some ErrSyntax)
    | String c s' =>
        let sign := Ascii.eqb c "-" || Ascii.eqb c "+" in
        let digits := if sign then s' else s in
        if sign && (len digits <? 1) then (0, Some ErrSyntax)
        else
          match Atoi_go digits 0 with
          | None => (0, Some ErrSyntax)
          | Some n => (if Ascii.eqb c "-" then - n else n, None)
          end
    end
  else ParseInt s.

Definition Itoa (n : Z) : string := NilEmpty.string_of_int (Z.to_int n).

End strconv.

(** ** Package fmt *)

Module fmt.

Inductive arg :=
| S_ (s : string)   (* a string, or a Stringer through its String method *)
| D_ (n : Z).       (* an int *)

(** One operand under one verb.  All the formats of this program give
    [%s] and [%v] a string or a Stringer and [%d] an int; the remaining
    combinations print Go's bad-verb marker. *)
Definition format_arg (verb : ascii) (a : arg) : string :=
  match a with
  | S_ s =>
      if Ascii.eqb verb "s" || Ascii.eqb verb "v" then s
      else "%!" +:+ String verb ("(string=" +:+ s +:+ ")")
  | D_ n =>
      if Ascii.eqb verb "d" || Ascii.eqb verb "v" then strconv.Itoa n
      else "%!" +:+ String verb ("(int=" +:+ strconv.Itoa n +:+ ")")
  end.

Fixpoint Sprintf (format : string) (args : list arg) : string :=
  match format with
  | "" => match args with [] => "" | _ => "%!(EXTRA)" end
  | String c rest =>
      if Ascii.eqb c "%" then
        match rest with
        | "" => "%!(NOVERB)"
        | String v rest' =>
            if Ascii.eqb v "%" then String "%" (Sprintf rest' args)
            else
              match args with
              | a :: args' => format_arg v a +:+ Sprintf rest' args'
              | [] => "%!" +:+ String v ("(MISSING)" +:+ Sprintf rest' [])
              end
        end
      else String c (Sprintf rest args)
  end.

End fmt.

(** ** Package internal/errors and the error values of the client *)

Module errors.

(** Modelled from the spec: the closed enumeration of error kinds of the
    package internal/errors, which is not among the sources. *)
Inductive ErrCode :=
| AssertionError
| ParseError
| NetworkError
| DeviceNotFound
| ConnectionResetError
| AdbError.

(** Modelled from the spec: the tagged error value, with its kind, its
    message and the error it wraps. *)
#[warnings="-register-all"]
Inductive Err := mkErr {
  Code : ErrCode;
  Message : string;
  Cause : option Err
}.

(** Modelled from the spec: [Errorf(code, format, args...)] builds an
    error of the given kind whose message is the formatted text. *)
Definition Errorf (code : ErrCode) (format : string) (args : list fmt.arg)
  : Err :=
  {| Code := code; Message := fmt.Sprintf format args; Cause := None |}.

Definition AssertionErrorf (format : string) (args : list fmt.arg) : Err :=
  Errorf AssertionError format args.

(** Modelled from the spec: [WrapErrf(err, format, args...)] keeps the
    kind and adds context. *)
Definition WrapErrf (err : Err) (format : string) (args : list fmt.arg)
  : Err :=
  {| Code := Code err; Message := fmt.Sprintf format args;
     Cause := Some err |}.

End errors.

Export errors(ErrCode(..), Err).

Record ShellExitError := mkShellExitError {
  Command : string;
  ExitCode : Z
}.

Definition ShellExitError_Error (s : ShellExitError) : string :=
  fmt.Sprintf "shell %s exit code %d" [fmt.S_ (Command s); fmt.D_ (ExitCode s)].

(** The values of Go's interface type [error] that the client returns. *)
Inductive error :=
| ErrOf (e : Err)                 (* *errors.Err *)
| Errorf (msg : string)           (* the value of fmt.Errorf *)
| ShellExit (e : ShellExitError).

Global Instance ErrCode_eq_dec : EqDecision ErrCode.
Proof. solve_decision. Defined.

(** ** Argument slices

    A variadic parameter is a slice: its elements and the capacity left
    behind them in its backing array.  [append] writes in place when the
    capacity suffices, and the new slice then shares the backing array of
    the old one; otherwise it copies to a fresh array whose capacity the
    runtime chooses ([growcap], from the old capacity and the needed
    length). *)

Record slice := mkSlice {
  elems : list string;
  spare : nat
}.

Definition slice_of (l : list string) : slice := {| elems := l; spare := 0 |}.

Class Runtime := {
  growcap : nat -> nat -> nat
}.

Definition append `{Runtime} (s : slice) (xs : list string) : slice * bool :=
  let n := length (elems s ++ xs) in
  if (length xs <=? spare s)%nat then
    ({| elems := elems s ++ xs; spare := spare s - length xs |}, true)
  else
    ({| elems := elems s ++ xs;
        spare := growcap (length (elems s) + spare s)%nat n - n |}, false).

(** ** The command line (device.go, prepareCommandLine) *)

(** The helpers [isBlank] and [containsWhitespace] of the package are not
    among the sources: they are parameters of the development. *)
Class Helpers := {
  isBlank : string -> bool;
  containsWhitespace : string -> bool
}.

Section CommandLine.
Context `{Helpers}.

Definition quoted (arg : string) : string :=
  fmt.Sprintf (String DQUOTE ("%s" +:+ String DQUOTE "")) [fmt.S_ arg].

(** The loop over the arguments, from index [i] on.  It returns the
    elements as the loop leaves them (an argument with white space is
    overwritten in place by its quoted form) and the error that stopped
    it. *)
Fixpoint quoteArgs (i : Z) (args : list string) : list string * option Err :=
  match args with
  | [] => ([], None)
  | arg :: rest =>
      if strings.ContainsRune arg DQUOTE then
        (arg :: rest,
         Some (errors.Errorf errors.ParseError
                 "arg at index %d contains an invalid double quote: %s"
                 [fmt.D_ i; fmt.S_ arg]))
      else
        let arg' := if containsWhitespace arg then quoted arg else arg in
        let '(rest', err) := quoteArgs (i + 1) rest in
        (arg' :: rest', err)
  end.

(** [prepareCommandLine(cmd, args...)]: the command line and the error,
    and the elements of [args] after the call. *)
Definition prepareCommandLine (cmd : string) (args : list string)
  : (string * option Err) * list string :=
  if isBlank cmd then
    (("", Some (errors.AssertionErrorf "command cannot be empty" [])), args)
  else
    let '(args', err) := quoteArgs 0 args in
    match err with
    | Some e => (("", Some e), args')
    | None =>
        let cmd :=
          if 0 <? Z.of_nat (length args') then
            fmt.Sprintf "%s %s" [fmt.S_ cmd; fmt.S_ (strings.Join args' " ")]
          else cmd in
        ((cmd, None), args')
    end.

End CommandLine.

(** ** Package regexp

    The expressions of this program are built from literal ASCII
    characters, starred one-character classes and capture groups.  A match
    is the one a backtracking search finds first (leftmost, then by the
    preference of each operator), which is the match Go's engine reports.
    Go matches runes.  Every literal of these expressions and the line
    feed that [.] excludes are ASCII, and no ASCII byte lies inside the
    encoding of another rune, so matching byte by byte finds the same
    positions. *)

Module regexp.

Inductive regex :=
| Byte (c : ascii)
| Star (cls : ascii -> bool) (greedy : bool)
| Cat (r1 r2 : regex)
| Cap (i : nat) (r : regex).

(** [.]: any character but the line feed. *)
Definition dot (c : ascii) : bool := negb (Ascii.eqb c LF).

(** [\s]: the class [\t\n\f\r ]. *)
Definition space (c : ascii) : bool :=
  Ascii.eqb c TAB || Ascii.eqb c LF || Ascii.eqb c FF || Ascii.eqb c CR
  || Ascii.eqb c SP.

(** The positions of the groups: start and end byte index of each. *)
Definition caps := list (option (nat * nat)).

(** [run r s pos cs k]: match [r] at the head of [s], which is at byte
    index [pos] of the input, then continue with [k] on what is left. *)
Fixpoint run (r : regex) (s : string) (pos : nat) (cs : caps)
         (k : string -> nat -> caps -> option caps) {struct r} : option caps :=
  match r with
  | Byte c =>
      match s with
      | String a s' => if Ascii.eqb a c then k s' (S pos) cs else None
      | "" => None
      end
  | Star cls greedy =>
      (fix loop (s : string) (pos : nat) {struct s} : option caps :=
         match s with
         | String a s' =>
             if cls a then
               if greedy then
                 match loop s' (S pos) with
                 | Some m => Some m
                 | None => k s pos cs
                 end
               else
                 match k s pos cs with
                 | Some m => Some m
                 | None => loop s' (S pos)
                 end
             else k s pos cs
         | "" => k s pos cs
         end) s pos
  | Cat r1 r2 => run r1 s pos cs (fun s' pos' cs' => run r2 s' pos' cs' k)
  | Cap i r1 =>
      run r1 s pos cs (fun s' pos' cs' => k s' pos' (<[i := Some (pos, pos')]> cs'))
  end.

Definition numCap (ngroups : nat) : caps := replicate (S ngroups) None.

(** The leftmost match in [s], whose head is at byte index [pos]. *)
Fixpoint find_at (re : regex) (ngroups : nat) (s : string) (pos : nat)
  : option caps :=
  match run re s pos (numCap ngroups)
            (fun _ e cs => Some (<[0%nat := Some (pos, e)]> cs)) with
  | Some m => Some m
  | None =>
      match s with
      | "" => None
      | String _ s' => find_at re ngroups s' (S pos)
      end
  end.

Definition group (s : string) (c : option (nat * nat)) : string :=
  match c with
  | Some (b, e) => str_take (e - b) (str_drop b s)
  | None => ""
  end.

Definition bounds (m : caps) : Z * Z :=
  match m with
  | Some (b, e) :: _ => (Z.of_nat b, Z.of_nat e)
  | _ => (-1, -1)
  end.

(** The loop of [allMatches]: successive matches from [pos] on, an empty
    match next to the previous match being passed over. *)
Fixpoint allMatches (fuel : nat) (re : regex) (ngroups : nat) (s : string)
         (pos i prevMatchEnd n : Z) : list (list string) :=
  match fuel with
  | O => []
  | S fuel' =>
      if (i <? n) && (pos <=? len s) then
        match find_at re ngroups (str_drop (Z.to_nat pos) s) (Z.to_nat pos) with
        | None => []
        | Some m =>
            let '(m0, m1) := bounds m in
            let accept := negb ((m1 =? pos) && (m0 =? prevMatchEnd)) in
            let pos' :=
              if m1 =? pos then
                let width :=
                  if pos <? len s then
                    snd (utf8.DecodeRuneInString (str_slice s pos (len s)))
                  else 0 in
                if 0 <? width then pos + width else len s + 1
              else m1 in
            if accept then
              map (group s) m
                :: allMatches fuel' re ngroups s pos' (i + 1) m1 n
            else allMatches fuel' re ngroups s pos' i m1 n
        end
      else []
  end.

(** [FindAllStringSubmatch(s, n)]: for each match the text of the match
    and of its groups. *)
Definition FindAllStringSubmatch (re : regex) (ngroups : nat) (s : string)
           (n : Z) : list (list string) :=
  let n := if n <? 0 then len s + 1 else n in
  allMatches (String.length s + 2) re ngroups s 0 0 (-1) n.

End regexp.

(** The expression [\[(.*?)\]:\s*\[(.*?)\]] of [Properties]. *)
Definition propsRegexp : regexp.regex :=
  regexp.Cat (regexp.Byte "[")
 (regexp.Cat (regexp.Cap 1 (regexp.Star regexp.dot false))
 (regexp.Cat (regexp.Byte "]")
 (regexp.Cat (regexp.Byte ":")
 (regexp.Cat (regexp.Star regexp.space true)
 (regexp.Cat (regexp.Byte "[")
 (regexp.Cat (regexp.Cap 2 (regexp.Star regexp.dot false))
             (regexp.Byte "]"))))))).

(** The loop of [Properties] over the matches: [props[m[1]] = m[2]]. *)
Definition propsOfMatches (matches : list (list string)) : gmap string string :=
  foldl (fun props m => <[m !!! 1%nat := m !!! 2%nat]> props) ∅ matches.

Definition parseProps (propOutput : string) : gmap string string :=
  propsOfMatches (regexp.FindAllStringSubmatch propsRegexp 2 propOutput (-1)).

(** ** The server and its connections

    An operation of the client runs against the state of the world
    outside it (the server, its sockets): a computation takes that state
    and returns its result with the new state. *)

Definition IO (W A : Type) : Type := W -> A * W.

Global Instance IO_ret {W} : MRet (IO W) := fun A a w => (a, w).
Global Instance IO_bind {W} : MBind (IO W) :=
  fun A B f m w => let '(a, w') := m w in f a w'.

(** The package wire, the interface [server], the descriptor of a device
    and the round trip of one request are not among the sources: they are
    parameters of the development.  A fallible operation returns its value
    or an error of the taxonomy.  A [Conn] is a connection that was
    dialled; [CloseNil] is the method [Close] called on the nil
    [*wire.Conn], whose effect is decided by the package as well. *)
Class Wire := {
  World : Type;
  Conn : Type;
  DeviceDescriptor : Type;
  getHostPrefix : DeviceDescriptor -> string;
  getTransportDescriptor : DeviceDescriptor -> string;
  descriptorString : DeviceDescriptor -> string;
  Dial : IO World (Conn + Err);
  SendMessage : Conn -> string -> IO World (option Err);
  ReadStatus : Conn -> string -> IO World (string + Err);
  ReadUntilEof : Conn -> IO World (string + Err);
  Close : Conn -> IO World (option Err);
  CloseNil : IO World (option Err);
  roundTripSingleResponse : string -> IO World (string + Err)
}.

(** Modelled from the spec: a row of a device listing.  The struct is not
    among the sources. *)
Record DeviceInfo := mkDeviceInfo {
  Serial : string;
  Product : string;
  Model : string;
  DeviceName : string;
  TransportID : Z
}.

Record Device `{Wire} := mkDevice {
  descriptor : DeviceDescriptor;
  deviceListFunc : IO World (list DeviceInfo * option Err)
}.

(** Modelled from the spec: [wrapClientError(err, client, operation)],
    which is not among the sources, passes nil through and wraps an error
    in one of the same kind that names the operation and the device. *)
Definition wrapErr `{Wire} (e : Err) (c : Device) (operation : string) : Err :=
  errors.WrapErrf e "error performing %s on %s"
    [fmt.S_ operation; fmt.S_ (descriptorString (descriptor c))].

Definition wrapClientError `{Wire} (err : option Err) (c : Device)
           (operation : string) : option Err :=
  match err with
  | None => None
  | Some e => Some (wrapErr e c operation)
  end.

Record ForwardSpec := mkForwardSpec {
  Protocol : string;
  PortOrName : string
}.

Record ForwardPair := mkForwardPair {
  FSerial : string;
  Local_ : ForwardSpec;
  Remote : ForwardSpec
}.

Global Instance ForwardSpec_eq_dec : EqDecision ForwardSpec.
Proof. solve_decision. Defined.

(** ** device.go *)

Module device.

Local Abbreviation DeviceInfo_Serial := Serial (only parsing).

Definition ForwardSpec_String (f : ForwardSpec) : string :=
  fmt.Sprintf "%s:%s" [fmt.S_ (Protocol f); fmt.S_ (PortOrName f)].

(** [(f *ForwardSpec) parseString(s)]: the receiver after the call and the
    error. *)
Definition parseString (f : ForwardSpec) (s : string)
  : ForwardSpec * option error :=
  let fields := strings.Split s ":" in
  if negb (Z.of_nat (length fields) =? 2) then
    (f, Some (Errorf (fmt.Sprintf "expect string contains only one ':', str = %s"
                        [fmt.S_ s])))
  else
    ({| Protocol := fields !!! 0%nat; PortOrName := fields !!! 1%nat |}, None).

(** The loop of [ForwardList], for the indices [is_] of the rows still to
    be visited. *)
Fixpoint ForwardList_loop (fields : list string) (devSerial : string)
         (is_ : list nat) (fs : list ForwardPair)
  : list ForwardPair * option error :=
  match is_ with
  | [] => (fs, None)
  | i :: is' =>
      let zero := {| Protocol := ""; PortOrName := "" |} in
      let serial := fields !!! (i * 3)%nat in
      if negb (String.eqb serial devSerial) then
        ForwardList_loop fields devSerial is' fs
      else
        let '(local, err) := parseString zero (fields !!! (i * 3 + 1)%nat) in
        match err with
        | Some e => ([], Some e)
        | None =>
            let '(remote, err) := parseString zero (fields !!! (i * 3 + 2)%nat) in
            match err with
            | Some e => ([], Some e)
            | None =>
                ForwardList_loop fields devSerial is'
                  (fs ++ [{| FSerial := serial; Local_ := local; Remote := remote |}])
            end
        end
  end.

Section Client.
Context `{Helpers} `{Runtime} `{Wire}.

Definition getAttribute (c : Device) (attr : string)
  : IO World (string * option Err) :=
  r ← roundTripSingleResponse
        (fmt.Sprintf "%s:%s" [fmt.S_ (getHostPrefix (descriptor c)); fmt.S_ attr]);
  match r with
  | inr err => mret ("", Some err)
  | inl resp => mret (resp, None)
  end.

Definition Serial (c : Device) : IO World (string * option Err) :=
  '(attr, err) ← getAttribute c "get-serialno";
  mret (attr, wrapClientError err c "Serial").

Definition ForwardList (c : Device) : IO World (list ForwardPair * option error) :=
  '(devSerial, err) ← Serial c;
  match err with
  | Some e => mret ([], Some (ErrOf e))
  | None =>
      '(attr, err) ← getAttribute c "list-forward";
      match err with
      | Some e => mret ([], Some (ErrOf e))
      | None =>
          let fields := strings.Fields attr in
          if negb (Z.of_nat (length fields) mod 3 =? 0) then
            mret ([], Some (Errorf "list forward parse error"))
          else
            mret (ForwardList_loop fields devSerial
                    (seq 0 (length fields / 3)) [])
      end
  end.

Definition DeviceInfo (c : Device) : IO World (option DeviceInfo * option Err) :=
  '(serial, err) ← Serial c;
  match err with
  | Some _ => mret (None, wrapClientError err c "GetDeviceInfo(GetSerial)")
  | None =>
      '(devices, err) ← deviceListFunc c;
      match err with
      | Some _ => mret (None, wrapClientError err c "DeviceInfo(ListDevices)")
      | None =>
          match find (fun deviceInfo => String.eqb (DeviceInfo_Serial deviceInfo) serial)
                     devices with
          | Some deviceInfo => mret (Some deviceInfo, None)
          | None =>
              let err := errors.Errorf errors.DeviceNotFound
                           "device list doesn't contain serial %s" [fmt.S_ serial] in
              mret (None, wrapClientError (Some err) c "DeviceInfo")
          end
      end
  end.

Definition dialDevice (c : Device) : IO World (Conn + Err) :=
  r ← Dial;
  match r with
  | inr err => mret (inr err)
  | inl conn =>
      let req := fmt.Sprintf "host:%s"
                   [fmt.S_ (getTransportDescriptor (descriptor c))] in
      err ← SendMessage conn req;
      match err with
      | Some e =>
          _ ← Close conn;
          mret (inr (errors.WrapErrf e "error connecting to device '%s'"
                       [fmt.S_ (descriptorString (descriptor c))]))
      | None =>
          r ← ReadStatus conn req;
          match r with
          | inr e => _ ← Close conn; mret (inr e)
          | inl _ => mret (inl conn)
          end
      end
  end.

(** [OpenCommand(cmd, args...)]: the connection or the error, and the
    elements of [args] after the call.  The results are named: when
    [SendMessage] or [ReadStatus] fails, [return nil, err] sets [conn] to
    nil before the deferred function runs, so that the deferred
    [conn.Close()] has the nil connection as its receiver and the
    connection that was dialled stays open. *)
Definition OpenCommand (c : Device) (cmd : string) (args : slice)
  : IO World ((Conn + Err) * list string) :=
  let '((cmd, err), args') := prepareCommandLine cmd (elems args) in
  match wrapClientError err c "RunCommand" with
  | Some e => mret (inr e, args')
  | None =>
      r ← dialDevice c;
      match r with
      | inr e => mret (inr (wrapErr e c "RunCommand"), args')
      | inl conn =>
          let req := fmt.Sprintf "shell:%s" [fmt.S_ cmd] in
          err ← SendMessage conn req;
          match wrapClientError err c "Command" with
          | Some e => _ ← CloseNil; mret (inr e, args')
          | None =>
              r ← ReadStatus conn req;
              match r with
              | inr e => _ ← CloseNil; mret (inr (wrapErr e c "Command"), args')
              | inl _ => mret (inl conn, args')
              end
          end
      end
  end.

Definition commandOutput (c : Device) (cmd : string) (args : slice)
  : IO World ((string * option Err) * list string) :=
  '(r, args') ← OpenCommand c cmd args;
  match r with
  | inr e => mret (("", Some e), args')
  | inl conn =>
      r ← ReadUntilEof conn;
      match r with
      | inr e => mret (("", wrapClientError (Some e) c "RunCommand"), args')
      | inl resp => mret ((resp, None), args')
      end
  end.

(** [RunCommand(cmd, args...)]: the output and the error, and the elements
    of [args] after the call: when [append] has written in place, the
    quoting of [prepareCommandLine] shows through to [args]. *)
Definition RunCommand (c : Device) (cmd : string) (args : slice)
  : IO World ((string * option error) * list string) :=
  let '(exArgs, shared) := append args [";"; "echo"; ":$?"] in
  '((outStr, err), exArgs') ← commandOutput c cmd exArgs;
  let args' := if shared then take (length (elems args)) exArgs' else elems args in
  match err with
  | Some e => mret ((outStr, Some (ErrOf e)), args')
  | None =>
      let idx := strings.LastIndexByte outStr ":" in
      if idx =? -1 then
        mret ((outStr, Some (Errorf "adb shell error, parse exit code failed")), args')
      else
        let '(exitCode, _) :=
          strconv.Atoi (strings.TrimSpace (str_slice outStr (idx + 1) (len outStr))) in
        let err :=
          if negb (exitCode =? 0) then
            Some (ShellExit {| Command := strings.Join args' " ";
                               ExitCode := exitCode |})
          else None in
        let outStr := strings.Replace (str_slice outStr 0 idx) CRLF NL (-1) in
        mret ((outStr, err), args')
  end.

Definition Properties (c : Device)
  : IO World (option (gmap string string) * option Err) :=
  '((propOutput, err), _) ← commandOutput c "getprop" (slice_of []);
  match err with
  | Some e => mret (None, Some e)
  | None => mret (Some (parseProps propOutput), None)
  end.

End Client.
End device.

(** ** device_extra.go *)

Module device_extra.
Section Client.
Context `{Helpers} `{Runtime} `{Wire}.

Definition Properties (c : Device)
  : IO World (option (gmap string string) * option error) :=
  '((propOutput, err), _) ← device.RunCommand c "getprop" (slice_of []);
  match err with
  | Some e => mret (None, Some e)
  | None => mret (Some (parseProps propOutput), None)
  end.

(** [RunCommandWithExitCode(cmd, args...)]: the output, the exit code and
    the error. *)
Definition RunCommandWithExitCode (c : Device) (cmd : string) (args : slice)
  : IO World (string * Z * option error) :=
  let '(exArgs, shared) := append args [";"; "echo"; ":$?"] in
  '((outStr, err), exArgs') ← device.RunCommand c cmd exArgs;
  let args' := if shared then take (length (elems args)) exArgs' else elems args in
  match err with
  | Some e => mret (outStr, 0, Some e)
  | None =>
      let idx := strings.LastIndexByte outStr ":" in
      if idx =? -1 then
        mret (outStr, 0, Some (Errorf "adb shell aborted, can not parse exit code"))
      else
        let '(exitCode, _) :=
          strconv.Atoi (strings.TrimSpace (str_slice outStr (idx + 1) (len outStr))) in
        let err :=
          if negb (exitCode =? 0) then
            Some (ShellExit {| Command := strings.Join args' " ";
                               ExitCode := exitCode |})
          else None in
        let outStr := strings.Replace (str_slice outStr 0 idx) CRLF NL (-1) in
        mret (outStr, exitCode, err)
  end.

End Client.
End device_extra.

(** ** The mock server (server_mock.go) *)

Module mock.

(** [MockServer] implements the server, its scanner and its sender.  Each
    operation first logs its name, then returns the head of [Errs] when
    there is one; a nil head is removed and lets the operation through. *)
Record MockServer := mkMockServer {
  Errs : list (option Err);
  Status : string;
  Messages : list string;
  nextMsgIndex : nat;
  Requests : list string;
  Trace : list string
}.

Definition logMethod (name : string) : IO MockServer unit :=
  fun s =>
    (tt, {| Errs := Errs s; Status := Status s; Messages := Messages s;
            nextMsgIndex := nextMsgIndex s; Requests := Requests s;
            Trace := Trace s ++ [name] |}).

Definition getNextErrToReturn : IO MockServer (option Err) :=
  fun s =>
    match Errs s with
    | err :: errs =>
        (err, {| Errs := errs; Status := Status s; Messages := Messages s;
                 nextMsgIndex := nextMsgIndex s; Requests := Requests s;
                 Trace := Trace s |})
    | [] => (None, s)
    end.

Definition setNextMsgIndex (i : nat) : IO MockServer unit :=
  fun s =>
    (tt, {| Errs := Errs s; Status := Status s; Messages := Messages s;
            nextMsgIndex := i; Requests := Requests s; Trace := Trace s |}).

Definition appendRequest (msg : string) : IO MockServer unit :=
  fun s =>
    (tt, {| Errs := Errs s; Status := Status s; Messages := Messages s;
            nextMsgIndex := nextMsgIndex s; Requests := Requests s ++ [msg];
            Trace := Trace s |}).

Definition get : IO MockServer MockServer := fun s => (s, s).

(** The end-of-file error of the mock: a [NetworkError] with an empty
    message. *)
Definition eofError : Err :=
  {| errors.Code := errors.NetworkError; errors.Message := "";
     errors.Cause := None |}.

Definition Dial : IO MockServer (unit + Err) :=
  _ ← logMethod "Dial";
  err ← getNextErrToReturn;
  match err with
  | Some e => mret (inr e)
  | None => mret (inl tt)
  end.

Definition ReadStatus (req : string) : IO MockServer (string + Err) :=
  _ ← logMethod "ReadStatus";
  err ← getNextErrToReturn;
  match err with
  | Some e => mret (inr e)
  | None => s ← get; mret (inl (Status s))
  end.

Definition ReadMessage : IO MockServer (string + Err) :=
  _ ← logMethod "ReadMessage";
  err ← getNextErrToReturn;
  match err with
  | Some e => mret (inr e)
  | None =>
      s ← get;
      match Messages s !! nextMsgIndex s with
      | None => mret (inr eofError)
      | Some msg => _ ← setNextMsgIndex (S (nextMsgIndex s)); mret (inl msg)
      end
  end.

Definition ReadUntilEof : IO MockServer (string + Err) :=
  _ ← logMethod "ReadUntilEof";
  err ← getNextErrToReturn;
  match err with
  | Some e => mret (inr e)
  | None =>
      s ← get;
      let data := drop (nextMsgIndex s) (Messages s) in
      _ ← setNextMsgIndex (Nat.max (nextMsgIndex s) (length (Messages s)));
      mret (inl (strings.Join data ""))
  end.

Definition SendMessage (msg : string) : IO MockServer (option Err) :=
  _ ← logMethod "SendMessage";
  err ← getNextErrToReturn;
  match err with
  | Some e => mret (Some e)
  | None => _ ← appendRequest msg; mret None
  end.

Definition Close : IO MockServer (option Err) :=
  _ ← logMethod "Close";
  getNextErrToReturn.

(** Modelled from the spec: the selector of a device, which is not among
    the sources, with the host prefix and the transport selector of each
    variant; those of the TCP variant take the protocol's name for it. *)
Inductive DeviceDescriptor :=
| DeviceWithSerial (serial : string)
| AnyDevice
| AnyUsbDevice
| AnyLocalDevice
| DeviceWithTransportID (id : Z).

Definition getHostPrefix (d : DeviceDescriptor) : string :=
  match d with
  | DeviceWithSerial serial => fmt.Sprintf "host-serial:%s" [fmt.S_ serial]
  | AnyDevice => "host"
  | AnyUsbDevice => "host-usb"
  | AnyLocalDevice => "host-local"
  | DeviceWithTransportID id => fmt.Sprintf "host-transport-id:%d" [fmt.D_ id]
  end.

Definition getTransportDescriptor (d : DeviceDescriptor) : string :=
  match d with
  | DeviceWithSerial serial => fmt.Sprintf "transport:%s" [fmt.S_ serial]
  | AnyDevice => "transport-any"
  | AnyUsbDevice => "transport-usb"
  | AnyLocalDevice => "transport-local"
  | DeviceWithTransportID id => fmt.Sprintf "transport-id:%d" [fmt.D_ id]
  end.

(** Modelled from the spec: the round trip of one host-scoped request,
    which is not among the sources: dial, send the request, read the
    status, read one length-prefixed message, close. *)
Definition roundTripSingleResponse (req : string) : IO MockServer (string + Err) :=
  r ← Dial;
  match r with
  | inr e => mret (inr e)
  | inl _ =>
      err ← SendMessage req;
      match err with
      | Some e => _ ← Close; mret (inr e)
      | None =>
          r ← ReadStatus req;
          match r with
          | inr e => _ ← Close; mret (inr e)
          | inl _ => resp ← ReadMessage; _ ← Close; mret resp
          end
      end
  end.

(** Modelled from the spec: [Close] on the nil connection.  The package
    wire is not among the sources; by the spec no operation panics on a
    failure of the protocol, and the nil connection holds no scanner and
    no sender, so the call returns without reaching the mock. *)
Definition CloseNil : IO MockServer (option Err) := mret None.

(** The mock as the world of the client: a connection made by
    [wire.NewConn(s, s)] hands every operation to the mock, and a
    descriptor prints as its transport selector. *)
Definition wire : Wire :=
  Build_Wire MockServer unit DeviceDescriptor
    getHostPrefix getTransportDescriptor getTransportDescriptor
    Dial (fun _ => SendMessage) (fun _ => ReadStatus) (fun _ => ReadUntilEof)
    (fun _ => Close) CloseNil roundTripSingleResponse.

(** The helpers of the command line.  Modelled from the spec: a command
    is blank when it is empty or all white space, and an argument is
    quoted when it contains white space. *)
Fixpoint allSpace (s : string) : bool :=
  match s with
  | "" => true
  | String a s' => strings.asciiSpace a && allSpace s'
  end.

Fixpoint anySpace (s : string) : bool :=
  match s with
  | "" => false
  | String a s' => strings.asciiSpace a || anySpace s'
  end.

Definition helpers : Helpers :=
  {| isBlank := allSpace; containsWhitespace := anySpace |}.

(** A runtime that doubles the capacity of a slice that must grow. *)
Definition runtime : Runtime :=
  {| growcap := fun old needed => Nat.max needed (2 * old) |}.

Definition server (status : string) (messages : list string) : MockServer :=
  {| Errs := []; Status := status; Messages := messages; nextMsgIndex := 0;
     Requests := []; Trace := [] |}.

Definition client (d : DeviceDescriptor)
           (lister : IO MockServer (list DeviceInfo * option Err))
  : @Device wire :=
  @mkDevice wire d lister.

Definition noDevices : IO MockServer (list DeviceInfo * option Err) :=
  mret ([], None).

End mock.

(** ** What the properties are stated with *)

(** An argument in double quotes. *)
Definition inQuotes (arg : string) : string :=
  String DQUOTE (arg +:+ String DQUOTE "").

Definition hasQuote (arg : string) : bool := str_mem DQUOTE arg.

(** An argument as it stands in the command line. *)
Definition quoteArg `{Helpers} (arg : string) : string :=
  if containsWhitespace arg then inQuotes arg else arg.

(** The tokens that [RunCommand] appends to its arguments. *)
Definition sentinel : list string := [";"; "echo"; ":$?"].

(** The rows of a list-forward response: its tokens three by three. *)
Fixpoint rows (fields : list string) : list (string * string * string) :=
  match fields with
  | serial :: local :: remote :: rest => (serial, local, remote) :: rows rest
  | _ => []
  end.

Definition rowSerial (row : string * string * string) : string := row.1.1.

(** A token of the form [protocol:value]: exactly two fields between
    colons. *)
Definition wellFormed (token : string) : bool :=
  bool_decide (length (strings.Split token ":") = 2%nat).

Definition specOf (token : string) : ForwardSpec :=
  {| Protocol := strings.Split token ":" !!! 0%nat;
     PortOrName := strings.Split token ":" !!! 1%nat |}.

Definition pairOf (row : string * string * string) : ForwardPair :=
  {| FSerial := row.1.1; Local_ := specOf row.1.2; Remote := specOf row.2 |}.

Definition rowOk (row : string * string * string) : bool :=
  wellFormed row.1.2 && wellFormed row.2.

Definition formatError (token : string) : error :=
  Errorf ("expect string contains only one ':', str = " +:+ token).

(** The first malformed token of a row. *)
Definition badToken (row : string * string * string) : string :=
  if wellFormed row.1.2 then row.2 else row.1.2.

(** The loop of [ForwardList] read row by row. *)
Fixpoint loopRows (devSerial : string) (rs : list (string * string * string))
         (fs : list ForwardPair) : list ForwardPair * option error :=
  match rs with
  | [] => (fs, None)
  | row :: rs' =>
      if negb (String.eqb (rowSerial row) devSerial) then loopRows devSerial rs' fs
      else if rowOk row then loopRows devSerial rs' (fs ++ [pairOf row])
      else ([], Some (formatError (badToken row)))
  end.

Definition mine (devSerial : string) (rs : list (string * string * string))
  : list (string * string * string) :=
  filter (fun row => rowSerial row = devSerial) rs.

(** The elements of [args] after a call of [RunCommand] that went through
    the command line: quoted in place when the slice had room for the
    three tokens of the sentinel. *)
Definition afterCall `{Helpers} (args : slice) : list string :=
  if (3 <=? spare args)%nat then map quoteArg (elems args) else elems args.

(** A text with every CRLF turned into LF: a carriage return that stands
    right before a line feed is dropped. *)
Fixpoint lfOnly (s : string) : string :=
  match s with
  | "" => ""
  | String c s' =>
      match s' with
      | String d _ =>
          if Ascii.eqb c CR && Ascii.eqb d LF then lfOnly s'
          else String c (lfOnly s')
      | "" => String c ""
      end
  end.

(** A text without the white space at its head: the runes at the head
    are taken off one by one as long as they are white space. *)
Fixpoint trimHead (fuel : nat) (s : string) : string :=
  match fuel with
  | O => s
  | S k =>
      let '(r, size) := utf8.DecodeRuneInString s in
      if unicode.IsSpace r then trimHead k (str_drop (Z.to_nat size) s) else s
  end.

(** The same at the end of a text. *)
Fixpoint trimTail (fuel : nat) (s : string) : string :=
  match fuel with
  | O => s
  | S k =>
      let '(r, size) := utf8.DecodeLastRuneInString s in
      if unicode.IsSpace r
      then trimTail k (str_take (String.length s - Z.to_nat size) s)
      else s
  end.

(** A text without the white space at its two ends. *)
Definition trim (s : string) : string :=
  trimTail (String.length s) (trimHead (String.length s) s).

(** Decimal numerals. *)
Definition isDigit (c : ascii) : bool :=
  (48 <=? byte_val c) && (byte_val c <=? 57).

Definition digitValue (c : ascii) : Z := byte_val c - 48.

Fixpoint allDigits (s : string) : bool :=
  match s with
  | "" => true
  | String c s' => isDigit c && allDigits s'
  end.

(** The number that a string of digits denotes, read with the most
    significant digit first. *)
Fixpoint decimal (s : string) : Z :=
  match s with
  | "" => 0
  | String c s' => digitValue c * 10 ^ len s' + decimal s'
  end.

(** The digits at the head of a text. *)
Fixpoint leadingDigits (s : string) : string :=
  match s with
  | "" => ""
  | String c s' => if isDigit c then String c (leadingDigits s') else ""
  end.

Definition negative (s : string) : bool :=
  match s with
  | String c _ => Ascii.eqb c "-"
  | "" => false
  end.

(** A text without its sign. *)
Definition unsigned (s : string) : string :=
  match s with
  | String c s' => if Ascii.eqb c "-" || Ascii.eqb c "+" then s' else s
  | "" => ""
  end.

(** A decimal numeral: an optional sign and one or more digits. *)
Definition isNumeral (s : string) : bool :=
  allDigits (unsigned s) && (0 <? len (unsigned s)).

(** The integer that a numeral denotes. *)
Definition denoted (s : string) : Z :=
  if negative s then - decimal (unsigned s) else decimal (unsigned s).

Definition intMax : Z := 2 ^ 63 - 1.
Definition intMin : Z := - 2 ^ 63.

(** The nearest value within the range of [int]. *)
Definition clampInt (z : Z) : Z := Z.max intMin (Z.min intMax z).

(** The exit code that a text stands for: the integer that a numeral
    denotes, limited to the range of [int]; and 0 for a text that is not
    a numeral, unless the digits at its head, after the sign, already
    denote more than 64 bits hold: the bound of [int] on the side of the
    sign then. *)
Definition codeOfText (t : string) : Z :=
  if isNumeral t then clampInt (denoted t)
  else if 2 ^ 64 <=? decimal (leadingDigits (unsigned t))
       then (if negative t then intMin else intMax)
       else 0.

(** The end that [TrimRightFunc] computes from the index [i] of the last
    rune that is no white space: [i] plus the width of that rune. *)
Definition rightEnd (s : string) (i : Z) : Z :=
  if (0 <=? i) && (utf8.RuneSelf <=? utf8.nth_byte s (Z.to_nat i))
  then i + snd (utf8.DecodeRuneInString (str_slice s i (len s)))
  else i + 1.

(** The byte at index [e] does not continue a rune that starts before
    it. *)
Definition boundary (s : string) (e : nat) : Prop :=
  e = String.length s \/ utf8.nth_byte s e < 128 \/ 191 < utf8.nth_byte s e.

(** The texts of a list with a single space between one and the next. *)
Fixpoint spaced (l : list string) : string :=
  match l with
  | [] => ""
  | a :: rest =>
      match rest with
      | [] => a
      | _ => a +:+ " " +:+ spaced rest
      end
  end.

(** The error that reports an exit code. *)
Definition exitError (command : string) (code : Z) : option error :=
  if code =? 0 then None
  else Some (ShellExit {| Command := command; ExitCode := code |}).

(** The exit code read from the text after the last colon: that of the
    text without the white space at its ends. *)
Definition exitCodeOf (suf : string) : Z := codeOfText (trim suf).

(** The elements of [args] after a call of [RunCommandWithExitCode] that
    went through the command line: quoted in place when the slice had
    room for the six tokens of the two sentinels. *)
Definition afterCall2 `{Helpers} (args : slice) : list string :=
  if (6 <=? spare args)%nat then map quoteArg (elems args) else elems args.

(** The output of getprop and the mapping of the test of [Properties]. *)
Definition getpropOutput : string :=
  "[wifi.interface]: [wlan0]" +:+ CRLF +:+ "[wlan.driver.ath]: [0]" +:+ CRLF.

Definition wifiProps : gmap string string :=
  <["wifi.interface" := "wlan0"]> (<["wlan.driver.ath" := "0"]> ∅).

(** ** Runs on the mock server *)

Definition anyClient : @Device mock.wire :=
  mock.client mock.AnyDevice mock.noDevices.

Definition shellServer (output : string) : mock.MockServer :=
  mock.server "OKAY" [output].

(** The mock run of a list-forward: the serial, then the response. *)
Definition rowsServer (response : string) : mock.MockServer :=
  mock.server "OKAY" ["abc"; response].

Definition abcClient : @Device mock.wire :=
  mock.client (mock.DeviceWithSerial "abc") mock.noDevices.

Definition threeRows : string :=
  "serial tcp:8999 tcp:d1" +:+ NL +:+ "abc tcp:8994 udp:d2" +:+ NL
  +:+ "abc tcp:8995 udp:d3".

(** The lister of the test of [DeviceInfo]. *)
Definition fooBarLister : IO mock.MockServer (list DeviceInfo * option Err) :=
  mret ([ {| Serial := "abc"; Product := "Foo"; Model := ""; DeviceName := "";
             TransportID := 0 |};
          {| Serial := "def"; Product := "Bar"; Model := ""; DeviceName := "";
             TransportID := 0 |} ], None).

(** ** The rest of device.go

    The state of a device and its parser, the round trip of a request
    without a response and the round trip on an open connection are not
    among the sources: they are parameters. *)

Class Host `{Wire} := {
  DeviceState : Type;
  parseDeviceState : string -> DeviceState * option Err;
  roundTripSingleNoResponse : string -> IO World (option Err);
  RoundTripSingleResponse : Conn -> string -> IO World (string * option Err)
}.

Module device_rest.
Section Client.
Context `{Wire} `{!Host}.

Definition product (c : Device) : IO World (string * option Err) :=
  '(attr, err) ← device.getAttribute c "get-product";
  mret (attr, wrapClientError err c "Product").

Definition DevicePath (c : Device) : IO World (string * option Err) :=
  '(attr, err) ← device.getAttribute c "get-devpath";
  mret (attr, wrapClientError err c "DevicePath").

(** [State]: the error of [getAttribute] is overwritten by the one of
    [parseDeviceState]. *)
Definition State (c : Device) : IO World (DeviceState * option Err) :=
  '(attr, _) ← device.getAttribute c "get-state";
  let '(state, err) := parseDeviceState attr in
  mret (state, wrapClientError err c "State").

Definition ForwardRemove (c : Device) (local : ForwardSpec)
  : IO World (option Err) :=
  err ← roundTripSingleNoResponse
          (fmt.Sprintf "%s:killforward:%v"
             [fmt.S_ (getHostPrefix (descriptor c));
              fmt.S_ (device.ForwardSpec_String local)]);
  mret (wrapClientError err c "ForwardRemove").

Definition ForwardRemoveAll (c : Device) : IO World (option Err) :=
  err ← roundTripSingleNoResponse
          (fmt.Sprintf "%s:killforward-all"
             [fmt.S_ (getHostPrefix (descriptor c))]);
  mret (wrapClientError err c "ForwardRemoveAll").

Definition Forward (c : Device) (local remote : ForwardSpec)
  : IO World (option Err) :=
  err ← roundTripSingleNoResponse
          (fmt.Sprintf "%s:forward:%v;%v"
             [fmt.S_ (getHostPrefix (descriptor c));
              fmt.S_ (device.ForwardSpec_String local);
              fmt.S_ (device.ForwardSpec_String remote)]);
  mret (wrapClientError err c "Forward").

(** [Remount]: the deferred [Close] runs after the round trip, whatever
    its outcome. *)
Definition Remount (c : Device) : IO World (string * option Err) :=
  r ← device.dialDevice c;
  match r with
  | inr e => mret ("", Some (wrapErr e c "Remount"))
  | inl conn =>
      '(resp, err) ← RoundTripSingleResponse conn "remount";
      _ ← Close conn;
      mret (resp, wrapClientError err c "Remount")
  end.

End Client.
End device_rest.

(** ** The rest of device_extra.go *)

Record Process := mkProcess {
  User : string;
  Pid : Z;
  Name : string
}.

(** The case tables of package unicode are not reproduced: [ToUpper] is a
    parameter. *)
Class Unicode := {
  ToUpper : string -> string
}.

Module device_extra_rest.
Section Lines.
Context `{Unicode}.

(** The loop over the names of the header, from index [index] on: the
    value of each column is the field of the same index. *)
Fixpoint fillProcess (fields : list string) (index : nat)
         (fieldNames : list string) (process : Process) : Process :=
  match fieldNames with
  | [] => process
  | name :: names =>
      let value := fields !!! index in
      let upper := ToUpper name in
      let process :=
        if String.eqb upper "PID" then
          {| User := User process; Pid := fst (strconv.Atoi value);
             Name := Name process |}
        else if String.eqb upper "NAME" then
          {| User := User process; Pid := Pid process;
             Name := fields !!! (length fields - 1)%nat |}
        else if String.eqb upper "USER" then
          {| User := value; Pid := Pid process; Name := Name process |}
        else process in
      fillProcess fields (S index) names process
  end.

(** The loop of [ListProcesses] over the lines that [ReadLine] returns,
    in order.  [ReadLine] returns a line or an error, never both: the end
    of the list stands for the read that returns no line, at the end of
    the stream or on an error, where the loop breaks as on a blank line.
    [fieldNames] is [None] as long as the header has not been read. *)
Fixpoint ListProcesses_loop (lines : list string)
         (fieldNames : option (list string)) (ps : list Process)
  : list Process :=
  match lines with
  | [] => ps
  | line :: lines' =>
      let fields := strings.Fields (strings.TrimSpace line) in
      if Z.of_nat (length fields) =? 0 then ps
      else
        match fieldNames with
        | None => ListProcesses_loop lines' (Some fields) ps
        | Some names =>
            if negb (Z.of_nat (length fields) =? Z.of_nat (length names) + 1)
            then ListProcesses_loop lines' fieldNames ps
            else
              let process :=
                fillProcess fields 0 names
                  {| User := ""; Pid := 0; Name := "" |} in
              if Pid process =? 0 then ListProcesses_loop lines' fieldNames ps
              else ListProcesses_loop lines' fieldNames (ps ++ [process])
        end
  end.

Definition ListProcesses_lines (lines : list string) : list Process :=
  ListProcesses_loop lines None [].

End Lines.
End device_extra_rest.

(** ** The rest of the mock server (server_mock.go) *)

Module mock_rest.

Definition Start : IO mock.MockServer (option Err) :=
  _ ← mock.logMethod "Start";
  mret None.

(** [Read(p)]: the number of bytes read and the error; [p] is not
    written. *)
Definition Read (p : list ascii) : IO mock.MockServer (Z * option Err) :=
  _ ← mock.logMethod "Read";
  err ← mock.getNextErrToReturn;
  match err with
  | Some e => mret (0, Some e)
  | None =>
      s ← mock.get;
      if (length (mock.Messages s) <=? mock.nextMsgIndex s)%nat then
        mret (0, Some mock.eofError)
      else
        _ ← mock.setNextMsgIndex (S (mock.nextMsgIndex s));
        mret (Z.of_nat (length p), None)
  end.

Definition Write (p : list ascii) : IO mock.MockServer (Z * option Err) :=
  _ ← mock.logMethod "Write";
  err ← mock.getNextErrToReturn;
  match err with
  | Some e => mret (0, Some e)
  | None => mret (Z.of_nat (length p), None)
  end.

(** Modelled from the spec: the round trip of a request without a
    response, which is not among the sources: dial, send the request, read
    the status, close. *)
Definition roundTripSingleNoResponse (req : string)
  : IO mock.MockServer (option Err) :=
  r ← mock.Dial;
  match r with
  | inr e => mret (Some e)
  | inl _ =>
      err ← mock.SendMessage req;
      match err with
      | Some e => _ ← mock.Close; mret (Some e)
      | None =>
          r ← mock.ReadStatus req;
          _ ← mock.Close;
          match r with
          | inr e => mret (Some e)
          | inl _ => mret None
          end
      end
  end.

(** The operations of the mock that take no argument and those that take
    one, each with the name it logs. *)
Inductive op :=
| OpDial
| OpReadStatus (req : string)
| OpReadMessage
| OpReadUntilEof
| OpSendMessage (msg : string)
| OpClose
| OpRead (p : list ascii)
| OpWrite (p : list ascii).

Definition opName (o : op) : string :=
  match o with
  | OpDial => "Dial"
  | OpReadStatus _ => "ReadStatus"
  | OpReadMessage => "ReadMessage"
  | OpReadUntilEof => "ReadUntilEof"
  | OpSendMessage _ => "SendMessage"
  | OpClose => "Close"
  | OpRead _ => "Read"
  | OpWrite _ => "Write"
  end.

(** The state after an operation and the error it returned. *)
Definition runOp (o : op) (s : mock.MockServer) : option Err * mock.MockServer :=
  match o with
  | OpDial =>
      let '(r, s') := mock.Dial s in
      (match r with inr e => Some e | inl _ => None end, s')
  | OpReadStatus req =>
      let '(r, s') := mock.ReadStatus req s in
      (match r with inr e => Some e | inl _ => None end, s')
  | OpReadMessage =>
      let '(r, s') := mock.ReadMessage s in
      (match r with inr e => Some e | inl _ => None end, s')
  | OpReadUntilEof =>
      let '(r, s') := mock.ReadUntilEof s in
      (match r with inr e => Some e | inl _ => None end, s')
  | OpSendMessage msg => mock.SendMessage msg s
  | OpClose => mock.Close s
  | OpRead p => let '(r, s') := Read p s in (snd r, s')
  | OpWrite p => let '(r, s') := Write p s in (snd r, s')
  end.

End mock_rest.

(** ** The mock server as the host of the rest of device.go *)

Module mock_host.

(** Modelled from the spec: the round trip on an open connection, which
    is not among the sources: send the request, read the status, read one
    message. *)
Definition RoundTripSingleResponse (req : string)
  : IO mock.MockServer (string * option Err) :=
  err ← mock.SendMessage req;
  match err with
  | Some e => mret ("", Some e)
  | None =>
      r ← mock.ReadStatus req;
      match r with
      | inr e => mret ("", Some e)
      | inl _ =>
          r ← mock.ReadMessage;
          match r with
          | inr e => mret ("", Some e)
          | inl resp => mret (resp, None)
          end
      end
  end.

(** A parser of states for the runs: the state is the text itself, and
    the empty text is a ParseError. *)
Definition parseState (s : string) : string * option Err :=
  match s with
  | "" => ("", Some (errors.Errorf errors.ParseError "invalid device state: %s"
                       [fmt.S_ s]))
  | _ => (s, None)
  end.

Definition host : @Host mock.wire :=
  @Build_Host mock.wire string parseState
    mock_rest.roundTripSingleNoResponse
    (fun _ => RoundTripSingleResponse).

End mock_host.

(** The helpers of the tests and ASCII upper case for the runs. *)
Definition asciiUpper (c : ascii) : ascii :=
  let b := byte_val c in
  if (97 <=? b) && (b <=? 122) then ascii_of_N (Z.to_N (b - 32)) else c.

Fixpoint mapString (f : ascii -> ascii) (s : string) : string :=
  match s with
  | "" => ""
  | String a s' => String (f a) (mapString f s')
  end.

Definition asciiUnicode : Unicode := {| ToUpper := mapString asciiUpper |}.

(** ** Further runs *)

(** A server on which the first operation fails. *)
Definition failingServer : mock.MockServer :=
  {| mock.Errs := [Some mock.eofError]; mock.Status := "OKAY";
     mock.Messages := ["abc"]; mock.nextMsgIndex := 0; mock.Requests := [];
     mock.Trace := [] |}.

(** The lines of the comment of [ListProcesses]. *)
Definition psLines : list string :=
  ["USER     PID   PPID  VSIZE  RSS     WCHAN    PC         NAME";
   "root      1     0     684    540   ffffffff 00000000 S /init";
   "root      2     0     0      0     ffffffff 00000000 S kthreadd"].

(** ** Listings of properties *)

(** The output of getprop for a list of entries: one line
    [[key]: [value]] for each, ended by [nl]. *)
Definition propLine (kv : string * string) : string :=
  "[" +:+ kv.1 +:+ "]: [" +:+ kv.2 +:+ "]".

Fixpoint propListing (nl : string) (kvs : list (string * string)) : string :=
  match kvs with
  | [] => ""
  | kv :: rest => propLine kv +:+ nl +:+ propListing nl rest
  end.

(** A key or a value that a line can carry: no closing bracket and no
    line feed. *)
Definition plain (s : string) : bool :=
  negb (str_mem "]" s) && negb (str_mem LF s).

Definition plainEntry (kv : string * string) : bool :=
  plain kv.1 && plain kv.2.

(** The mapping of a list of entries: each key with its value, and with
    the later value for a key that is listed twice. *)
Definition propsOf (kvs : list (string * string)) : gmap string string :=
  list_to_map (reverse kvs).

(** The entries of the test of [Properties]. *)
Definition wifiEntries : list (string * string) :=
  [("wifi.interface", "wlan0"); ("wlan.driver.ath", "0")].

(** ** Strings *)

Lemma app_nil_s (t : string) : "" +:+ t = t.
Proof. reflexivity. Qed.

Lemma app_cons_s (a : ascii) (s t : string) :
  String a s +:+ t = String a (s +:+ t).
Proof. reflexivity. Qed.

Lemma app_empty_r (s : string) : s +:+ "" = s.
Proof.
  induction s as [|a s IH]; [done |]. by rewrite app_cons_s, IH.
Qed.

Lemma app_assoc_s (a b c : string) : (a +:+ b) +:+ c = a +:+ (b +:+ c).
Proof.
  induction a as [|x a IH]; [done |]. by rewrite !app_cons_s, IH.
Qed.

Lemma length_app_s (a b : string) :
  String.length (a +:+ b) = (String.length a + String.length b)%nat.
Proof.
  induction a as [|x a IH]; [done |]. rewrite app_cons_s. simpl. by rewrite IH.
Qed.

Lemma str_take_app (a b : string) : str_take (String.length a) (a +:+ b) = a.
Proof.
  induction a as [|x a IH]; [by destruct b |].
  rewrite app_cons_s. simpl. by rewrite IH.
Qed.

Lemma str_drop_app (a b : string) : str_drop (String.length a) (a +:+ b) = b.
Proof.
  induction a as [|x a IH]; [done |]. rewrite app_cons_s. simpl. exact IH.
Qed.

Lemma str_take_all (s : string) : str_take (String.length s) s = s.
Proof. induction s as [|x s IH]; simpl; [done | by rewrite IH]. Qed.

(** Every string with a [c] splits at its last [c]. *)
Lemma split_last (c : ascii) (s : string) :
  str_mem c s = true ->
  exists pre suf, s = pre +:+ String c suf /\ str_mem c suf = false.
Proof.
  induction s as [|a s IH]; simpl; [done |].
  destruct (str_mem c s) eqn:Hs.
  - intros _. destruct (IH eq_refl) as (pre & suf & -> & Hsuf).
    by exists (String a pre), suf.
  - rewrite orb_false_r. intros Ha%Ascii.eqb_eq. subst a.
    by exists "", s.
Qed.

Lemma LastIndexByte_none (c : ascii) (s : string) :
  str_mem c s = false -> strings.LastIndexByte s c = -1.
Proof.
  induction s as [|a s IH]; simpl; [done |].
  intros [Ha Hs]%orb_false_iff. rewrite (IH Hs), Ha. done.
Qed.

Lemma LastIndexByte_last (c : ascii) (pre suf : string) :
  str_mem c suf = false ->
  strings.LastIndexByte (pre +:+ String c suf) c = len pre.
Proof.
  intros Hsuf. unfold len. induction pre as [|a pre IH].
  - rewrite app_nil_s. simpl. rewrite (LastIndexByte_none _ _ Hsuf). simpl.
    by rewrite Ascii.eqb_refl.
  - rewrite app_cons_s. cbn [strings.LastIndexByte String.length]. rewrite IH.
    destruct (0 <=? Z.of_nat (String.length pre)) eqn:E; lia.
Qed.

Lemma slice_before (c : ascii) (pre suf : string) :
  str_slice (pre +:+ String c suf) 0 (len pre) = pre.
Proof.
  unfold str_slice, len. rewrite Z.sub_0_r, Nat2Z.id. simpl.
  apply str_take_app.
Qed.

Lemma slice_after (c : ascii) (pre suf : string) :
  str_slice (pre +:+ String c suf) (len pre + 1)
            (len (pre +:+ String c suf)) = suf.
Proof.
  unfold str_slice, len.
  replace (Z.to_nat (Z.of_nat (String.length pre) + 1))
    with (String.length (pre +:+ String c ""))
    by (rewrite length_app_s; simpl; lia).
  replace (Z.to_nat _) with (String.length suf)
    by (rewrite !length_app_s; simpl; lia).
  replace (pre +:+ String c suf) with ((pre +:+ String c "") +:+ suf)
    by (by rewrite app_assoc_s).
  rewrite str_drop_app. apply str_take_all.
Qed.

(** ** The loops with fuel run to their end *)

Lemma length_take_s (n : nat) (s : string) :
  String.length (str_take n s) = Nat.min n (String.length s).
Proof.
  revert s. induction n as [|n IH]; intros [|a s]; simpl; try done.
  by rewrite IH.
Qed.

Lemma scan_back_le (fuel : nat) (s : string) (start lim : Z) :
  utf8.scan_back fuel s start lim <= start.
Proof.
  revert start. induction fuel as [|k IH]; intros start; simpl; [lia |].
  destruct (start >=? lim); [| lia].
  destruct (utf8.RuneStart _); [lia |].
  specialize (IH (start - 1)). lia.
Qed.

(** The backwards scan visits at most the three bytes before the last
    one: more fuel than that changes nothing. *)
Lemma scan_back_fuel (fuel1 fuel2 : nat) (s : string) (start lim : Z) :
  (Z.to_nat (start - lim + 1) < fuel1)%nat ->
  (Z.to_nat (start - lim + 1) < fuel2)%nat ->
  utf8.scan_back fuel1 s start lim = utf8.scan_back fuel2 s start lim.
Proof.
  revert fuel2 start. induction fuel1 as [|k1 IH]; intros [|k2] start H1 H2;
    try lia.
  simpl. destruct (start >=? lim) eqn:E; [| done].
  destruct (utf8.RuneStart _); [done |].
  apply Z.geb_le in E. apply IH; lia.
Qed.

(** The last rune of a string that is not empty takes at least one byte
    and no more than the string has. *)
Lemma DecodeLast_size (s : string) :
  s <> "" -> 1 <= snd (utf8.DecodeLastRuneInString s) <= len s.
Proof.
  intros Hs.
  assert (He : 1 <= len s).
  { destruct s; [done |]. unfold len. cbn [String.length]. lia. }
  unfold utf8.DecodeLastRuneInString. cbv zeta.
  replace (len s =? 0) with false by (symmetry; apply Z.eqb_neq; lia).
  destruct (utf8.nth_byte s _ <? utf8.RuneSelf); [cbn [snd]; lia |].
  pose proof (scan_back_le 4 s (len s - 1 - 1) (Z.max 0 (len s - utf8.UTFMax)))
    as Hscan.
  set (start := Z.max 0 (utf8.scan_back _ _ _ _)).
  assert (Hstart : 0 <= start <= len s - 1) by (subst start; lia).
  clearbody start.
  destruct (utf8.DecodeRuneInString _) as [r size].
  destruct (start + size =? len s) eqn:E; cbn [snd]; [| lia].
  apply Z.eqb_eq in E. lia.
Qed.

(** The loop of [lastIndexFunc] from index [i] ends within [i] steps:
    more fuel than that changes nothing. *)
Lemma lastIndexFunc_fuel (fuel1 fuel2 : nat) (s : string) (f : Z -> bool)
      (truth : bool) (i : Z) :
  0 <= i <= len s ->
  (Z.to_nat i < fuel1)%nat -> (Z.to_nat i < fuel2)%nat ->
  strings.lastIndexFunc_go fuel1 s f truth i
  = strings.lastIndexFunc_go fuel2 s f truth i.
Proof.
  revert fuel2 i. induction fuel1 as [|k1 IH]; intros [|k2] i Hi H1 H2; try lia.
  simpl. destruct (0 <? i) eqn:Hpos; [| done].
  apply Z.ltb_lt in Hpos.
  assert (Hne : str_slice s 0 i <> "").
  { unfold str_slice. intros Hnil.
    apply (f_equal String.length) in Hnil. rewrite length_take_s in Hnil.
    simpl in Hnil. unfold len in Hi. lia. }
  pose proof (DecodeLast_size _ Hne) as Hsize.
  assert (Hlen : len (str_slice s 0 i) = i).
  { unfold str_slice, len. rewrite length_take_s. simpl. unfold len in Hi. lia. }
  rewrite Hlen in Hsize.
  destruct (utf8.DecodeLastRuneInString _) as [r size]. simpl in Hsize.
  destruct (Bool.eqb (f r) truth); [done |].
  apply IH; lia.
Qed.

Lemma lastIndexFunc_total (fuel : nat) (s : string) (f : Z -> bool)
      (truth : bool) :
  (String.length s < fuel)%nat ->
  strings.lastIndexFunc_go fuel s f truth (len s)
  = strings.lastIndexFunc s f truth.
Proof.
  intros Hfuel. unfold strings.lastIndexFunc.
  apply lastIndexFunc_fuel; unfold len; lia.
Qed.

(** A match ends at or after the position where it starts, and the
    continuation sees as many groups as the match started with. *)
Lemma run_advances (r : regexp.regex) (s : string) (pos : nat)
      (cs : regexp.caps) (k : string -> nat -> regexp.caps -> option regexp.caps)
      (m : regexp.caps) :
  regexp.run r s pos cs k = Some m ->
  exists (s' : string) (pos' : nat) (cs' : regexp.caps),
    (pos <= pos')%nat /\ length cs' = length cs /\ k s' pos' cs' = Some m.
Proof.
  revert s pos cs k m. induction r as [c | cls greedy | r1 IH1 r2 IH2 | i r IH];
    intros s pos cs k m Hrun.
  - simpl in Hrun. destruct s as [|a s]; [done |].
    destruct (Ascii.eqb a c); [| done].
    exists s, (S pos), cs. split; [lia | done].
  - simpl in Hrun. revert pos Hrun. induction s as [|a s IHs]; intros pos Hrun.
    + exists "", pos, cs. split; [lia | done].
    + destruct (cls a).
      * destruct greedy.
        -- match type of Hrun with
           | match ?l with _ => _ end = _ => destruct l as [m'|] eqn:Hloop
           end.
           ++ inversion Hrun; subst m'.
              destruct (IHs _ Hloop) as (s' & pos' & cs' & Hp & Hl & Hk).
              exists s', pos', cs'. split; [lia | done].
           ++ exists (String a s), pos, cs. split; [lia | done].
        -- destruct (k (String a s) pos cs) as [m'|] eqn:Hk.
           ++ inversion Hrun; subst m'.
              exists (String a s), pos, cs. split; [lia | done].
           ++ destruct (IHs _ Hrun) as (s' & pos' & cs' & Hp & Hl & Hk').
              exists s', pos', cs'. split; [lia | done].
      * exists (String a s), pos, cs. split; [lia | done].
  - simpl in Hrun.
    destruct (IH1 _ _ _ _ _ Hrun) as (s1 & p1 & c1 & Hp1 & Hl1 & Hk1).
    destruct (IH2 _ _ _ _ _ Hk1) as (s2 & p2 & c2 & Hp2 & Hl2 & Hk2).
    exists s2, p2, c2. split; [lia |]. split; [congruence | done].
  - simpl in Hrun.
    destruct (IH _ _ _ _ _ Hrun) as (s1 & p1 & c1 & Hp1 & Hl1 & Hk1).
    exists s1, p1, (<[i := Some (pos, p1)]> c1).
    split; [lia |]. split; [| done].
    etrans; [apply length_insert | done].
Qed.

Lemma find_at_bounds (re : regexp.regex) (n : nat) (s : string) (pos : nat)
      (m : regexp.caps) :
  regexp.find_at re n s pos = Some m ->
  exists b e : nat,
    regexp.bounds m = (Z.of_nat b, Z.of_nat e) /\ (pos <= b <= e)%nat.
Proof.
  revert pos. induction s as [|a s IH]; intros pos Hfind; simpl in Hfind.
  - destruct (regexp.run _ _ _ _ _) as [m'|] eqn:Hrun; [| done].
    inversion Hfind; subst m'.
    destruct (run_advances _ _ _ _ _ _ Hrun) as (s' & e & cs' & He & Hl & Hk).
    inversion Hk; subst m. exists pos, e.
    destruct cs' as [|c cs']; [done |]. split; [done | lia].
  - destruct (regexp.run _ _ _ _ _) as [m'|] eqn:Hrun.
    + inversion Hfind; subst m'.
      destruct (run_advances _ _ _ _ _ _ Hrun) as (s' & e & cs' & He & Hl & Hk).
      inversion Hk; subst m. exists pos, e.
      destruct cs' as [|c cs']; [done |]. split; [done | lia].
    + destruct (IH _ Hfind) as (b & e & Hb & Hle).
      exists b, e. split; [done | lia].
Qed.

(** Every turn of the loop of [allMatches] moves the position forward:
    more fuel than the bytes left changes nothing. *)
Lemma allMatches_fuel (fuel1 fuel2 : nat) (re : regexp.regex) (ngroups : nat)
      (s : string) (pos i prev n : Z) :
  0 <= pos ->
  (Z.to_nat (len s + 1 - pos) < fuel1)%nat ->
  (Z.to_nat (len s + 1 - pos) < fuel2)%nat ->
  regexp.allMatches fuel1 re ngroups s pos i prev n
  = regexp.allMatches fuel2 re ngroups s pos i prev n.
Proof.
  revert fuel2 pos i prev.
  induction fuel1 as [|k1 IH]; intros [|k2] pos i prev Hpos H1 H2; try lia.
  cbn [regexp.allMatches].
  destruct ((i <? n) && (pos <=? len s)) eqn:Hcond; [| done].
  apply andb_true_iff in Hcond as [_ Hle%Z.leb_le].
  destruct (regexp.find_at _ _ _ _) as [m|] eqn:Hfind; [| done].
  destruct (find_at_bounds _ _ _ _ _ Hfind) as (b & e & -> & Hbe).
  set (pos' := if Z.of_nat e =? pos then _ else Z.of_nat e).
  assert (Hpos' : pos < pos').
  { subst pos'. destruct (Z.of_nat e =? pos) eqn:He.
    - destruct (0 <? _) eqn:Hw; [apply Z.ltb_lt in Hw |]; lia.
    - apply Z.eqb_neq in He. lia. }
  clearbody pos'.
  destruct (negb _); [f_equal |]; apply IH; lia.
Qed.

Lemma FindAllStringSubmatch_total (fuel : nat) (re : regexp.regex)
      (ngroups : nat) (s : string) (n : Z) :
  (String.length s + 1 < fuel)%nat ->
  regexp.allMatches fuel re ngroups s 0 0 (-1) (if n <? 0 then len s + 1 else n)
  = regexp.FindAllStringSubmatch re ngroups s n.
Proof.
  intros Hfuel. unfold regexp.FindAllStringSubmatch.
  apply allMatches_fuel; unfold len; lia.
Qed.

(** ** CRLF *)

Lemma lfOnly_LF (s : string) : lfOnly (String LF s) = String LF (lfOnly s).
Proof. by destruct s. Qed.

Lemma prefix_CRLF (s : string) :
  String.prefix CRLF s
  = match s with
    | String c (String d _) => Ascii.eqb c CR && Ascii.eqb d LF
    | _ => false
    end.
Proof.
  destruct s as [|c s]; [done |].
  change (String.prefix CRLF (String c s))
    with (if ascii_dec CR c then String.prefix NL s else false).
  destruct s as [|d s].
  - by destruct (ascii_dec CR c).
  - change (String.prefix NL (String d s))
      with (if ascii_dec LF d then String.prefix "" s else false).
    destruct (ascii_dec CR c) as [<- | Hc].
    + destruct (ascii_dec LF d) as [<- | Hd]; [by destruct s |].
      symmetry. apply andb_false_iff. right. apply Ascii.eqb_neq. congruence.
    + symmetry. apply andb_false_iff. left. apply Ascii.eqb_neq. congruence.
Qed.

Lemma lfOnly_cons (c d : ascii) (s : string) :
  lfOnly (String c (String d s))
  = if Ascii.eqb c CR && Ascii.eqb d LF then lfOnly (String d s)
    else String c (lfOnly (String d s)).
Proof. reflexivity. Qed.

Lemma Replace_lfOnly (s : string) : strings.Replace s CRLF NL (-1) = lfOnly s.
Proof.
  unfold strings.Replace. induction s as [|c s IH]; [done |].
  cbn [strings.Replace_go]. rewrite prefix_CRLF. cbn [negb Z.eqb andb].
  destruct s as [|d s]; [done |].
  rewrite lfOnly_cons.
  destruct (Ascii.eqb c CR && Ascii.eqb d LF) eqn:E.
  - apply andb_true_iff in E as [_ Hd%Ascii.eqb_eq]. subst d.
    rewrite <- IH. cbn [strings.Replace_go]. rewrite prefix_CRLF.
    by destruct s.
  - by rewrite IH.
Qed.


(** ** Numerals *)

Lemma byte_val_range (c : ascii) : 0 <= byte_val c < 256.
Proof.
  unfold byte_val. pose proof (N_ascii_bounded c). lia.
Qed.

Lemma len_cons (c : ascii) (s : string) : len (String c s) = len s + 1.
Proof. unfold len. cbn [String.length]. lia. Qed.

Lemma len_nonneg (s : string) : 0 <= len s.
Proof. unfold len. lia. Qed.

Lemma pow10_len_cons (c : ascii) (s : string) :
  10 ^ len (String c s) = 10 * 10 ^ len s.
Proof.
  rewrite len_cons, Z.pow_add_r by (pose proof (len_nonneg s); lia). lia.
Qed.

Lemma pow10_pos (s : string) : 1 <= 10 ^ len s.
Proof. pose proof (len_nonneg s). pose proof (Z.pow_pos_nonneg 10 (len s)). lia. Qed.

Lemma decimal_bound (s : string) :
  allDigits s = true -> 0 <= decimal s < 10 ^ len s.
Proof.
  induction s as [|c s IH]; [intros _; change (0 <= 0 < 1); lia |].
  cbn [allDigits decimal]. intros [Hc Hs]%andb_true_iff.
  specialize (IH Hs). rewrite pow10_len_cons.
  unfold isDigit in Hc. unfold digitValue.
  apply andb_true_iff in Hc as [H1%Z.leb_le H2%Z.leb_le].
  pose proof (pow10_pos s).
  assert (0 <= (byte_val c - 48) * 10 ^ len s <= 9 * 10 ^ len s)
    by (split; [apply Z.mul_nonneg_nonneg | apply Z.mul_le_mono_nonneg_r]; lia).
  lia.
Qed.

Lemma decimal_nonneg_leading (s : string) :
  0 <= decimal (leadingDigits s) /\ allDigits (leadingDigits s) = true
  /\ len (leadingDigits s) <= len s.
Proof.
  induction s as [|c s IH]; [by compute |].
  cbn [leadingDigits]. destruct (isDigit c) eqn:Hc.
  - cbn [allDigits]. rewrite Hc. destruct IH as (IH1 & IH2 & IH3).
    rewrite IH2. split; [| split; [done | rewrite !len_cons; lia]].
    cbn [decimal]. unfold isDigit in Hc. unfold digitValue.
    apply andb_true_iff in Hc as [H1%Z.leb_le H2%Z.leb_le].
    pose proof (pow10_pos (leadingDigits s)).
    assert (0 <= (byte_val c - 48) * 10 ^ len (leadingDigits s))
      by (apply Z.mul_nonneg_nonneg; lia).
    lia.
  - split; [change (0 <= 0); lia | split; [done |]]. rewrite len_cons.
    pose proof (len_nonneg s). change (len "") with 0. lia.
Qed.

Lemma leadingDigits_all (s : string) :
  allDigits s = true -> leadingDigits s = s.
Proof.
  induction s as [|c s IH]; [done |].
  cbn [allDigits leadingDigits]. intros [Hc Hs]%andb_true_iff.
  by rewrite Hc, IH.
Qed.

(** The fast path of Atoi. *)
Lemma Atoi_go_spec (s : string) (n : Z) :
  strconv.Atoi_go s n
  = if allDigits s then Some (n * 10 ^ len s + decimal s) else None.
Proof.
  revert n. induction s as [|c s IH]; intros n.
  - cbn [strconv.Atoi_go allDigits decimal]. change (10 ^ len "") with 1.
    f_equal. lia.
  - cbn [strconv.Atoi_go allDigits decimal]. rewrite IH, pow10_len_cons.
    unfold isDigit, digitValue. pose proof (byte_val_range c) as Hb.
    destruct (Z.leb_spec 48 (byte_val c)) as [H1 | H1];
      destruct (Z.leb_spec (byte_val c) 57) as [H2 | H2]; cbn [andb].
    + rewrite Z.mod_small by lia.
      replace (9 <? byte_val c - 48) with false by (symmetry; apply Z.ltb_ge; lia).
      destruct (allDigits s); [| done]. f_equal. lia.
    + rewrite Z.mod_small by lia.
      by replace (9 <? byte_val c - 48) with true by (symmetry; apply Z.ltb_lt; lia).
    + replace ((byte_val c - 48) mod 256) with (byte_val c + 208).
      * by replace (9 <? byte_val c + 208) with true
          by (symmetry; apply Z.ltb_lt; lia).
      * apply (Z.mod_unique _ _ (-1)); lia.
    + lia.
Qed.

(** The digit loop of ParseUint. *)
Lemma ParseUint_go_spec (s : string) (n : Z) :
  0 <= n < 2 ^ 64 ->
  strconv.ParseUint_go s n
  = if 2 ^ 64 <=? n * 10 ^ len (leadingDigits s) + decimal (leadingDigits s)
    then (2 ^ 64 - 1, Some strconv.ErrRange)
    else if allDigits s then (n * 10 ^ len s + decimal s, None)
    else (0, Some strconv.ErrSyntax).
Proof.
  revert n. induction s as [|c s IH]; intros n Hn.
  - cbn [strconv.ParseUint_go leadingDigits decimal allDigits].
    change (10 ^ len "") with 1.
    replace (2 ^ 64 <=? n * 1 + 0) with false by (symmetry; apply Z.leb_gt; lia).
    f_equal. lia.
  - cbn [strconv.ParseUint_go leadingDigits allDigits].
    change ((48 <=? byte_val c) && (byte_val c <=? 57)) with (isDigit c).
    destruct (isDigit c) eqn:Hc; cbn [andb].
    + unfold isDigit in Hc. apply andb_true_iff in Hc as [H1%Z.leb_le H2%Z.leb_le].
      destruct (decimal_nonneg_leading s) as (Hd & Hall & _).
      pose proof (pow10_pos (leadingDigits s)) as Hp.
      cbn [decimal]. rewrite !pow10_len_cons. unfold digitValue.
      unfold strconv.maxUint64, strconv.IntSize.
      change (2 ^ 64 - 1) with 18446744073709551615 in *.
      change (2 ^ 64) with 18446744073709551616 in *.
      change (18446744073709551615 / 10 + 1) with 1844674407370955162.
      destruct (Z.leb_spec 1844674407370955162 n) as [Hcut | Hcut].
      * replace (18446744073709551616 <=? _) with true; [done |].
        symmetry. apply Z.leb_le. nia.
      * destruct (Z.ltb_spec 18446744073709551616 (n * 10 + (byte_val c - 48)) )
          as [Hov | Hov]; [| destruct (Z.eq_dec (n * 10 + (byte_val c - 48))
                                                 18446744073709551616) as [Heq | Hne]].
        -- replace ((n * 10 + (byte_val c - 48)) mod 18446744073709551616)
             with (n * 10 + (byte_val c - 48) - 18446744073709551616)
             by (apply (Z.mod_unique _ _ 1); lia).
           replace (_ <? n * 10) with true by (symmetry; apply Z.ltb_lt; lia).
           cbn [orb].
           replace (18446744073709551616 <=? _) with true; [done |].
           symmetry. apply Z.leb_le. nia.
        -- replace ((n * 10 + (byte_val c - 48)) mod 18446744073709551616)
             with 0 by (apply (Z.mod_unique _ _ 1); lia).
           replace (0 <? n * 10) with true by (symmetry; apply Z.ltb_lt; lia).
           cbn [orb].
           replace (18446744073709551616 <=? _) with true; [done |].
           symmetry. apply Z.leb_le. nia.
        -- rewrite Z.mod_small by lia.
           replace (_ <? n * 10) with false by (symmetry; apply Z.ltb_ge; lia).
           replace (18446744073709551615 <? _) with false
             by (symmetry; apply Z.ltb_ge; lia).
           cbn [orb]. rewrite IH by lia.
           replace (n * (10 * 10 ^ len (leadingDigits s))
                    + ((byte_val c - 48) * 10 ^ len (leadingDigits s)
                       + decimal (leadingDigits s)))
             with ((n * 10 + (byte_val c - 48)) * 10 ^ len (leadingDigits s)
                   + decimal (leadingDigits s)) by lia.
           destruct (18446744073709551616 <=? _); [done |].
           destruct (allDigits s); [| done]. f_equal. lia.
    + cbn [decimal]. change (10 ^ len "") with 1.
      by replace (2 ^ 64 <=? n * 1 + 0) with false
        by (symmetry; apply Z.leb_gt; lia).
Qed.

Lemma pow10_18 (s : string) : len s <= 18 -> 10 ^ len s <= 10 ^ 18.
Proof. intros Hs. apply Z.pow_le_mono_r; [lia |]. pose proof (len_nonneg s). lia. Qed.

Lemma codeOfText_small (t : string) :
  len (unsigned t) <= 18 ->
  codeOfText t = if isNumeral t then denoted t else 0.
Proof.
  intros Hlen. unfold codeOfText, isNumeral.
  destruct (allDigits (unsigned t)) eqn:Hall; cbn [andb].
  - destruct (0 <? len (unsigned t)).
    + pose proof (decimal_bound _ Hall) as Hd. pose proof (pow10_18 _ Hlen) as Hp.
      change (10 ^ 18) with 1000000000000000000 in Hp.
      unfold clampInt, denoted, intMin, intMax.
      change (2 ^ 63) with 9223372036854775808.
      destruct (negative t); lia.
    + rewrite (leadingDigits_all _ Hall).
      pose proof (decimal_bound _ Hall) as Hd. pose proof (pow10_18 _ Hlen) as Hp.
      change (10 ^ 18) with 1000000000000000000 in Hp.
      change (2 ^ 64) with 18446744073709551616.
      by replace (18446744073709551616 <=? decimal (unsigned t)) with false
        by (symmetry; apply Z.leb_gt; lia).
  - destruct (decimal_nonneg_leading (unsigned t)) as (_ & Hall' & Hlen').
    pose proof (decimal_bound _ Hall') as Hd.
    assert (Hp : 10 ^ len (leadingDigits (unsigned t)) <= 10 ^ 18)
      by (apply pow10_18; lia).
    change (10 ^ 18) with 1000000000000000000 in Hp.
    change (2 ^ 64) with 18446744073709551616.
    by replace (18446744073709551616 <=? _) with false
      by (symmetry; apply Z.leb_gt; lia).
Qed.

Lemma len_zero (s : string) : len s = 0 -> s = "".
Proof. destruct s; [done |]. rewrite len_cons. pose proof (len_nonneg s). lia. Qed.

(** What Atoi returns for a text is the exit code that the text stands
    for. *)
Lemma Atoi_codeOfText (t : string) : fst (strconv.Atoi t) = codeOfText t.
Proof.
  unfold strconv.Atoi. cbv zeta.
  destruct ((0 <? len t) && (len t <? 19)) eqn:Hfast.
  - apply andb_true_iff in Hfast as [Hpos%Z.ltb_lt H19%Z.ltb_lt].
    destruct t as [|c s]; [done |].
    assert (Hu : len (unsigned (String c s)) <= 18).
    { cbn [unsigned]. rewrite len_cons in H19.
      destruct (Ascii.eqb c "-" || Ascii.eqb c "+"); rewrite ?len_cons; lia. }
    rewrite (codeOfText_small _ Hu). unfold isNumeral, denoted.
    cbn [unsigned negative].
    destruct (Ascii.eqb c "-" || Ascii.eqb c "+") eqn:Hsign; cbn [andb].
    + destruct (Z.ltb_spec (len s) 1) as [Hs | Hs].
      * pose proof (len_nonneg s). rewrite (len_zero s) by lia. done.
      * rewrite Atoi_go_spec.
        replace (0 <? len s) with true by (symmetry; apply Z.ltb_lt; lia).
        rewrite andb_true_r.
        destruct (allDigits s); [| done]. cbn [fst].
        destruct (Ascii.eqb c "-"); lia.
    + rewrite Atoi_go_spec.
      replace (0 <? len (String c s)) with true by (symmetry; apply Z.ltb_lt; lia).
      rewrite andb_true_r.
      destruct (allDigits (String c s)); [| done]. cbn [fst].
      apply orb_false_iff in Hsign as [-> _]. lia.
  - unfold strconv.ParseInt. destruct t as [|c s]; [done |].
    unfold codeOfText, isNumeral, denoted. cbn [unsigned negative].
    rewrite (orb_comm (Ascii.eqb c "+")).
    set (s1 := if Ascii.eqb c "-" || Ascii.eqb c "+" then s else String c s).
    unfold strconv.ParseUint.
    destruct s1 as [|d s1'] eqn:Hs1; [done |]. rewrite <- Hs1. clearbody s1.
    assert (Hlen : (0 <? len s1) = true).
    { subst s1. rewrite len_cons. apply Z.ltb_lt. pose proof (len_nonneg s1'). lia. }
    rewrite Hlen, andb_true_r.
    rewrite ParseUint_go_spec by lia. rewrite Z.mul_0_l, Z.add_0_l.
    unfold strconv.IntSize. change (2 ^ (64 - 1)) with 9223372036854775808.
    unfold clampInt, intMin, intMax.
    change (2 ^ 63) with 9223372036854775808.
    change (2 ^ 64) with 18446744073709551616.
    change (18446744073709551616 - 1) with 18446744073709551615.
    destruct (allDigits s1) eqn:Hall.
    + rewrite (leadingDigits_all _ Hall). rewrite Z.add_0_l.
      destruct (Z.leb_spec 18446744073709551616 (decimal s1)) as [Hbig | Hbig].
      * change (9223372036854775808 <=? 18446744073709551615) with true.
        change (9223372036854775808 <? 18446744073709551615) with true.
        destruct (Ascii.eqb c "-"); cbn [negb andb fst]; lia.
      * pose proof (decimal_bound _ Hall) as Hd.
        destruct (Ascii.eqb c "-"); cbn [negb andb].
        -- destruct (Z.ltb_spec 9223372036854775808 (decimal s1)); cbn [fst]; lia.
        -- destruct (Z.leb_spec 9223372036854775808 (decimal s1)); cbn [fst]; lia.
    + destruct (Z.leb_spec 18446744073709551616 (decimal (leadingDigits s1)))
        as [Hbig | Hbig]; [| done].
      change (9223372036854775808 <=? 18446744073709551615) with true.
      change (9223372036854775808 <? 18446744073709551615) with true.
      by destruct (Ascii.eqb c "-").
Qed.


(** ** White space *)

Ltac zcases :=
  repeat (match goal with
          | |- context [Z.geb ?a ?b] => rewrite (Z.geb_leb a b)
          | |- context [Z.ltb ?a ?b] => destruct (Z.ltb_spec a b)
          | |- context [Z.leb ?a ?b] => destruct (Z.leb_spec a b)
          | |- context [Z.eqb ?a ?b] => destruct (Z.eqb_spec a b)
          end; cbn [orb andb negb fst snd]; try lia);
  cbn [fst snd]; try first [lia | done].

Lemma first_value (b : Z) :
  (b < 128 /\ utf8.first b = 240)
  \/ ((128 <= b < 194 \/ 244 < b) /\ utf8.first b = 241)
  \/ (194 <= b < 224 /\ utf8.first b = 2)
  \/ (b = 224 /\ utf8.first b = 19)
  \/ ((224 < b < 237 \/ 237 < b < 240) /\ utf8.first b = 3)
  \/ (b = 237 /\ utf8.first b = 35)
  \/ (b = 240 /\ utf8.first b = 52)
  \/ (240 < b < 244 /\ utf8.first b = 4)
  \/ (b = 244 /\ utf8.first b = 68).
Proof.
  unfold utf8.first.
  destruct (Z.ltb_spec b 128); [by left |].
  destruct (Z.ltb_spec b 194); [right; left; lia |].
  destruct (Z.ltb_spec b 224); [right; right; left; lia |].
  destruct (Z.eqb_spec b 224); [right; right; right; left; lia |].
  destruct (Z.ltb_spec b 237); [do 4 right; left; lia |].
  destruct (Z.eqb_spec b 237); [do 5 right; left; lia |].
  destruct (Z.ltb_spec b 240); [do 4 right; left; lia |].
  destruct (Z.eqb_spec b 240); [do 6 right; left; lia |].
  destruct (Z.ltb_spec b 244); [do 7 right; left; lia |].
  destruct (Z.eqb_spec b 244); [do 8 right; lia |].
  right; left; lia.
Qed.

Ltac first_const K :=
  let a := eval vm_compute in (utf8.acceptRanges (Z.shiftr K 4)) in
  change (utf8.acceptRanges (Z.shiftr K 4)) with a;
  let l := eval vm_compute in (Z.land K 7) in
  change (Z.land K 7) with l;
  let g := eval vm_compute in (K >=? 240) in
  change (K >=? 240) with g;
  let e := eval vm_compute in (K =? 240) in
  change (K =? 240) with e;
  cbv beta iota.

Ltac first_split b :=
  destruct (first_value b)
    as [[? ->] | [[? ->] | [[? ->] | [[? ->] | [[? ->] | [[? ->] | [[? ->]
       | [[? ->] | [? ->]]]]]]]]];
  [first_const 240 | first_const 241 | first_const 2 | first_const 19
   | first_const 3 | first_const 35 | first_const 52 | first_const 4
   | first_const 68].

Lemma Decode_size (s : string) :
  1 <= len s ->
  1 <= snd (utf8.DecodeRuneInString s) <= len s
  /\ snd (utf8.DecodeRuneInString s) <= 4.
Proof.
  intros Hn. unfold utf8.DecodeRuneInString. cbv zeta.
  generalize dependent (len s). intros n Hn.
  generalize (utf8.nth_byte s 0) (utf8.nth_byte s 1) (utf8.nth_byte s 2)
             (utf8.nth_byte s 3). intros b0 b1 b2 b3.
  replace (n <? 1) with false by (symmetry; apply Z.ltb_ge; lia).
  unfold utf8.locb, utf8.hicb.
  first_split b0.
  all: zcases.
Qed.

Ltac decode_bytes s :=
  unfold utf8.DecodeRuneInString; cbv zeta;
  unfold utf8.locb, utf8.hicb;
  generalize dependent (len s); intros n;
  generalize dependent (utf8.nth_byte s 0); intros b0;
  generalize dependent (utf8.nth_byte s 1); intros b1;
  generalize dependent (utf8.nth_byte s 2); intros b2;
  generalize dependent (utf8.nth_byte s 3); intros b3.

Lemma Decode_ascii (s : string) :
  1 <= len s -> utf8.nth_byte s 0 < 128 ->
  utf8.DecodeRuneInString s = (utf8.nth_byte s 0, 1).
Proof.
  decode_bytes s. intros Hn Hb.
  replace (n <? 1) with false by (symmetry; apply Z.ltb_ge; lia).
  first_split b0; zcases.
Qed.

Lemma Decode_lead (s : string) :
  1 <= len s -> 2 <= snd (utf8.DecodeRuneInString s) ->
  194 <= utf8.nth_byte s 0.
Proof.
  decode_bytes s. intros Hn.
  replace (n <? 1) with false by (symmetry; apply Z.ltb_ge; lia).
  first_split b0; zcases.
Qed.

Lemma Decode_one (s : string) :
  1 <= len s -> 128 <= utf8.nth_byte s 0 ->
  len s = 1 \/ utf8.nth_byte s 1 < 128 \/ 191 < utf8.nth_byte s 1 ->
  snd (utf8.DecodeRuneInString s) = 1.
Proof.
  decode_bytes s. intros Hn Hb Ht.
  replace (n <? 1) with false by (symmetry; apply Z.ltb_ge; lia).
  first_split b0; zcases.
Qed.

Lemma Decode_error (s : string) :
  1 <= len s -> 128 <= utf8.nth_byte s 0 ->
  snd (utf8.DecodeRuneInString s) = 1 ->
  fst (utf8.DecodeRuneInString s) = utf8.RuneError.
Proof.
  decode_bytes s. intros Hn Hb.
  replace (n <? 1) with false by (symmetry; apply Z.ltb_ge; lia).
  first_split b0; zcases.
Qed.

Lemma Decode_stable (s s' : string) :
  1 <= len s -> 2 <= snd (utf8.DecodeRuneInString s) ->
  snd (utf8.DecodeRuneInString s) <= len s' ->
  utf8.nth_byte s' 0 = utf8.nth_byte s 0 ->
  utf8.nth_byte s' 1 = utf8.nth_byte s 1 ->
  (3 <= snd (utf8.DecodeRuneInString s) -> utf8.nth_byte s' 2 = utf8.nth_byte s 2) ->
  (4 <= snd (utf8.DecodeRuneInString s) -> utf8.nth_byte s' 3 = utf8.nth_byte s 3) ->
  utf8.DecodeRuneInString s' = utf8.DecodeRuneInString s.
Proof.
  unfold utf8.DecodeRuneInString; cbv zeta; unfold utf8.locb, utf8.hicb.
  generalize (len s) (len s'). intros n n'.
  generalize (utf8.nth_byte s 0) (utf8.nth_byte s 1) (utf8.nth_byte s 2)
             (utf8.nth_byte s 3). intros b0 b1 b2 b3.
  generalize (utf8.nth_byte s' 0) (utf8.nth_byte s' 1) (utf8.nth_byte s' 2)
             (utf8.nth_byte s' 3). intros c0 c1 c2 c3.
  intros Hn. 
  replace (n <? 1) with false by (symmetry; apply Z.ltb_ge; lia).
  intros H2 Hn' -> ->. revert H2 Hn'.
  first_split b0; zcases.
  all: intros; repeat match goal with H : _ -> _ = _ |- _ => rewrite H by lia end;
    try done.
Qed.

(** *** Slices *)

Lemma length_drop_s (n : nat) (s : string) :
  String.length (str_drop n s) = (String.length s - n)%nat.
Proof. revert s. induction n as [|n IH]; intros [|a s]; simpl; try done. Qed.

Lemma str_drop_drop (n m : nat) (s : string) :
  str_drop m (str_drop n s) = str_drop (n + m) s.
Proof.
  revert s. induction n as [|n IH]; intros s; [done |].
  destruct s as [|a s]; [by destruct m |]. simpl. apply IH.
Qed.

Lemma str_take_take (n m : nat) (s : string) :
  (n <= m)%nat -> str_take n (str_take m s) = str_take n s.
Proof.
  revert m s. induction n as [|n IH]; intros m s Hnm; [done |].
  destruct m as [|m]; [lia |]. destruct s as [|a s]; [done |].
  simpl. rewrite IH by lia. done.
Qed.

Lemma get_drop (n k : nat) (s : string) :
  String.get k (str_drop n s) = String.get (n + k) s.
Proof.
  revert s. induction n as [|n IH]; intros s; [done |].
  destruct s as [|a s]; [by destruct k |]. simpl. apply IH.
Qed.

Lemma get_take (n k : nat) (s : string) :
  (k < n)%nat -> String.get k (str_take n s) = String.get k s.
Proof.
  revert k s. induction n as [|n IH]; intros k s Hk; [lia |].
  destruct s as [|a s]; [done |]. destruct k as [|k]; [done |].
  simpl. apply IH. lia.
Qed.

Lemma nth_byte_drop (n k : nat) (s : string) :
  utf8.nth_byte (str_drop n s) k = utf8.nth_byte s (n + k).
Proof. unfold utf8.nth_byte. by rewrite get_drop. Qed.

Lemma nth_byte_take (n k : nat) (s : string) :
  (k < n)%nat -> utf8.nth_byte (str_take n s) k = utf8.nth_byte s k.
Proof. intros Hk. unfold utf8.nth_byte. by rewrite get_take. Qed.

Lemma slice_from_0 (s : string) (e : nat) :
  str_slice s 0 (Z.of_nat e) = str_take e s.
Proof. unfold str_slice. rewrite Z.sub_0_r, Nat2Z.id. done. Qed.

Lemma slice_to_end (s : string) (i : nat) :
  (i <= String.length s)%nat ->
  str_slice s (Z.of_nat i) (len s) = str_drop i s.
Proof.
  intros Hi. unfold str_slice, len. rewrite Nat2Z.id.
  replace (Z.to_nat (Z.of_nat (String.length s) - Z.of_nat i))
    with (String.length (str_drop i s)) by (rewrite length_drop_s; lia).
  apply str_take_all.
Qed.

Lemma len_take (n : nat) (s : string) :
  (n <= String.length s)%nat -> len (str_take n s) = Z.of_nat n.
Proof. intros Hn. unfold len. rewrite length_take_s. lia. Qed.

(** *** The last rune *)

Lemma IsSpace_error : unicode.IsSpace utf8.RuneError = false.
Proof. reflexivity. Qed.

(** The three ways in which [DecodeLastRuneInString] answers: an ASCII
    byte at the end, a rune that ends the text, or an error of one
    byte. *)
Lemma DecodeLast_cases (u : string) (r size : Z) :
  1 <= len u ->
  utf8.DecodeLastRuneInString u = (r, size) ->
  (utf8.nth_byte u (Z.to_nat (len u - 1)) < 128
   /\ r = utf8.nth_byte u (Z.to_nat (len u - 1)) /\ size = 1)
  \/ (128 <= utf8.nth_byte u (Z.to_nat (len u - 1))
      /\ r = utf8.RuneError /\ size = 1)
  \/ (128 <= utf8.nth_byte u (Z.to_nat (len u - 1))
      /\ 1 <= size <= len u
      /\ utf8.DecodeRuneInString (str_drop (Z.to_nat (len u - size)) u)
         = (r, size)).
Proof.
  intros He. unfold utf8.DecodeLastRuneInString. cbv zeta.
  replace (len u =? 0) with false by (symmetry; apply Z.eqb_neq; lia).
  unfold utf8.RuneSelf.
  destruct (Z.ltb_spec (utf8.nth_byte u (Z.to_nat (len u - 1))) 128) as [Hb | Hb].
  { intros [= <- <-]. by left. }
  pose proof (scan_back_le 4 u (len u - 1 - 1) (Z.max 0 (len u - utf8.UTFMax)))
    as Hscan.
  set (start := Z.max 0 (utf8.scan_back _ _ _ _)).
  assert (Hstart : 0 <= start <= len u - 1) by (subst start; lia).
  clearbody start.
  replace (str_slice u start (len u)) with (str_drop (Z.to_nat start) u).
  2:{ rewrite <- (Z2Nat.id start) at 2 by lia. rewrite slice_to_end; [done |].
      unfold len in Hstart. lia. }
  destruct (utf8.DecodeRuneInString _) as [r0 size0] eqn:Hdec.
  destruct (Z.eqb_spec (start + size0) (len u)) as [Hend | Hend].
  - intros [= <- <-]. right. right. split; [done |].
    assert (Hne : 1 <= len (str_drop (Z.to_nat start) u)).
    { unfold len in *. rewrite length_drop_s. lia. }
    pose proof (Decode_size _ Hne) as Hsize. rewrite Hdec in Hsize.
    cbn [snd] in Hsize. split; [lia |].
    replace (len u - size0) with start by lia. done.
  - intros [= <- <-]. right. by left.
Qed.

(** *** Trimming *)

Lemma trimHead_nil (n : nat) : trimHead n "" = "".
Proof. by destruct n. Qed.

Lemma trimTail_nil (n : nat) : trimTail n "" = "".
Proof. by destruct n. Qed.

Lemma indexFunc_skip (f : Z -> bool) (truth : bool) (s : string) (k : nat)
      (i : Z) :
  strings.indexFunc_go s f truth i k
  = strings.indexFunc_go (str_drop k s) f truth (i + Z.of_nat k) 0.
Proof.
  revert s i. induction k as [|k IH]; intros s i.
  - simpl. f_equal. lia.
  - destruct s as [|a s]; [done |].
    cbn [strings.indexFunc_go str_drop]. rewrite IH. f_equal. lia.
Qed.

(** The index that [indexFunc] finds is where the white space at the
    head ends. *)
Lemma indexFunc_trimHead (n : nat) (s : string) (i : Z) :
  (String.length s <= n)%nat ->
  (strings.indexFunc_go s unicode.IsSpace false i 0 = -1
   /\ trimHead n s = "")
  \/ (exists k : nat,
        strings.indexFunc_go s unicode.IsSpace false i 0 = i + Z.of_nat k
        /\ (k <= String.length s)%nat /\ trimHead n s = str_drop k s).
Proof.
  revert s i. induction n as [|n IH]; intros s i Hn.
  - destruct s; [| simpl in Hn; lia]. by left.
  - destruct s as [|a s]; [by left |].
    cbn [strings.indexFunc_go trimHead].
    assert (Hlen : 1 <= len (String a s)) by (unfold len; cbn [String.length]; lia).
    pose proof (Decode_size _ Hlen) as [Hsize _].
    destruct (utf8.DecodeRuneInString (String a s)) as [r size].
    cbn [snd] in Hsize.
    destruct (unicode.IsSpace r) eqn:Hr; cbn [Bool.eqb].
    + rewrite indexFunc_skip.
      replace (str_drop (Z.to_nat (size - 1)) s)
        with (str_drop (Z.to_nat size) (String a s)).
      2:{ replace (Z.to_nat size) with (S (Z.to_nat (size - 1))) by lia. done. }
      assert (Hrest : (String.length (str_drop (Z.to_nat size) (String a s)) <= n)%nat).
      { rewrite length_drop_s. cbn [String.length] in *. lia. }
      destruct (IH (str_drop (Z.to_nat size) (String a s))
                   (i + 1 + Z.of_nat (Z.to_nat (size - 1))) Hrest)
        as [[Hj Ht] | (k & Hj & Hk & Ht)].
      * left. by rewrite Hj, Ht.
      * right. exists (Z.to_nat size + k)%nat. rewrite Hj, Ht.
        rewrite length_drop_s in Hk. unfold len in Hsize.
        split; [lia |]. split; [lia |]. apply str_drop_drop.
    + right. exists 0%nat. split; [lia |]. split; [lia | done].
Qed.

Lemma TrimLeftFunc_trimHead (n : nat) (s : string) :
  (String.length s <= n)%nat ->
  strings.TrimLeftFunc s unicode.IsSpace = trimHead n s.
Proof.
  intros Hn. unfold strings.TrimLeftFunc, strings.indexFunc. cbv zeta.
  destruct (indexFunc_trimHead n s 0 Hn) as [[-> ->] | (k & -> & Hk & ->)];
    [done |].
  replace (0 + Z.of_nat k =? -1) with false by (symmetry; apply Z.eqb_neq; lia).
  rewrite Z.add_0_l. by apply slice_to_end.
Qed.

Lemma trimHead_length (n : nat) (s : string) :
  (String.length s <= n)%nat ->
  (String.length (trimHead n s) <= String.length s)%nat.
Proof.
  intros Hn.
  destruct (indexFunc_trimHead n s 0 Hn) as [[_ ->] | (k & _ & Hk & ->)].
  - simpl. lia.
  - rewrite length_drop_s. lia.
Qed.

Lemma TrimRightFunc_rightEnd (s : string) (f : Z -> bool) :
  strings.TrimRightFunc s f
  = str_slice s 0 (rightEnd s (strings.lastIndexFunc s f false)).
Proof.
  unfold strings.TrimRightFunc, rightEnd. cbv zeta.
  destruct ((0 <=? _) && _); [| done].
  by destruct (utf8.DecodeRuneInString _).
Qed.

(** A rune that is no white space and ends at [e], with a boundary at
    [e]: the end computed from its index is [e]. *)
Lemma rightEnd_last (s : string) (e : nat) (r size : Z) :
  (1 <= e <= String.length s)%nat ->
  boundary s e ->
  utf8.DecodeLastRuneInString (str_take e s) = (r, size) ->
  rightEnd s (Z.of_nat e - size) = Z.of_nat e.
Proof.
  intros He Hb Hlast.
  assert (Hlen : len (str_take e s) = Z.of_nat e) by (apply len_take; lia).
  assert (Hone : 128 <= utf8.nth_byte s (e - 1) ->
                 rightEnd s (Z.of_nat e - 1) = Z.of_nat e).
  { intros Hbyte. unfold rightEnd, utf8.RuneSelf.
    replace (Z.to_nat (Z.of_nat e - 1)) with (e - 1)%nat by lia.
    replace (0 <=? Z.of_nat e - 1) with true by (symmetry; apply Z.leb_le; lia).
    replace (128 <=? utf8.nth_byte s (e - 1)) with true
      by (symmetry; apply Z.leb_le; lia).
    cbn [andb].
    replace (Z.of_nat e - 1) with (Z.of_nat (e - 1)) by lia.
    rewrite slice_to_end by lia.
    rewrite Decode_one; [lia | | |].
    - unfold len. rewrite length_drop_s. lia.
    - rewrite nth_byte_drop. by replace (e - 1 + 0)%nat with (e - 1)%nat by lia.
    - rewrite nth_byte_drop. replace (e - 1 + 1)%nat with e by lia.
      unfold len. rewrite length_drop_s.
      destruct Hb as [-> | Hb]; [left; lia | by right]. }
  destruct (DecodeLast_cases (str_take e s) r size ltac:(lia) Hlast)
    as [(Hbyte & _ & ->) | [(Hbyte & _ & ->) | (Hbyte & Hsize & Hdec)]];
    rewrite Hlen in *;
    replace (Z.to_nat (Z.of_nat e - 1)) with (e - 1)%nat in Hbyte by lia;
    rewrite nth_byte_take in Hbyte by lia.
  - unfold rightEnd, utf8.RuneSelf.
    replace (Z.to_nat (Z.of_nat e - 1)) with (e - 1)%nat by lia.
    replace (128 <=? utf8.nth_byte s (e - 1)) with false
      by (symmetry; apply Z.leb_gt; lia).
    rewrite andb_false_r. lia.
  - by apply Hone.
  - destruct (Z.eq_dec size 1) as [-> | Hne]; [by apply Hone |].
    set (e' := (e - Z.to_nat size)%nat).
    replace (Z.to_nat (Z.of_nat e - size)) with e' in Hdec by lia.
    assert (Hv : 1 <= len (str_drop e' (str_take e s))).
    { unfold len. rewrite length_drop_s, length_take_s. lia. }
    assert (Hsz : 2 <= snd (utf8.DecodeRuneInString (str_drop e' (str_take e s))))
      by (rewrite Hdec; cbn [snd]; lia).
    pose proof (Decode_lead _ Hv Hsz) as Hlead.
    rewrite nth_byte_drop, nth_byte_take in Hlead by lia.
    replace (e' + 0)%nat with e' in Hlead by lia.
    unfold rightEnd, utf8.RuneSelf.
    replace (Z.to_nat (Z.of_nat e - size)) with e' by lia.
    replace (0 <=? Z.of_nat e - size) with true by (symmetry; apply Z.leb_le; lia).
    replace (128 <=? utf8.nth_byte s e') with true
      by (symmetry; apply Z.leb_le; lia).
    cbn [andb].
    replace (Z.of_nat e - size) with (Z.of_nat e') by lia.
    rewrite slice_to_end by lia.
    rewrite (Decode_stable (str_drop e' (str_take e s)) (str_drop e' s)).
    + rewrite Hdec. cbn [snd]. lia.
    + done.
    + done.
    + rewrite Hdec. cbn [snd]. unfold len. rewrite length_drop_s. lia.
    + rewrite !nth_byte_drop, nth_byte_take by lia. done.
    + rewrite !nth_byte_drop, nth_byte_take by lia. done.
    + rewrite Hdec. cbn [snd]. intros H3.
      rewrite !nth_byte_drop, nth_byte_take by lia. done.
    + rewrite Hdec. cbn [snd]. intros H4.
      rewrite !nth_byte_drop, nth_byte_take by lia. done.
Qed.

(** A white-space rune that ends at [e] starts at a boundary. *)
Lemma boundary_before (s : string) (e : nat) (r size : Z) :
  (1 <= e <= String.length s)%nat ->
  utf8.DecodeLastRuneInString (str_take e s) = (r, size) ->
  unicode.IsSpace r = true ->
  boundary s (e - Z.to_nat size).
Proof.
  intros He Hlast Hr.
  assert (Hlen : len (str_take e s) = Z.of_nat e) by (apply len_take; lia).
  destruct (DecodeLast_cases (str_take e s) r size ltac:(lia) Hlast)
    as [(Hbyte & _ & ->) | [(Hbyte & -> & ->) | (Hbyte & Hsize & Hdec)]];
    rewrite Hlen in *.
  - replace (Z.to_nat (Z.of_nat e - 1)) with (e - 1)%nat in Hbyte by lia.
    rewrite nth_byte_take in Hbyte by lia.
    right. left. by replace (e - Z.to_nat 1)%nat with (e - 1)%nat by lia.
  - by rewrite IsSpace_error in Hr.
  - set (e' := (e - Z.to_nat size)%nat).
    replace (Z.to_nat (Z.of_nat e - size)) with e' in Hdec by lia.
    assert (Hv : 1 <= len (str_drop e' (str_take e s))).
    { unfold len. rewrite length_drop_s, length_take_s. lia. }
    assert (Hfirst : utf8.nth_byte (str_drop e' (str_take e s)) 0
                     = utf8.nth_byte s e').
    { rewrite nth_byte_drop, nth_byte_take by lia. f_equal. lia. }
    right.
    destruct (Z.ltb_spec (utf8.nth_byte s e') 128) as [Hlt | Hge]; [by left |].
    right. destruct (Z.eq_dec size 1) as [-> | Hne].
    + pose proof (Decode_error _ Hv ltac:(rewrite Hfirst; lia)) as Herr.
      rewrite Hdec in Herr. cbn [fst snd] in Herr.
      rewrite Herr in Hr by done. by rewrite IsSpace_error in Hr.
    + assert (Hsz : 2 <= snd (utf8.DecodeRuneInString (str_drop e' (str_take e s))))
        by (rewrite Hdec; cbn [snd]; lia).
      pose proof (Decode_lead _ Hv Hsz) as Hlead. rewrite Hfirst in Hlead. lia.
Qed.

Lemma lastIndexFunc_trimTail (fuel n : nat) (s : string) (e : nat) :
  (e <= String.length s)%nat -> (e < fuel)%nat -> (e <= n)%nat ->
  boundary s e ->
  str_slice s 0
    (rightEnd s (strings.lastIndexFunc_go fuel s unicode.IsSpace false
                   (Z.of_nat e)))
  = trimTail n (str_take e s).
Proof.
  revert n e. induction fuel as [|fuel IH]; intros n e He Hfuel Hn Hb; [lia |].
  cbn [strings.lastIndexFunc_go].
  destruct (Nat.eq_dec e 0%nat) as [-> | Hpos].
  { cbn [Z.of_nat Z.ltb Z.compare str_take]. rewrite trimTail_nil.
    unfold rightEnd. cbn [Z.leb Z.compare andb]. done. }
  replace (0 <? Z.of_nat e) with true by (symmetry; apply Z.ltb_lt; lia).
  rewrite slice_from_0.
  destruct n as [|n]; [lia |]. cbn [trimTail].
  assert (Hne : str_take e s <> "").
  { intros Hnil. apply (f_equal String.length) in Hnil.
    rewrite length_take_s in Hnil. cbn [String.length] in Hnil. lia. }
  pose proof (DecodeLast_size _ Hne) as Hsize.
  rewrite len_take in Hsize by lia.
  destruct (utf8.DecodeLastRuneInString (str_take e s)) as [r size] eqn:Hlast.
  cbn [snd] in Hsize.
  destruct (unicode.IsSpace r) eqn:Hr; cbn [Bool.eqb].
  - replace (Z.of_nat e - size) with (Z.of_nat (e - Z.to_nat size)) by lia.
    rewrite length_take_s.
    replace (Nat.min e (String.length s) - Z.to_nat size)%nat
      with (e - Z.to_nat size)%nat by lia.
    rewrite str_take_take by lia.
    apply IH; try lia.
    apply (boundary_before s e r size); [lia | done | done].
  - rewrite (rightEnd_last s e r size); [apply slice_from_0 | lia | done | done].
Qed.

Lemma TrimRightFunc_trimTail (n : nat) (s : string) :
  (String.length s <= n)%nat ->
  strings.TrimRightFunc s unicode.IsSpace = trimTail n s.
Proof.
  intros Hn. rewrite TrimRightFunc_rightEnd. unfold strings.lastIndexFunc, len.
  rewrite (lastIndexFunc_trimTail _ n); try lia.
  - by rewrite str_take_all.
  - by left.
Qed.

Lemma trimHead_fuel (n m : nat) (s : string) :
  (String.length s <= n)%nat -> (String.length s <= m)%nat ->
  trimHead n s = trimHead m s.
Proof.
  intros Hn Hm.
  by rewrite <- (TrimLeftFunc_trimHead n), <- (TrimLeftFunc_trimHead m).
Qed.

Lemma trimTail_fuel (n m : nat) (s : string) :
  (String.length s <= n)%nat -> (String.length s <= m)%nat ->
  trimTail n s = trimTail m s.
Proof.
  intros Hn Hm.
  by rewrite <- (TrimRightFunc_trimTail n), <- (TrimRightFunc_trimTail m).
Qed.

Lemma IsSpace_ascii (c : ascii) :
  byte_val c < 128 -> unicode.IsSpace (byte_val c) = strings.asciiSpace c.
Proof.
  intros Hc. pose proof (byte_val_range c) as Hb.
  unfold unicode.IsSpace, strings.asciiSpace. cbv zeta.
  replace ((0 <=? byte_val c) && (byte_val c <=? 255)) with true
    by (symmetry; apply andb_true_iff; split; apply Z.leb_le; lia).
  replace (byte_val c =? 133) with false by (symmetry; apply Z.eqb_neq; lia).
  replace (byte_val c =? 160) with false by (symmetry; apply Z.eqb_neq; lia).
  by rewrite !orb_false_r.
Qed.

Lemma nth_byte_head (c : ascii) (s : string) :
  utf8.nth_byte (String c s) 0 = byte_val c.
Proof. reflexivity. Qed.

(** An ASCII byte at the head is a rune of its own. *)
Lemma trimHead_ascii (n : nat) (c : ascii) (s : string) :
  byte_val c < 128 ->
  trimHead (S n) (String c s)
  = if strings.asciiSpace c then trimHead n s else String c s.
Proof.
  intros Hc. cbn [trimHead].
  rewrite Decode_ascii; rewrite ?nth_byte_head; try done.
  - by rewrite (IsSpace_ascii c Hc).
  - rewrite len_cons. pose proof (len_nonneg s). lia.
Qed.

(** An ASCII byte at the end is a rune of its own. *)
Lemma trimTail_ascii (n k : nat) (s : string) :
  (S k <= String.length s)%nat ->
  utf8.nth_byte s k < 128 ->
  trimTail (S n) (str_take (S k) s)
  = if unicode.IsSpace (utf8.nth_byte s k) then trimTail n (str_take k s)
    else str_take (S k) s.
Proof.
  intros Hk Hc. cbn [trimTail].
  unfold utf8.DecodeLastRuneInString. cbv zeta.
  rewrite len_take by lia.
  replace (Z.of_nat (S k) =? 0) with false by (symmetry; apply Z.eqb_neq; lia).
  replace (Z.to_nat (Z.of_nat (S k) - 1)) with k by lia.
  rewrite nth_byte_take by lia. unfold utf8.RuneSelf.
  replace (utf8.nth_byte s k <? 128) with true by (symmetry; apply Z.ltb_lt; lia).
  rewrite length_take_s.
  replace (Nat.min (S k) (String.length s) - Z.to_nat 1)%nat with k by lia.
  by rewrite str_take_take by lia.
Qed.

Lemma TrimSpace_stop_trimTail (k n : nat) (s : string) :
  (k <= String.length s)%nat -> (k <= n)%nat ->
  strings.TrimSpace_stop k s = trimTail n (str_take k s).
Proof.
  revert n. induction k as [|k IH]; intros n Hk Hn.
  - cbn [strings.TrimSpace_stop str_take]. by rewrite trimTail_nil.
  - cbn [strings.TrimSpace_stop]. unfold utf8.RuneSelf.
    destruct (Z.leb_spec 128 (utf8.nth_byte s k)) as [Hc | Hc].
    + apply TrimRightFunc_trimTail. rewrite length_take_s. lia.
    + destruct n as [|n]; [lia |]. rewrite trimTail_ascii by (lia || done).
      assert (Hsp : unicode.IsSpace (utf8.nth_byte s k)
                    = (utf8.nth_byte s k =? 9) || (utf8.nth_byte s k =? 10)
                      || (utf8.nth_byte s k =? 11) || (utf8.nth_byte s k =? 12)
                      || (utf8.nth_byte s k =? 13) || (utf8.nth_byte s k =? 32)).
      { unfold unicode.IsSpace.
        assert (H0 : 0 <= utf8.nth_byte s k).
        { unfold utf8.nth_byte. destruct (String.get k s) as [c|]; [| lia].
          pose proof (byte_val_range c). lia. }
        replace ((0 <=? utf8.nth_byte s k) && (utf8.nth_byte s k <=? 255)) with true
          by (symmetry; apply andb_true_iff; split; apply Z.leb_le; lia).
        replace (utf8.nth_byte s k =? 133) with false
          by (symmetry; apply Z.eqb_neq; lia).
        replace (utf8.nth_byte s k =? 160) with false
          by (symmetry; apply Z.eqb_neq; lia).
        by rewrite !orb_false_r. }
      rewrite Hsp.
      destruct (_ || (utf8.nth_byte s k =? 32)); [| done].
      apply IH; lia.
Qed.

(** [TrimSpace] removes the white space at the head of a text and then
    the white space at its end. *)
Lemma TrimSpace_trim (s : string) : strings.TrimSpace s = trim s.
Proof.
  unfold trim. induction s as [|c s IH]; [done |].
  cbn [strings.TrimSpace]. unfold strings.isASCII, utf8.RuneSelf.
  destruct (Z.ltb_spec (byte_val c) 128) as [Hc | Hc]; cbn [negb].
  - cbn [String.length]. rewrite (trimHead_ascii _ c s Hc).
    destruct (strings.asciiSpace c).
    + rewrite IH.
      pose proof (trimHead_length (String.length s) s (le_n _)).
      apply trimTail_fuel; lia.
    + change (S (String.length s)) with (String.length (String c s)).
      rewrite (TrimSpace_stop_trimTail _ (String.length (String c s))) by lia.
      by rewrite str_take_all.
  - unfold strings.TrimFunc.
    rewrite (TrimLeftFunc_trimHead (String.length (String c s))) by lia.
    apply TrimRightFunc_trimTail.
    by apply trimHead_length.
Qed.


(** ** Formatting *)

Ltac run_sprintf :=
  cbv [fmt.Sprintf fmt.format_arg Ascii.eqb Bool.eqb orb];
  rewrite ?app_empty_r.

Lemma Sprintf_s_s (a b : string) :
  fmt.Sprintf "%s %s" [fmt.S_ a; fmt.S_ b] = a +:+ " " +:+ b.
Proof. by run_sprintf. Qed.

Lemma Sprintf_colon (a b : string) :
  fmt.Sprintf "%s:%s" [fmt.S_ a; fmt.S_ b] = a +:+ String ":" b.
Proof. by run_sprintf. Qed.

Lemma Sprintf_quote_error (i : Z) (arg : string) :
  fmt.Sprintf "arg at index %d contains an invalid double quote: %s"
    [fmt.D_ i; fmt.S_ arg]
  = "arg at index " +:+ strconv.Itoa i
    +:+ " contains an invalid double quote: " +:+ arg.
Proof. run_sprintf. rewrite !app_cons_s, !app_nil_s. reflexivity. Qed.

Lemma Sprintf_format_error (s : string) :
  fmt.Sprintf "expect string contains only one ':', str = %s" [fmt.S_ s]
  = "expect string contains only one ':', str = " +:+ s.
Proof. run_sprintf. reflexivity. Qed.

Lemma Sprintf_not_found (serial : string) :
  fmt.Sprintf "device list doesn't contain serial %s" [fmt.S_ serial]
  = "device list doesn't contain serial " +:+ serial.
Proof. run_sprintf. reflexivity. Qed.

Lemma quoted_inQuotes (arg : string) : quoted arg = inQuotes arg.
Proof.
  unfold quoted. rewrite !app_cons_s, !app_nil_s. run_sprintf. reflexivity.
Qed.

(** ** The command line *)

Section CommandLineFacts.
Context `{Helpers}.

Lemma quoteArgs_ok (i : Z) (args : list string) :
  Forall (fun a => hasQuote a = false) args ->
  quoteArgs i args = (map quoteArg args, None).
Proof.
  intros Hall. revert i. induction Hall as [|a l Ha _ IH]; intros i; [done |].
  simpl. unfold strings.ContainsRune. unfold hasQuote in Ha. rewrite Ha.
  rewrite IH. unfold quoteArg. by rewrite quoted_inQuotes.
Qed.

Lemma quoteArgs_fail (i : Z) (l1 l2 : list string) (arg : string) :
  Forall (fun a => hasQuote a = false) l1 ->
  hasQuote arg = true ->
  quoteArgs i (l1 ++ arg :: l2)
  = (map quoteArg l1 ++ arg :: l2,
     Some (errors.Errorf errors.ParseError
             "arg at index %d contains an invalid double quote: %s"
             [fmt.D_ (i + Z.of_nat (length l1)); fmt.S_ arg])).
Proof.
  intros Hall Harg. revert i. induction Hall as [|a l Ha _ IH]; intros i.
  - simpl. unfold strings.ContainsRune. unfold hasQuote in Harg.
    rewrite Harg. by rewrite Z.add_0_r.
  - cbn [app quoteArgs]. unfold strings.ContainsRune. unfold hasQuote in Ha.
    rewrite Ha. rewrite IH. cbn [map app length]. unfold quoteArg.
    rewrite quoted_inQuotes.
    replace (i + 1 + Z.of_nat (length l)) with (i + Z.of_nat (S (length l)))
      by lia.
    reflexivity.
Qed.

Lemma quoteArgs_error (i : Z) (args : list string) :
  snd (quoteArgs i args) <> None <-> Exists (fun a => hasQuote a = true) args.
Proof.
  revert i. induction args as [|a l IH]; intros i; simpl.
  - split; [done | by intros ?%Exists_nil].
  - unfold strings.ContainsRune. rewrite Exists_cons.
    destruct (str_mem DQUOTE a) eqn:Ha; unfold hasQuote; rewrite Ha.
    + simpl. split; [by left | done].
    + specialize (IH (i + 1)). destruct (quoteArgs (i + 1) l) as [l' e].
      simpl in *. rewrite IH. split; [by right | by intros [? | ?]].
Qed.

Lemma quoteArgs_none (i : Z) (args : list string) :
  snd (quoteArgs i args) = None -> fst (quoteArgs i args) = map quoteArg args.
Proof.
  revert i. induction args as [|a l IH]; intros i; [done |].
  cbn [quoteArgs map]. destruct (strings.ContainsRune a DQUOTE); [done |].
  specialize (IH (i + 1)). destruct (quoteArgs (i + 1) l) as [l' e].
  cbn [fst snd] in *. intros He. rewrite (IH He).
  unfold quoteArg. by rewrite quoted_inQuotes.
Qed.

Lemma Join_cons (a : string) (l : list string) :
  l <> [] -> strings.Join (a :: l) " " = a +:+ " " +:+ strings.Join l " ".
Proof. by destruct l. Qed.

Lemma Join_spaced (l : list string) : strings.Join l " " = spaced l.
Proof.
  induction l as [|a l IH]; [done |]. destruct l as [|b l]; [done |].
  rewrite Join_cons by done. by rewrite IH.
Qed.

(** C2.  For a command that is not blank and arguments without a double
    quote, [prepareCommandLine] succeeds with the command followed by the
    arguments in order, joined by single spaces, each argument with white
    space between double quotes and the others as they are; without
    arguments the result is the command itself. *)
Theorem prepareCommandLine_joins (cmd : string) (args : list string) :
  isBlank cmd = false ->
  Forall (fun a => hasQuote a = false) args ->
  prepareCommandLine cmd args
  = ((strings.Join (cmd :: map quoteArg args) " ", None), map quoteArg args)
  /\ (args = [] -> prepareCommandLine cmd args = ((cmd, None), [])).
Proof.
  intros Hcmd Hargs.
  assert (Hmain : prepareCommandLine cmd args
     = ((strings.Join (cmd :: map quoteArg args) " ", None), map quoteArg args)).
  { unfold prepareCommandLine. rewrite Hcmd, (quoteArgs_ok 0 args Hargs).
    destruct args as [|a l]; [done |].
    cbn [map length]. rewrite Sprintf_s_s.
    by rewrite (Join_cons cmd). }
  split; [exact Hmain |]. intros ->. exact Hmain.
Qed.

(** C3.  [prepareCommandLine] fails exactly when the command is blank or
    an argument contains a double quote: a blank command gives the
    AssertionError "command cannot be empty"; otherwise the first argument
    with a double quote stops the loop with a ParseError that names its
    index, counted from 0, and the argument itself. *)
Theorem prepareCommandLine_fails (cmd : string) (args : list string) :
  (snd (fst (prepareCommandLine cmd args)) <> None
   <-> isBlank cmd = true \/ Exists (fun a => hasQuote a = true) args)
  /\ (isBlank cmd = true ->
      prepareCommandLine cmd args
      = (("", Some {| errors.Code := errors.AssertionError;
                      errors.Message := "command cannot be empty";
                      errors.Cause := None |}), args))
  /\ (isBlank cmd = false ->
      forall (l1 l2 : list string) (arg : string),
        args = l1 ++ arg :: l2 ->
        Forall (fun a => hasQuote a = false) l1 ->
        hasQuote arg = true ->
        prepareCommandLine cmd args
        = (("", Some {| errors.Code := errors.ParseError;
                        errors.Message :=
                          "arg at index " +:+ strconv.Itoa (Z.of_nat (length l1))
                          +:+ " contains an invalid double quote: " +:+ arg;
                        errors.Cause := None |}),
           map quoteArg l1 ++ arg :: l2)).
Proof.
  split; [| split].
  - unfold prepareCommandLine. destruct (isBlank cmd) eqn:Hcmd.
    + simpl. split; [by left | done].
    + pose proof (quoteArgs_error 0 args) as Herr.
      destruct (quoteArgs 0 args) as [l' [e|]]; simpl in *.
      * split; [intros _; right; by apply Herr | done].
      * split; [done |]. intros [? | Hex]; [done |]. by apply Herr.
  - intros Hcmd. unfold prepareCommandLine. by rewrite Hcmd.
  - intros Hcmd l1 l2 arg -> Hl1 Harg. unfold prepareCommandLine.
    rewrite Hcmd, (quoteArgs_fail 0 l1 l2 arg Hl1 Harg).
    unfold errors.Errorf. rewrite Sprintf_quote_error. by rewrite Z.add_0_l.
Qed.

End CommandLineFacts.

Lemma prepareCommandLine_joins_witness :
  @prepareCommandLine mock.helpers "cmd" ["arg with spaces"; "arg1"]
  = ((String.append "cmd " (inQuotes "arg with spaces") +:+ " arg1", None),
     [inQuotes "arg with spaces"; "arg1"]).
Proof.
  refine (proj1 (@prepareCommandLine_joins mock.helpers "cmd"
                   ["arg with spaces"; "arg1"] _ _)).
  - reflexivity.
  - repeat constructor.
Defined.

Lemma prepareCommandLine_fails_witness :
  @prepareCommandLine mock.helpers "cmd" [String.append "quoted" (String DQUOTE "arg")]
  = (("", Some {| errors.Code := errors.ParseError;
                  errors.Message :=
                    String.append "arg at index 0 contains an invalid double quote: quoted"
                                  (String DQUOTE "arg");
                  errors.Cause := None |}),
     [String.append "quoted" (String DQUOTE "arg")]).
Proof.
  refine (proj2 (proj2 (@prepareCommandLine_fails mock.helpers "cmd"
            [String.append "quoted" (String DQUOTE "arg")])) _ [] [] _ _ _ _).
  - reflexivity.
  - reflexivity.
  - constructor.
  - reflexivity.
Defined.

(** ** Forward specs *)

Lemma prefix_colon (a : ascii) (s : string) :
  String.prefix ":" (String a s) = Ascii.eqb a ":".
Proof.
  change (String.prefix ":" (String a s))
    with (if ascii_dec ":" a then String.prefix "" s else false).
  destruct (ascii_dec ":" a) as [<- | Hne].
  - by destruct s.
  - symmetry. apply Ascii.eqb_neq. congruence.
Qed.

Lemma Split_go_colon_free (s : string) :
  str_mem ":" s = false -> strings.Split_go ":" s 0 = (s, []).
Proof.
  induction s as [|a s IH]; [done |].
  intros [Ha Hs]%orb_false_iff.
  cbn [strings.Split_go]. rewrite prefix_colon, Ha, (IH Hs). done.
Qed.

Lemma Split_colon_free (s : string) :
  str_mem ":" s = false -> strings.Split s ":" = [s].
Proof. intros Hs. unfold strings.Split. by rewrite Split_go_colon_free. Qed.

Lemma Split_colon_app (p q : string) :
  str_mem ":" p = false ->
  strings.Split (p +:+ String ":" q) ":" = p :: strings.Split q ":".
Proof.
  unfold strings.Split. induction p as [|a p IH].
  - intros _. rewrite app_nil_s. cbn [strings.Split_go].
    rewrite prefix_colon, Ascii.eqb_refl. simpl.
    by destruct (strings.Split_go ":" q 0).
  - intros [Ha Hp]%orb_false_iff. rewrite app_cons_s.
    cbn [strings.Split_go]. rewrite prefix_colon, Ha.
    specialize (IH Hp).
    destruct (strings.Split_go ":" (p +:+ String ":" q) 0) as [w rest].
    destruct (strings.Split_go ":" q 0) as [w' rest'].
    by inversion IH.
Qed.

Lemma parseString_ok (f : ForwardSpec) (s a b : string) :
  strings.Split s ":" = [a; b] ->
  device.parseString f s = ({| Protocol := a; PortOrName := b |}, None).
Proof. intros Hs. unfold device.parseString. by rewrite Hs. Qed.

Lemma parseString_wellFormed (f : ForwardSpec) (s : string) :
  wellFormed s = true -> device.parseString f s = (specOf s, None).
Proof.
  unfold wellFormed. intros Hs%bool_decide_eq_true.
  unfold device.parseString. by rewrite Hs.
Qed.

Lemma parseString_malformed (f : ForwardSpec) (s : string) :
  wellFormed s = false -> device.parseString f s = (f, Some (formatError s)).
Proof.
  unfold wellFormed. intros Hs%bool_decide_eq_false.
  unfold device.parseString, formatError.
  replace (Z.of_nat (length (strings.Split s ":")) =? 2) with false.
  2: { symmetry. apply Z.eqb_neq. lia. }
  cbn [negb]. by rewrite Sprintf_format_error.
Qed.

(** C6.  The spec {tcp, 8999} serializes to "tcp:8999"; a token with
    exactly two fields between colons parses to the spec with those
    fields, so that the row "abc tcp:8994 udp:d2" gives the pair with
    local {tcp, 8994} and remote {udp, d2}; a token with more or fewer
    fields is a format error that names the token; and parsing the
    serialized form of a spec whose fields hold no colon gives the spec
    back. *)
Theorem ForwardSpec_round_trip :
  device.ForwardSpec_String {| Protocol := "tcp"; PortOrName := "8999" |}
  = "tcp:8999"
  /\ (forall (f : ForwardSpec) (s a b : string),
        strings.Split s ":" = [a; b] ->
        device.parseString f s = ({| Protocol := a; PortOrName := b |}, None))
  /\ device.ForwardList_loop (strings.Fields "abc tcp:8994 udp:d2") "abc"
       (seq 0 (length (strings.Fields "abc tcp:8994 udp:d2") / 3)) []
     = ([{| FSerial := "abc";
            Local_ := {| Protocol := "tcp"; PortOrName := "8994" |};
            Remote := {| Protocol := "udp"; PortOrName := "d2" |} |}], None)
  /\ (forall (f : ForwardSpec) (s : string),
        length (strings.Split s ":") <> 2%nat ->
        device.parseString f s
        = (f, Some (Errorf ("expect string contains only one ':', str = " +:+ s))))
  /\ (forall (f f0 : ForwardSpec),
        str_mem ":" (Protocol f) = false ->
        str_mem ":" (PortOrName f) = false ->
        device.parseString f0 (device.ForwardSpec_String f) = (f, None)).
Proof.
  split; [reflexivity |]. split; [exact parseString_ok |].
  split; [vm_compute; reflexivity |]. split.
  - intros f s Hs. apply parseString_malformed.
    unfold wellFormed. by apply bool_decide_eq_false.
  - intros [p q] f0 Hp Hq. simpl in Hp, Hq.
    unfold device.ForwardSpec_String. cbn [Protocol PortOrName].
    rewrite Sprintf_colon. apply parseString_ok.
    by rewrite (Split_colon_app p q Hp), (Split_colon_free q Hq).
Qed.

Lemma ForwardSpec_round_trip_witness :
  device.parseString {| Protocol := ""; PortOrName := "" |} "udp:d2"
  = ({| Protocol := "udp"; PortOrName := "d2" |}, None)
  /\ device.parseString {| Protocol := ""; PortOrName := "" |} "a:b:c"
     = ({| Protocol := ""; PortOrName := "" |},
        Some (Errorf "expect string contains only one ':', str = a:b:c"))
  /\ device.parseString {| Protocol := ""; PortOrName := "" |}
       (device.ForwardSpec_String
          {| Protocol := "localabstract"; PortOrName := "demo" |})
     = ({| Protocol := "localabstract"; PortOrName := "demo" |}, None).
Proof.
  destruct ForwardSpec_round_trip as (_ & Hparse & _ & Hbad & Hround).
  split; [| split].
  - apply Hparse. reflexivity.
  - apply (Hbad _ "a:b:c"). vm_compute. lia.
  - apply Hround; reflexivity.
Defined.

(** ** The rows of a list-forward response *)

Lemma list_ind3 {A} (P : list A -> Prop) :
  P [] -> (forall a, P [a]) -> (forall a b, P [a; b]) ->
  (forall a b c l, P l -> P (a :: b :: c :: l)) ->
  forall l, P l.
Proof.
  intros H0 H1 H2 H3.
  assert (Hall : forall l, P l /\ (forall a, P (a :: l)) /\ (forall a b, P (a :: b :: l))).
  { induction l as [|x l (IH0 & IH1 & IH2)]; [by auto |].
    split; [apply IH1 |]. split; [intros a; apply IH2 |].
    intros a b. by apply H3. }
  intros l. apply Hall.
Qed.

Lemma div3_cons3 {A} (a b c : A) (l : list A) :
  (length (a :: b :: c :: l) / 3 = S (length l / 3))%nat.
Proof.
  cbn [length].
  replace (S (S (S (length l)))) with (1 * 3 + length l)%nat by lia.
  rewrite Nat.div_add_l by lia. lia.
Qed.

Lemma loop_step (devSerial : string) (row : string * string * string)
      (fields : list string) (i : nat) (is_ : list nat) (fs : list ForwardPair) :
  fields !!! (i * 3)%nat = row.1.1 ->
  fields !!! (i * 3 + 1)%nat = row.1.2 ->
  fields !!! (i * 3 + 2)%nat = row.2 ->
  device.ForwardList_loop fields devSerial (i :: is_) fs
  = if negb (String.eqb (rowSerial row) devSerial)
    then device.ForwardList_loop fields devSerial is_ fs
    else if rowOk row
         then device.ForwardList_loop fields devSerial is_ (fs ++ [pairOf row])
         else ([], Some (formatError (badToken row))).
Proof.
  intros H0 H1 H2. cbn [device.ForwardList_loop]. rewrite H0, H1, H2.
  unfold rowSerial. destruct (negb (String.eqb row.1.1 devSerial)); [done |].
  unfold rowOk, badToken.
  destruct (wellFormed row.1.2) eqn:Hl.
  - rewrite (parseString_wellFormed _ _ Hl). cbn [andb].
    destruct (wellFormed row.2) eqn:Hr.
    + by rewrite (parseString_wellFormed _ _ Hr).
    + by rewrite (parseString_malformed _ _ Hr).
  - by rewrite (parseString_malformed _ _ Hl).
Qed.

Lemma loop_rows_from (devSerial : string) (fields pre : list string) (k : nat)
      (fs : list ForwardPair) :
  length pre = (k * 3)%nat ->
  device.ForwardList_loop (pre ++ fields) devSerial
    (seq k (length fields / 3)) fs
  = loopRows devSerial (rows fields) fs.
Proof.
  revert pre k fs.
  induction fields as [|a|a b|a b c l IH] using list_ind3; intros pre k fs Hpre;
    [done | done | done |].
  rewrite div3_cons3. cbn [seq rows loopRows].
  rewrite (loop_step devSerial (a, b, c)).
  - replace (pre ++ a :: b :: c :: l) with ((pre ++ [a; b; c]) ++ l)
      by (by rewrite <- app_assoc).
    rewrite !IH by (rewrite length_app; simpl; lia). done.
  - rewrite lookup_total_app_r by lia. by rewrite Hpre, Nat.sub_diag.
  - rewrite lookup_total_app_r by lia.
    by replace (k * 3 + 1 - length pre)%nat with 1%nat by lia.
  - rewrite lookup_total_app_r by lia.
    by replace (k * 3 + 2 - length pre)%nat with 2%nat by lia.
Qed.

Lemma loop_rows (devSerial : string) (fields : list string) :
  device.ForwardList_loop fields devSerial (seq 0 (length fields / 3)) []
  = loopRows devSerial (rows fields) [].
Proof. exact (loop_rows_from devSerial fields [] 0 [] eq_refl). Qed.

Lemma loopRows_mine (devSerial : string) (rs : list (string * string * string))
      (fs : list ForwardPair) :
  loopRows devSerial rs fs = loopRows devSerial (mine devSerial rs) fs.
Proof.
  revert fs. unfold mine. induction rs as [|row rs IH]; intros fs; [done |].
  rewrite filter_cons. cbn [loopRows].
  destruct (decide (rowSerial row = devSerial)) as [Heq | Hne].
  - cbn [loopRows]. rewrite Heq, String.eqb_refl. cbn [negb].
    destruct (rowOk row); [apply IH | done].
  - apply String.eqb_neq in Hne. rewrite Hne. cbn [negb]. apply IH.
Qed.

Lemma loopRows_ok (devSerial : string) (rs : list (string * string * string))
      (fs : list ForwardPair) :
  Forall (fun row => rowSerial row = devSerial) rs ->
  forallb rowOk rs = true ->
  loopRows devSerial rs fs = (fs ++ map pairOf rs, None).
Proof.
  intros Hmine. revert fs.
  induction Hmine as [|row rs Hrow _ IH]; intros fs Hok.
  - simpl. by rewrite app_nil_r.
  - cbn [forallb] in Hok. apply andb_true_iff in Hok as [Hrow_ok Hok].
    cbn [loopRows map]. rewrite Hrow, String.eqb_refl, Hrow_ok. cbn [negb].
    rewrite (IH _ Hok). by rewrite <- app_assoc.
Qed.

Lemma loopRows_bad (devSerial : string) (l1 l2 : list (string * string * string))
      (row : string * string * string) (fs : list ForwardPair) :
  Forall (fun row => rowSerial row = devSerial) (l1 ++ row :: l2) ->
  forallb rowOk l1 = true ->
  rowOk row = false ->
  loopRows devSerial (l1 ++ row :: l2) fs
  = ([], Some (formatError (badToken row))).
Proof.
  revert fs. induction l1 as [|r l1 IH]; intros fs Hmine Hok Hbad.
  - apply Forall_cons in Hmine as [Hrow _].
    cbn [app loopRows]. by rewrite Hrow, String.eqb_refl, Hbad.
  - cbn [app] in Hmine. apply Forall_cons in Hmine as [Hr Hmine].
    cbn [forallb] in Hok. apply andb_true_iff in Hok as [Hr_ok Hok].
    cbn [app loopRows]. rewrite Hr, String.eqb_refl, Hr_ok. cbn [negb].
    by apply IH.
Qed.

Lemma mine_Forall (devSerial : string) (rs : list (string * string * string)) :
  Forall (fun row => rowSerial row = devSerial) (mine devSerial rs).
Proof.
  apply Forall_forall. intros row Hin. unfold mine in Hin.
  by apply list_elem_of_filter in Hin as [? _].
Qed.

Lemma loopRows_fails_iff (devSerial : string)
      (rs : list (string * string * string)) (fs : list ForwardPair) :
  snd (loopRows devSerial rs fs) = None
  <-> Forall (fun row => rowSerial row = devSerial -> rowOk row = true) rs.
Proof.
  revert fs. induction rs as [|row rs IH]; intros fs.
  - simpl. split; [constructor | done].
  - cbn [loopRows]. rewrite Forall_cons.
    destruct (String.eqb (rowSerial row) devSerial) eqn:Heq; cbn [negb].
    + apply String.eqb_eq in Heq. destruct (rowOk row) eqn:Hok.
      * rewrite IH. split; [by intros ? | by intros [_ ?]].
      * simpl. split; [done |]. intros [Hrow _]. by specialize (Hrow Heq).
    + apply String.eqb_neq in Heq. rewrite IH.
      split; [by intros ? | by intros [_ ?]].
Qed.

(** The fields of a token joined by colons are the token. *)
Lemma Join_Split_go (s : string) :
  let '(w, rest) := strings.Split_go ":" s 0 in
  strings.Join (w :: rest) ":" = s.
Proof.
  induction s as [|a s IH]; [done |].
  cbn [strings.Split_go]. rewrite prefix_colon.
  change (String.length ":" - 1)%nat with 0%nat.
  destruct (strings.Split_go ":" s 0) as [w rest].
  unfold strings.Join in *.
  destruct (Ascii.eqb a ":") eqn:Ha.
  - apply Ascii.eqb_eq in Ha. subst a.
    change (String.concat ":" ("" :: w :: rest))
      with ("" +:+ ":" +:+ String.concat ":" (w :: rest)).
    by rewrite IH.
  - destruct rest as [|r rest].
    + simpl in *. by rewrite IH.
    + change (String.concat ":" (String a w :: r :: rest))
        with (String a (w +:+ ":" +:+ String.concat ":" (r :: rest))).
      change (String.concat ":" (w :: r :: rest))
        with (w +:+ ":" +:+ String.concat ":" (r :: rest)) in IH.
      by rewrite IH.
Qed.

Lemma specOf_String (token : string) :
  wellFormed token = true -> device.ForwardSpec_String (specOf token) = token.
Proof.
  unfold wellFormed. intros Hlen%bool_decide_eq_true.
  pose proof (Join_Split_go token) as Hjoin.
  unfold specOf, device.ForwardSpec_String. cbn [Protocol PortOrName].
  unfold strings.Split in *.
  destruct (strings.Split_go ":" token 0) as [w rest].
  destruct rest as [|b [|? ?]]; try done.
  rewrite Sprintf_colon. simpl. rewrite <- Hjoin. unfold strings.Join. simpl.
  by rewrite app_cons_s.
Qed.

(** ** ForwardList *)

Ltac io_unfold := unfold mbind, IO_bind, mret, IO_ret in *.

Section ForwardListFacts.
Context `{Wire}.

Lemma ForwardList_run (c : Device) (w w1 w2 : World) (devSerial attr : string) :
  device.Serial c w = ((devSerial, None), w1) ->
  device.getAttribute c "list-forward" w1 = ((attr, None), w2) ->
  device.ForwardList c w
  = (if negb (Z.of_nat (length (strings.Fields attr)) mod 3 =? 0)
     then ([], Some (Errorf "list forward parse error"))
     else loopRows devSerial (mine devSerial (rows (strings.Fields attr))) [],
     w2).
Proof.
  intros Hserial Hattr. unfold device.ForwardList. io_unfold.
  rewrite Hserial, Hattr.
  destruct (negb (Z.of_nat (length (strings.Fields attr)) mod 3 =? 0)); [done |].
  by rewrite loop_rows, loopRows_mine.
Qed.

(** C5, amended.  The serial is fetched first.  A response whose number
    of tokens is not a multiple of three is a parse error for the whole
    response, with no partial result.  Otherwise, when the local and the
    remote token of every row with the device's own serial have exactly
    two fields between colons, the result is exactly those rows, in the
    order of the response, the rows of other serials being dropped; and
    when one of them has not, the call fails at the first such row with
    the format error of its first malformed token, again with no partial
    result. *)
Theorem ForwardList_own_rows (c : Device) (w w1 w2 : World)
        (devSerial attr : string) :
  device.Serial c w = ((devSerial, None), w1) ->
  device.getAttribute c "list-forward" w1 = ((attr, None), w2) ->
  let fields := strings.Fields attr in
  let own := mine devSerial (rows fields) in
  (Z.of_nat (length fields) mod 3 <> 0 ->
   device.ForwardList c w = (([], Some (Errorf "list forward parse error")), w2))
  /\ (Z.of_nat (length fields) mod 3 = 0 ->
      forallb rowOk own = true ->
      device.ForwardList c w = ((map pairOf own, None), w2)
      /\ Forall (fun row =>
                   (FSerial (pairOf row),
                    device.ForwardSpec_String (Local_ (pairOf row)),
                    device.ForwardSpec_String (Remote (pairOf row))) = row) own)
  /\ (Z.of_nat (length fields) mod 3 = 0 ->
      forall (l1 l2 : list (string * string * string))
             (row : string * string * string),
        own = l1 ++ row :: l2 ->
        forallb rowOk l1 = true ->
        rowOk row = false ->
        device.ForwardList c w = (([], Some (formatError (badToken row))), w2)).
Proof.
  intros Hserial Hattr fields own.
  pose proof (ForwardList_run c w w1 w2 devSerial attr Hserial Hattr) as Hrun.
  fold fields in Hrun. fold own in Hrun.
  split; [| split].
  - intros Hmod. rewrite Hrun.
    by replace (Z.of_nat (length fields) mod 3 =? 0) with false
      by (symmetry; by apply Z.eqb_neq).
  - intros Hmod Hok. rewrite Hrun, Hmod. cbn [Z.eqb negb]. split.
    + by rewrite (loopRows_ok devSerial own [] (mine_Forall _ _) Hok).
    + apply Forall_forall. intros [[s l] r] Hin.
      apply list_elem_of_In in Hin.
      apply (proj1 (forallb_forall _ _) Hok) in Hin.
      unfold rowOk in Hin. apply andb_true_iff in Hin as [Hl Hr].
      unfold pairOf. cbn [FSerial Local_ Remote fst snd] in *.
      by rewrite (specOf_String l Hl), (specOf_String r Hr).
  - intros Hmod l1 l2 row Hown Hok Hbad. rewrite Hrun, Hmod. cbn [Z.eqb negb].
    pose proof (mine_Forall devSerial (rows fields)) as Hmine.
    fold own in Hmine. rewrite Hown in *.
    by rewrite (loopRows_bad devSerial l1 l2 row [] Hmine Hok Hbad).
Qed.

(** C10.  The serial of a row is compared before its local and remote
    tokens are parsed: for a response whose number of tokens is a multiple
    of three, [ForwardList] succeeds exactly when the rows with the
    device's own serial are well formed, whatever the tokens of the
    other rows, and its result is that of the loop run on the rows with
    the device's own serial alone. *)
Theorem ForwardList_other_rows (c : Device) (w w1 w2 : World)
        (devSerial attr : string) :
  device.Serial c w = ((devSerial, None), w1) ->
  device.getAttribute c "list-forward" w1 = ((attr, None), w2) ->
  Z.of_nat (length (strings.Fields attr)) mod 3 = 0 ->
  (snd (fst (device.ForwardList c w)) = None
   <-> Forall (fun row => rowSerial row = devSerial -> rowOk row = true)
              (rows (strings.Fields attr)))
  /\ fst (device.ForwardList c w)
     = loopRows devSerial (mine devSerial (rows (strings.Fields attr))) [].
Proof.
  intros Hserial Hattr Hmod.
  rewrite (ForwardList_run c w w1 w2 devSerial attr Hserial Hattr), Hmod.
  cbn [Z.eqb negb fst]. split; [| done].
  rewrite <- loopRows_mine. apply loopRows_fails_iff.
Qed.

End ForwardListFacts.

Lemma ForwardList_own_rows_witness :
  fst (@device.ForwardList mock.wire abcClient (rowsServer threeRows))
  = ([{| FSerial := "abc";
         Local_ := {| Protocol := "tcp"; PortOrName := "8994" |};
         Remote := {| Protocol := "udp"; PortOrName := "d2" |} |};
      {| FSerial := "abc";
         Local_ := {| Protocol := "tcp"; PortOrName := "8995" |};
         Remote := {| Protocol := "udp"; PortOrName := "d3" |} |}], None).
Proof.
  pose proof (@ForwardList_own_rows mock.wire abcClient (rowsServer threeRows)
    (snd (@device.Serial mock.wire abcClient (rowsServer threeRows)))
    (snd (@device.getAttribute mock.wire abcClient "list-forward"
            (snd (@device.Serial mock.wire abcClient (rowsServer threeRows)))))
    "abc" threeRows) as Hthm.
  destruct Hthm as (_ & Hok & _);
    [vm_compute; reflexivity | vm_compute; reflexivity |].
  destruct Hok as [Heq _]; [vm_compute; reflexivity | vm_compute; reflexivity |].
  rewrite Heq. vm_compute. reflexivity.
Defined.

(** The claim C5 as it stands fails: the response below has three
    tokens, its only row has the device's own serial, and no list of
    pairs is returned, because the local token of that row is not of the
    form [protocol:value]. *)
Lemma ForwardList_own_rows_counterexample :
  fst (@device.Serial mock.wire abcClient (rowsServer "abc tcp tcp:1"))
  = ("abc", None)
  /\ Z.of_nat (length (strings.Fields "abc tcp tcp:1")) mod 3 = 0
  /\ mine "abc" (rows (strings.Fields "abc tcp tcp:1")) = [("abc", "tcp", "tcp:1")]
  /\ ~ (exists fs,
          fst (@device.ForwardList mock.wire abcClient (rowsServer "abc tcp tcp:1"))
          = (fs, None))
  /\ fst (@device.ForwardList mock.wire abcClient (rowsServer "abc tcp tcp:1"))
     = ([], Some (Errorf "expect string contains only one ':', str = tcp")).
Proof.
  split; [vm_compute; reflexivity |]. split; [vm_compute; reflexivity |].
  split; [vm_compute; reflexivity |]. split; [| vm_compute; reflexivity].
  intros [fs Hfs]. vm_compute in Hfs. discriminate Hfs.
Qed.

Lemma ForwardList_other_rows_witness :
  snd (fst (@device.ForwardList mock.wire abcClient
              (rowsServer "serial tcp tcp:a:b abc tcp:1 udp:2")))
  = None.
Proof.
  pose proof (@ForwardList_other_rows mock.wire abcClient
    (rowsServer "serial tcp tcp:a:b abc tcp:1 udp:2")
    (snd (@device.Serial mock.wire abcClient
            (rowsServer "serial tcp tcp:a:b abc tcp:1 udp:2")))
    (snd (@device.getAttribute mock.wire abcClient "list-forward"
            (snd (@device.Serial mock.wire abcClient
                    (rowsServer "serial tcp tcp:a:b abc tcp:1 udp:2")))))
    "abc" "serial tcp tcp:a:b abc tcp:1 udp:2") as Hthm.
  destruct Hthm as [Hiff _];
    [vm_compute; reflexivity | vm_compute; reflexivity | vm_compute; reflexivity |].
  apply Hiff.
  repeat constructor; intros Hserial; vm_compute in Hserial; discriminate.
Defined.

(** ** DeviceInfo *)

Section DeviceInfoFacts.
Context `{Wire}.

Lemma find_none_serial (serial : string) (devices : list DeviceInfo) :
  Forall (fun d => Serial d <> serial) devices ->
  find (fun d => String.eqb (Serial d) serial) devices = None.
Proof.
  induction 1 as [|d l Hd _ IH]; [done |].
  simpl. apply String.eqb_neq in Hd. by rewrite Hd.
Qed.

Lemma find_first_serial (serial : string) (l1 l2 : list DeviceInfo)
      (d : DeviceInfo) :
  Forall (fun d => Serial d <> serial) l1 ->
  Serial d = serial ->
  find (fun d => String.eqb (Serial d) serial) (l1 ++ d :: l2) = Some d.
Proof.
  intros Hl1 Hd. induction Hl1 as [|d' l Hd' _ IH].
  - simpl. by rewrite Hd, String.eqb_refl.
  - simpl. apply String.eqb_neq in Hd'. by rewrite Hd'.
Qed.

(** C7.  When the lister's result holds no device with the serial of this
    device, [DeviceInfo] fails with a DeviceNotFound error, which wraps the
    DeviceNotFound error whose message is the fixed text followed by the
    missing serial, named once; when it holds one, [DeviceInfo] returns
    the first device of the result with that serial. *)
Theorem DeviceInfo_lookup (c : Device) (w w1 w2 : World) (serial : string)
        (devices : list DeviceInfo) :
  device.Serial c w = ((serial, None), w1) ->
  deviceListFunc c w1 = ((devices, None), w2) ->
  (Forall (fun d => Serial d <> serial) devices ->
   exists e : Err,
     device.DeviceInfo c w = ((None, Some e), w2)
     /\ errors.Code e = errors.DeviceNotFound
     /\ errors.Cause e
        = Some {| errors.Code := errors.DeviceNotFound;
                  errors.Message :=
                    "device list doesn't contain serial " +:+ serial;
                  errors.Cause := None |})
  /\ (forall (l1 l2 : list DeviceInfo) (d : DeviceInfo),
        devices = l1 ++ d :: l2 ->
        Forall (fun d => Serial d <> serial) l1 ->
        Serial d = serial ->
        device.DeviceInfo c w = ((Some d, None), w2)).
Proof.
  intros Hserial Hlist. split.
  - intros Hnone.
    exists (wrapErr (errors.Errorf errors.DeviceNotFound
                       "device list doesn't contain serial %s" [fmt.S_ serial])
                    c "DeviceInfo").
    split; [| split].
    + unfold device.DeviceInfo. io_unfold. rewrite Hserial, Hlist.
      by rewrite (find_none_serial serial devices Hnone).
    + reflexivity.
    + unfold wrapErr, errors.WrapErrf, errors.Errorf. cbn [errors.Cause].
      by rewrite Sprintf_not_found.
  - intros l1 l2 d -> Hl1 Hd. unfold device.DeviceInfo. io_unfold.
    rewrite Hserial, Hlist. by rewrite (find_first_serial serial l1 l2 d Hl1 Hd).
Qed.

End DeviceInfoFacts.

Lemma DeviceInfo_lookup_witness :
  (exists e : Err,
     fst (@device.DeviceInfo mock.wire
            (mock.client (mock.DeviceWithSerial "serial") fooBarLister)
            (mock.server "OKAY" ["serial"])) = (None, Some e)
     /\ errors.Code e = errors.DeviceNotFound
     /\ (errors.Message <$> errors.Cause e)
        = Some "device list doesn't contain serial serial")
  /\ (Product <$> fst (fst (@device.DeviceInfo mock.wire
                          (mock.client (mock.DeviceWithSerial "def") fooBarLister)
                          (mock.server "OKAY" ["def"])))) = Some "Bar".
Proof.
  split.
  - pose proof (@DeviceInfo_lookup mock.wire
      (mock.client (mock.DeviceWithSerial "serial") fooBarLister)
      (mock.server "OKAY" ["serial"])
      (snd (@device.Serial mock.wire
              (mock.client (mock.DeviceWithSerial "serial") fooBarLister)
              (mock.server "OKAY" ["serial"])))
      (snd (@device.Serial mock.wire
              (mock.client (mock.DeviceWithSerial "serial") fooBarLister)
              (mock.server "OKAY" ["serial"])))
      "serial" (fst (fst (fooBarLister (mock.server "OKAY" []))))) as Hthm.
    destruct Hthm as [Hnone _];
      [vm_compute; reflexivity | vm_compute; reflexivity |].
    destruct Hnone as (e & Hrun & Hcode & Hcause).
    + repeat constructor; intros Heq; vm_compute in Heq; discriminate Heq.
    + exists e. rewrite Hrun, Hcode, Hcause. repeat split.
  - pose proof (@DeviceInfo_lookup mock.wire
      (mock.client (mock.DeviceWithSerial "def") fooBarLister)
      (mock.server "OKAY" ["def"])
      (snd (@device.Serial mock.wire
              (mock.client (mock.DeviceWithSerial "def") fooBarLister)
              (mock.server "OKAY" ["def"])))
      (snd (@device.Serial mock.wire
              (mock.client (mock.DeviceWithSerial "def") fooBarLister)
              (mock.server "OKAY" ["def"])))
      "def" (fst (fst (fooBarLister (mock.server "OKAY" []))))) as Hthm.
    destruct Hthm as [_ Hsome];
      [vm_compute; reflexivity | vm_compute; reflexivity |].
    rewrite (Hsome [ {| Serial := "abc"; Product := "Foo"; Model := "";
                        DeviceName := ""; TransportID := 0 |} ] []
                   {| Serial := "def"; Product := "Bar"; Model := "";
                      DeviceName := ""; TransportID := 0 |}).
    + reflexivity.
    + reflexivity.
    + repeat constructor; intros Heq; vm_compute in Heq; discriminate Heq.
    + reflexivity.
Defined.

(** ** RunCommand *)

(** What [RunCommand] reads as the exit code: Atoi on the trimmed text
    gives the exit code that the text stands for. *)
Lemma Atoi_TrimSpace (suf : string) :
  fst (strconv.Atoi (strings.TrimSpace suf)) = exitCodeOf suf.
Proof. unfold exitCodeOf. by rewrite TrimSpace_trim, Atoi_codeOfText. Qed.

Lemma exitError_zero (command : string) : exitError command 0 = None.
Proof. reflexivity. Qed.

Lemma exitError_code (command : string) (code : Z) :
  code <> 0 ->
  exitError command code
  = Some (ShellExit {| Command := command; ExitCode := code |}).
Proof. intros Hcode%Z.eqb_neq. unfold exitError. by rewrite Hcode. Qed.

(** The exit code of a text, case by case. *)
Lemma codeOfText_cases (t : string) :
  (isNumeral t = true -> intMin <= denoted t <= intMax ->
   codeOfText t = denoted t)
  /\ (isNumeral t = true -> intMax < denoted t -> codeOfText t = intMax)
  /\ (isNumeral t = true -> denoted t < intMin -> codeOfText t = intMin)
  /\ (isNumeral t = false -> decimal (leadingDigits (unsigned t)) < 2 ^ 64 ->
      codeOfText t = 0)
  /\ (isNumeral t = false -> 2 ^ 64 <= decimal (leadingDigits (unsigned t)) ->
      codeOfText t = if negative t then intMin else intMax).
Proof.
  unfold codeOfText, clampInt, intMin, intMax.
  change (2 ^ 63) with 9223372036854775808.
  repeat split; intros Hnum; rewrite Hnum; try lia.
  - intros Hsmall. by replace (2 ^ 64 <=? _) with false
      by (symmetry; apply Z.leb_gt; lia).
  - intros Hbig. by replace (2 ^ 64 <=? _) with true
      by (symmetry; apply Z.leb_le; lia).
Qed.

Section RunCommandFacts.
Context `{Helpers} `{Runtime} `{Wire}.

Lemma commandOutput_args (c : Device) (cmd : string) (args : slice) (w : World) :
  snd (fst (device.commandOutput c cmd args w))
  = snd (prepareCommandLine cmd (elems args)).
Proof.
  unfold device.commandOutput, device.OpenCommand. io_unfold.
  destruct (prepareCommandLine cmd (elems args)) as [[cl err] args'].
  destruct err as [e|]; [done |]. cbn [wrapClientError snd].
  destruct (device.dialDevice c w) as [[conn | e] w1]; [| done].
  destruct (SendMessage conn _ w1) as [[e|] w2]; cbn [wrapClientError].
  { by destruct (CloseNil w2). }
  destruct (ReadStatus conn _ w2) as [[st | e] w3].
  - by destruct (ReadUntilEof conn w3) as [[resp | e] w4].
  - by destruct (CloseNil w3).
Qed.

Lemma commandOutput_prepared (c : Device) (cmd : string) (args : slice)
      (w w' : World) (raw : string) (ex : list string) :
  device.commandOutput c cmd args w = (((raw, None), ex), w') ->
  snd (fst (prepareCommandLine cmd (elems args))) = None.
Proof.
  unfold device.commandOutput, device.OpenCommand. io_unfold.
  destruct (prepareCommandLine cmd (elems args)) as [[cl err] args'].
  by destruct err as [e|].
Qed.

Lemma prepared_args (cmd : string) (args : list string) :
  snd (fst (prepareCommandLine cmd args)) = None ->
  snd (prepareCommandLine cmd args) = map quoteArg args.
Proof.
  unfold prepareCommandLine. destruct (isBlank cmd); [done |].
  pose proof (quoteArgs_none 0 args) as Hnone.
  destruct (quoteArgs 0 args) as [args' [e|]]; [done |].
  intros _. by apply Hnone.
Qed.

Lemma commandOutput_quoted (c : Device) (cmd : string) (args : slice)
      (w w' : World) (raw : string) (ex : list string) :
  device.commandOutput c cmd args w = (((raw, None), ex), w') ->
  ex = map quoteArg (elems args).
Proof.
  intros Hrun.
  pose proof (commandOutput_args c cmd args w) as Hargs.
  rewrite Hrun in Hargs. cbn [fst snd] in Hargs. rewrite Hargs.
  apply prepared_args. by apply (commandOutput_prepared c cmd args w w' raw ex).
Qed.

Lemma append_afterCall (args : slice) (ex : list string) :
  ex = map quoteArg (elems (fst (append args sentinel))) ->
  (if snd (append args sentinel) then take (length (elems args)) ex
   else elems args) = afterCall args.
Proof.
  intros ->. unfold append, afterCall. cbn [length sentinel].
  destruct (3 <=? spare args)%nat; cbn [fst snd elems]; [| done].
  rewrite map_app. rewrite <- (length_map quoteArg (elems args)).
  by rewrite take_app_length.
Qed.

Lemma RunCommand_run (c : Device) (cmd : string) (args : slice)
      (w w' : World) (raw : string) (ex : list string) :
  device.commandOutput c cmd (fst (append args sentinel)) w
  = (((raw, None), ex), w') ->
  device.RunCommand c cmd args w
  = ((if strings.LastIndexByte raw ":" =? -1
      then (raw, Some (Errorf "adb shell error, parse exit code failed"))
      else (lfOnly (str_slice raw 0 (strings.LastIndexByte raw ":")),
            exitError (spaced (afterCall args))
              (exitCodeOf (str_slice raw (strings.LastIndexByte raw ":" + 1)
                                     (len raw)))),
      afterCall args), w').
Proof.
  intros Hrun.
  pose proof (commandOutput_quoted _ _ _ _ _ _ _ Hrun) as Hex.
  pose proof (append_afterCall args ex Hex) as Hafter.
  unfold device.RunCommand. fold sentinel.
  destruct (append args sentinel) as [exArgs shared].
  cbn [fst snd] in *. io_unfold. rewrite Hrun, Hafter.
  destruct (strings.LastIndexByte raw ":" =? -1); [done |].
  rewrite Replace_lfOnly, Join_spaced, <- Atoi_TrimSpace. unfold exitError.
  destruct (strconv.Atoi _) as [code err]. cbn [fst].
  by destruct (code =? 0).
Qed.

Lemma RunCommand_found (c : Device) (cmd : string) (args : slice)
      (w w' : World) (pre suf : string) (ex : list string) :
  device.commandOutput c cmd (fst (append args sentinel)) w
  = (((pre +:+ String ":" suf, None), ex), w') ->
  str_mem ":" suf = false ->
  device.RunCommand c cmd args w
  = (((lfOnly pre,
       exitError (spaced (afterCall args)) (exitCodeOf suf)),
      afterCall args), w').
Proof.
  intros Hrun Hsuf. rewrite (RunCommand_run _ _ _ _ _ _ _ Hrun).
  rewrite (LastIndexByte_last ":" pre suf Hsuf), slice_before, slice_after.
  replace (len pre =? -1) with false; [done |].
  symmetry. apply Z.eqb_neq. unfold len. lia.
Qed.

Lemma RunCommand_not_found (c : Device) (cmd : string) (args : slice)
      (w w' : World) (raw : string) (ex : list string) :
  device.commandOutput c cmd (fst (append args sentinel)) w
  = (((raw, None), ex), w') ->
  str_mem ":" raw = false ->
  device.RunCommand c cmd args w
  = (((raw, Some (Errorf "adb shell error, parse exit code failed")),
      afterCall args), w').
Proof.
  intros Hrun Hraw. rewrite (RunCommand_run _ _ _ _ _ _ _ Hrun).
  by rewrite (LastIndexByte_none ":" raw Hraw).
Qed.

(** C1, amended.  When the raw output of the shell holds a colon,
    [RunCommand] returns what stands before the last colon with every CRLF
    turned into LF, and reads the exit code from the text after that
    colon without the white space at its ends.  When that text is a
    decimal numeral (an optional sign and one or more digits) the exit
    code is the integer it denotes if that lies within the range of int,
    and else the bound of int next to it.  When it is not a numeral the
    exit code is 0, unless the digits at its head (after the sign) already
    denote more than 64 bits hold: Atoi then stops with a range error
    before it meets the byte that is no digit, and the exit code is the
    bound of int on the side of the sign.  The exit code 0 gives no
    error, any other one a shell exit error that carries it.  When the
    raw output holds no colon, [RunCommand] returns the error
    "parse exit code failed".  The raw output "output:0" gives the output
    "output" and no error. *)
Theorem RunCommand_sentinel (c : Device) (cmd : string) (args : slice)
        (w w' : World) (raw : string) (ex : list string) :
  device.commandOutput c cmd (fst (append args sentinel)) w
  = (((raw, None), ex), w') ->
  let out := fst (fst (fst (device.RunCommand c cmd args w))) in
  let err := snd (fst (fst (device.RunCommand c cmd args w))) in
  let command := spaced (afterCall args) in
  (str_mem ":" raw = true ->
   exists pre suf : string,
     raw = pre +:+ String ":" suf /\ str_mem ":" suf = false
     /\ out = lfOnly pre
     /\ err = exitError command (codeOfText (trim suf))
     /\ (isNumeral (trim suf) = true ->
         intMin <= denoted (trim suf) <= intMax ->
         err = exitError command (denoted (trim suf)))
     /\ (isNumeral (trim suf) = true -> intMax < denoted (trim suf) ->
         err = Some (ShellExit {| Command := command; ExitCode := intMax |}))
     /\ (isNumeral (trim suf) = true -> denoted (trim suf) < intMin ->
         err = Some (ShellExit {| Command := command; ExitCode := intMin |}))
     /\ (isNumeral (trim suf) = false ->
         decimal (leadingDigits (unsigned (trim suf))) < 2 ^ 64 ->
         err = None)
     /\ (isNumeral (trim suf) = false ->
         2 ^ 64 <= decimal (leadingDigits (unsigned (trim suf))) ->
         err = Some (ShellExit {| Command := command;
                                  ExitCode := if negative (trim suf)
                                              then intMin else intMax |})))
  /\ (str_mem ":" raw = false ->
      (out, err) = (raw, Some (Errorf "adb shell error, parse exit code failed")))
  /\ (raw = "output:0" -> (out, err) = ("output", None)).
Proof.
  intros Hrun out err command. subst out err command. split; [| split].
  - intros (pre & suf & -> & Hsuf)%split_last. exists pre, suf.
    rewrite (RunCommand_found _ _ _ _ _ _ _ _ Hrun Hsuf). cbn [fst snd].
    unfold exitCodeOf.
    destruct (codeOfText_cases (trim suf)) as (Hin & Hmax & Hmin & Hno & Hbig).
    split; [done |]. split; [done |]. split; [done |]. split; [done |].
    split; [| split; [| split; [| split]]].
    + intros Hnum Hrange. by rewrite (Hin Hnum Hrange).
    + intros Hnum Hrange. by rewrite (Hmax Hnum Hrange).
    + intros Hnum Hrange. by rewrite (Hmin Hnum Hrange).
    + intros Hnum Hsmall. by rewrite (Hno Hnum Hsmall).
    + intros Hnum Hlarge. rewrite (Hbig Hnum Hlarge).
      by destruct (negative (trim suf)).
  - intros Hraw. by rewrite (RunCommand_not_found _ _ _ _ _ _ _ Hrun Hraw).
  - intros ->.
    by rewrite (RunCommand_found c cmd args w w' "output" "0" ex Hrun eq_refl).
Qed.

(** C4, amended.  When the exit code read from the output is not 0,
    [RunCommand] returns a shell exit error that carries the exit code
    and, as its command text, the arguments of the call joined by single
    spaces: the command word is not in it, and the arguments stand as the
    call leaves them.  The output comes with the error, without the
    record of the exit code and with every CRLF turned into LF.  When the
    exit code is 0 the error is nil. *)
Theorem RunCommand_exit_error (c : Device) (cmd : string) (args : slice)
        (w w' : World) (pre suf : string) (ex : list string) :
  device.commandOutput c cmd (fst (append args sentinel)) w
  = (((pre +:+ String ":" suf, None), ex), w') ->
  str_mem ":" suf = false ->
  let code := codeOfText (trim suf) in
  (code <> 0 ->
   fst (fst (device.RunCommand c cmd args w))
   = (lfOnly pre,
      Some (ShellExit {| Command := spaced (afterCall args);
                         ExitCode := code |})))
  /\ (code = 0 ->
      fst (fst (device.RunCommand c cmd args w)) = (lfOnly pre, None)).
Proof.
  intros Hrun Hsuf code.
  rewrite (RunCommand_found _ _ _ _ _ _ _ _ Hrun Hsuf). cbn [fst].
  unfold exitCodeOf. fold code. split.
  - intros Hcode. by rewrite (exitError_code _ _ Hcode).
  - by intros ->.
Qed.

End RunCommandFacts.

(** ** RunCommandWithExitCode *)

Section RunCommandWithExitCodeFacts.
Context `{Helpers} `{Runtime} `{Wire}.

Lemma append_afterCall2 (args : slice) :
  (if snd (append args sentinel)
   then take (length (elems args)) (afterCall (fst (append args sentinel)))
   else elems args) = afterCall2 args.
Proof.
  unfold append, afterCall, afterCall2. cbn [length sentinel].
  destruct (Nat.leb_spec 3 (spare args)) as [H3 | H3]; cbn [fst snd elems spare].
  - destruct (Nat.leb_spec 3 (spare args - 3)) as [H6 | H6];
      destruct (Nat.leb_spec 6 (spare args)) as [H6' | H6']; try lia.
    + rewrite map_app. rewrite <- (length_map quoteArg (elems args)).
      by rewrite take_app_length.
    + by rewrite take_app_length.
  - destruct (Nat.leb_spec 6 (spare args)) as [H6' | H6']; [lia | done].
Qed.

Lemma RunCommandWithExitCode_run (c : Device) (cmd : string) (args : slice)
      (w w' : World) (out1 : string) (err1 : option error) :
  device.RunCommand c cmd (fst (append args sentinel)) w
  = (((out1, err1), afterCall (fst (append args sentinel))), w') ->
  device_extra.RunCommandWithExitCode c cmd args w
  = (match err1 with
     | Some e => (out1, 0, Some e)
     | None =>
         if strings.LastIndexByte out1 ":" =? -1
         then (out1, 0, Some (Errorf "adb shell aborted, can not parse exit code"))
         else (lfOnly (str_slice out1 0 (strings.LastIndexByte out1 ":")),
               exitCodeOf (str_slice out1 (strings.LastIndexByte out1 ":" + 1)
                                     (len out1)),
               exitError (spaced (afterCall2 args))
                 (exitCodeOf (str_slice out1 (strings.LastIndexByte out1 ":" + 1)
                                        (len out1))))
     end, w').
Proof.
  intros Hrun. pose proof (append_afterCall2 args) as Hafter.
  unfold device_extra.RunCommandWithExitCode. fold sentinel.
  destruct (append args sentinel) as [exArgs shared].
  cbn [fst snd] in *. io_unfold. rewrite Hrun, Hafter.
  destruct err1 as [e|]; [done |].
  destruct (strings.LastIndexByte out1 ":" =? -1); [done |].
  rewrite Replace_lfOnly, Join_spaced, <- Atoi_TrimSpace. unfold exitError.
  destruct (strconv.Atoi _) as [code err]. cbn [fst].
  by destruct (code =? 0).
Qed.

(** C8, amended.  [RunCommandWithExitCode] runs [RunCommand] on the
    arguments already extended by the sentinel, so that the command line
    carries the sentinel twice.  When [RunCommand] fails, because the raw
    output holds no colon or because the code after its last colon is not
    0, its output and its error are returned with the exit code 0.
    Otherwise the text that [RunCommand] returned goes through the
    extraction once more: without a colon in it the call fails with
    "can not parse exit code" and the exit code 0; else the result is the
    text before its last colon with CRLF turned into LF, the exit code
    that the text after that colon stands for once the white space at its
    ends is removed, and a shell exit error with that code when it is not
    0.  The exit code of a numeral within the range of int is the integer
    it denotes; a text that is not a numeral and whose leading digits fit
    64 bits gives the exit code 0 and no error. *)
Theorem RunCommandWithExitCode_pipeline (c : Device) (cmd : string)
        (args : slice) (w w' : World) (raw : string) (ex : list string) :
  let exArgs := fst (append args sentinel) in
  let result := fst (device_extra.RunCommandWithExitCode c cmd args w) in
  device.commandOutput c cmd (fst (append exArgs sentinel)) w
  = (((raw, None), ex), w') ->
  (str_mem ":" raw = false ->
   result = (raw, 0, Some (Errorf "adb shell error, parse exit code failed")))
  /\ (forall pre suf : string,
        raw = pre +:+ String ":" suf ->
        str_mem ":" suf = false ->
        let out1 := lfOnly pre in
        let code1 := codeOfText (trim suf) in
        (code1 <> 0 ->
         result = (out1, 0,
                   Some (ShellExit {| Command := spaced (afterCall exArgs);
                                      ExitCode := code1 |})))
        /\ (code1 = 0 ->
            str_mem ":" out1 = false ->
            result = (out1, 0,
                      Some (Errorf "adb shell aborted, can not parse exit code")))
        /\ (code1 = 0 ->
            forall pre2 suf2 : string,
              out1 = pre2 +:+ String ":" suf2 ->
              str_mem ":" suf2 = false ->
              let command := spaced (afterCall2 args) in
              result = (lfOnly pre2, codeOfText (trim suf2),
                        exitError command (codeOfText (trim suf2)))
              /\ (isNumeral (trim suf2) = true ->
                  intMin <= denoted (trim suf2) <= intMax ->
                  result = (lfOnly pre2, denoted (trim suf2),
                            exitError command (denoted (trim suf2))))
              /\ (isNumeral (trim suf2) = false ->
                  decimal (leadingDigits (unsigned (trim suf2))) < 2 ^ 64 ->
                  result = (lfOnly pre2, 0, None)))).
Proof.
  intros exArgs result Hrun. subst result. split.
  - intros Hraw.
    pose proof (RunCommand_not_found c cmd exArgs w w' raw ex Hrun Hraw) as Hinner.
    by rewrite (RunCommandWithExitCode_run _ _ _ _ _ _ _ Hinner).
  - intros pre suf -> Hsuf out1 code1.
    pose proof (RunCommand_found c cmd exArgs w w' pre suf ex Hrun Hsuf) as Hinner.
    rewrite (RunCommandWithExitCode_run _ _ _ _ _ _ _ Hinner). cbn [fst].
    unfold exitCodeOf. fold out1 code1.
    split; [| split].
    + intros Hcode. by rewrite (exitError_code _ _ Hcode).
    + intros Hcode Hout. rewrite Hcode, exitError_zero.
      by rewrite (LastIndexByte_none ":" out1 Hout).
    + intros Hcode pre2 suf2 Hout Hsuf2. cbv zeta. rewrite Hcode, exitError_zero.
      rewrite Hout, (LastIndexByte_last ":" pre2 suf2 Hsuf2).
      rewrite slice_before, slice_after.
      replace (len pre2 =? -1) with false
        by (symmetry; apply Z.eqb_neq; unfold len; lia).
      destruct (codeOfText_cases (trim suf2)) as (Hin & _ & _ & Hno & _).
      split; [done |]. split.
      * intros Hnum Hrange. by rewrite (Hin Hnum Hrange).
      * intros Hnum Hsmall. by rewrite (Hno Hnum Hsmall).
Qed.

End RunCommandWithExitCodeFacts.

(** ** The lines of a listing *)

Lemma propLine_cons (kv : string * string) :
  propLine kv
  = String "[" (kv.1 +:+ String "]" (String ":" (String " "
      (String "[" (kv.2 +:+ String "]" ""))))).
Proof. reflexivity. Qed.

Lemma run_Byte (c a : ascii) (s : string) (pos : nat) (cs : regexp.caps)
      (k : string -> nat -> regexp.caps -> option regexp.caps) :
  regexp.run (regexp.Byte c) (String a s) pos cs k
  = if Ascii.eqb a c then k s (S pos) cs else None.
Proof. reflexivity. Qed.

Lemma run_Cat (r1 r2 : regexp.regex) (s : string) (pos : nat) (cs : regexp.caps)
      (k : string -> nat -> regexp.caps -> option regexp.caps) :
  regexp.run (regexp.Cat r1 r2) s pos cs k
  = regexp.run r1 s pos cs (fun s' pos' cs' => regexp.run r2 s' pos' cs' k).
Proof. reflexivity. Qed.

Lemma run_Cap (i : nat) (r : regexp.regex) (s : string) (pos : nat)
      (cs : regexp.caps)
      (k : string -> nat -> regexp.caps -> option regexp.caps) :
  regexp.run (regexp.Cap i r) s pos cs k
  = regexp.run r s pos cs
      (fun s' pos' cs' => k s' pos' (<[i := Some (pos, pos')]> cs')).
Proof. reflexivity. Qed.

(** The lazy star of [.] stops at the first [stop] when what follows it
    can only start with [stop]. *)
Lemma run_lazy_until (stop : ascii) (u rest : string) (pos : nat)
      (cs : regexp.caps) (k : string -> nat -> regexp.caps -> option regexp.caps)
      (m : regexp.caps) :
  str_mem LF u = false ->
  str_mem stop u = false ->
  (forall c t p, Ascii.eqb c stop = false -> k (String c t) p cs = None) ->
  k rest (pos + String.length u)%nat cs = Some m ->
  regexp.run (regexp.Star regexp.dot false) (u +:+ rest) pos cs k = Some m.
Proof.
  intros Hlf Hstop Hk. revert pos. induction u as [|c u IH]; intros pos Hrest.
  - rewrite app_nil_s. simpl in Hrest. rewrite Nat.add_0_r in Hrest.
    cbn [regexp.run]. destruct rest as [|a t]; [done |].
    destruct (regexp.dot a); [| done]. by rewrite Hrest.
  - simpl in Hlf, Hstop.
    apply orb_false_iff in Hlf as [Hc Hlf].
    apply orb_false_iff in Hstop as [Hcs Hstop].
    rewrite app_cons_s. cbn [regexp.run].
    unfold regexp.dot at 1. rewrite Hc. cbn [negb].
    rewrite (Hk c _ pos Hcs).
    specialize (IH Hlf Hstop (S pos)). cbn [regexp.run] in IH. apply IH.
    rewrite <- Hrest. f_equal. simpl. lia.
Qed.

(** The greedy star of [\s] over the one space before a bracket. *)
Lemma run_space_bracket (t : string) (pos : nat) (cs : regexp.caps)
      (k : string -> nat -> regexp.caps -> option regexp.caps)
      (m : regexp.caps) :
  k (String "[" t) (S pos) cs = Some m ->
  regexp.run (regexp.Star regexp.space true) (String " " (String "[" t)) pos cs k
  = Some m.
Proof. intros Hk. cbn [regexp.run]. cbn. by rewrite Hk. Qed.

Lemma run_line (kv : string * string) (tail : string) (p : nat) :
  plainEntry kv = true ->
  regexp.run propsRegexp (propLine kv +:+ tail) p (regexp.numCap 2)
    (fun _ e cs => Some (<[0%nat := Some (p, e)]> cs))
  = Some [Some (p, p + String.length kv.1 + String.length kv.2 + 6)%nat;
          Some (S p, S p + String.length kv.1)%nat;
          Some (p + String.length kv.1 + 5,
                p + String.length kv.1 + 5 + String.length kv.2)%nat].
Proof.
  destruct kv as [k v]. unfold plainEntry, plain. cbn [fst snd].
  intros [[Hk1 Hk2]%andb_true_iff [Hv1 Hv2]%andb_true_iff]%andb_true_iff.
  apply negb_true_iff in Hk1, Hk2, Hv1, Hv2.
  unfold propsRegexp. rewrite propLine_cons. cbn [fst snd].
  rewrite app_cons_s, run_Cat, run_Byte. cbn [Ascii.eqb Bool.eqb andb].
  rewrite run_Cat, run_Cap, app_assoc_s.
  apply (run_lazy_until "]"); try done.
  { intros c t q Hc. by rewrite run_Cat, run_Byte, Hc. }
  rewrite !app_cons_s, run_Cat, run_Byte. cbn [Ascii.eqb Bool.eqb andb].
  rewrite run_Cat, run_Byte. cbn [Ascii.eqb Bool.eqb andb].
  rewrite run_Cat. apply run_space_bracket.
  rewrite run_Cat, run_Byte. cbn [Ascii.eqb Bool.eqb andb].
  rewrite run_Cat, run_Cap, app_assoc_s.
  apply (run_lazy_until "]"); try done.
  { intros c t q Hc. by rewrite run_Byte, Hc. }
  rewrite !app_cons_s, run_Byte. cbn [Ascii.eqb Bool.eqb andb].
  unfold regexp.numCap. cbn [replicate].
  cbn [list_insert insert]. 
  repeat f_equal; lia.
Qed.

Lemma run_no_bracket (c : ascii) (s : string) (pos : nat) (cs : regexp.caps)
      (k : string -> nat -> regexp.caps -> option regexp.caps) :
  Ascii.eqb c "[" = false ->
  regexp.run propsRegexp (String c s) pos cs k = None.
Proof. intros Hc. unfold propsRegexp. by rewrite run_Cat, run_Byte, Hc. Qed.

(** The search passes over a text without an opening bracket. *)
Lemma find_at_skip (junk t : string) (pos : nat) :
  str_mem "[" junk = false ->
  regexp.find_at propsRegexp 2 (junk +:+ t) pos
  = regexp.find_at propsRegexp 2 t (pos + String.length junk).
Proof.
  revert pos. induction junk as [|c junk IH]; intros pos Hj.
  - rewrite app_nil_s. simpl. by rewrite Nat.add_0_r.
  - simpl in Hj. apply orb_false_iff in Hj as [Hc Hj].
    rewrite app_cons_s. cbn [regexp.find_at].
    rewrite (run_no_bracket c _ _ _ _ Hc). rewrite (IH _ Hj).
    f_equal. simpl. lia.
Qed.

Lemma find_at_none (junk : string) (pos : nat) :
  str_mem "[" junk = false ->
  regexp.find_at propsRegexp 2 junk pos = None.
Proof.
  revert pos. induction junk as [|c junk IH]; intros pos Hj; [done |].
  simpl in Hj. apply orb_false_iff in Hj as [Hc Hj].
  cbn [regexp.find_at]. rewrite (run_no_bracket c _ _ _ _ Hc). by apply IH.
Qed.

Lemma find_at_found (re : regexp.regex) (n : nat) (s : string) (pos : nat)
      (m : regexp.caps) :
  regexp.run re s pos (regexp.numCap n)
    (fun _ e cs => Some (<[0%nat := Some (pos, e)]> cs)) = Some m ->
  regexp.find_at re n s pos = Some m.
Proof. intros Hrun. destruct s; cbn [regexp.find_at]; by rewrite Hrun. Qed.

Lemma find_at_line (kv : string * string) (tail : string) (p : nat) :
  plainEntry kv = true ->
  regexp.find_at propsRegexp 2 (propLine kv +:+ tail) p
  = Some [Some (p, p + String.length kv.1 + String.length kv.2 + 6)%nat;
          Some (S p, S p + String.length kv.1)%nat;
          Some (p + String.length kv.1 + 5,
                p + String.length kv.1 + 5 + String.length kv.2)%nat].
Proof. intros Hkv. apply find_at_found. by apply run_line. Qed.

Lemma str_drop_app_plus (a b : string) (n : nat) :
  str_drop (String.length a + n) (a +:+ b) = str_drop n b.
Proof.
  induction a as [|x a IH]; [done |]. rewrite app_cons_s. simpl. exact IH.
Qed.

Lemma length_propLine (kv : string * string) :
  String.length (propLine kv)
  = (String.length kv.1 + String.length kv.2 + 6)%nat.
Proof.
  rewrite propLine_cons. cbn [String.length]. rewrite length_app_s.
  cbn [String.length]. rewrite length_app_s. cbn [String.length]. lia.
Qed.

(** The texts of a match of a line: the line, its key and its value. *)
Lemma groups_line (pre tail : string) (kv : string * string) :
  let p := String.length pre in
  map (regexp.group (pre +:+ propLine kv +:+ tail))
      [Some (p, p + String.length kv.1 + String.length kv.2 + 6)%nat;
       Some (S p, S p + String.length kv.1)%nat;
       Some (p + String.length kv.1 + 5,
             p + String.length kv.1 + 5 + String.length kv.2)%nat]
  = [propLine kv; kv.1; kv.2].
Proof.
  intros p. subst p. cbn [map regexp.group]. f_equal; [| f_equal; [| f_equal]].
  - rewrite str_drop_app.
    replace (_ - _)%nat with (String.length (propLine kv))
      by (rewrite length_propLine; lia).
    apply str_take_app.
  - replace (S (String.length pre)) with (String.length pre + 1)%nat by lia.
    rewrite str_drop_app_plus.
    replace (_ - _)%nat with (String.length kv.1) by lia.
    rewrite propLine_cons, app_cons_s. cbn [str_drop].
    rewrite app_assoc_s. apply str_take_app.
  - replace (_ - _)%nat with (String.length kv.2) by lia.
    replace (String.length pre + String.length kv.1 + 5)%nat
      with (String.length pre + (String.length kv.1 + 5))%nat by lia.
    rewrite str_drop_app_plus.
    rewrite propLine_cons, app_cons_s.
    replace (String.length kv.1 + 5)%nat
      with (S (String.length kv.1 + 4))%nat by lia.
    cbn [str_drop]. rewrite app_assoc_s, str_drop_app_plus.
    rewrite !app_cons_s. cbn [str_drop].
    rewrite app_assoc_s. apply str_take_app.
Qed.

Lemma str_mem_app (c : ascii) (a b : string) :
  str_mem c (a +:+ b) = str_mem c a || str_mem c b.
Proof.
  induction a as [|x a IH]; [done |]. rewrite app_cons_s. simpl.
  by rewrite IH, orb_assoc.
Qed.

Lemma len_app (a b : string) : len (a +:+ b) = len a + len b.
Proof. unfold len. rewrite length_app_s. lia. Qed.

Lemma len_le_app (a b : string) : (len a <=? len (a +:+ b)) = true.
Proof. apply Z.leb_le. rewrite len_app. pose proof (len_nonneg b). lia. Qed.

(** The matches in a listing: one for each line, in order. *)
Lemma allMatches_listing (nl : string) (kvs : list (string * string))
      (fuel : nat) (pre junk : string) (i prev n : Z) :
  str_mem "[" nl = false -> str_mem "[" junk = false ->
  forallb plainEntry kvs = true ->
  (length kvs < fuel)%nat -> i + Z.of_nat (length kvs) < n ->
  regexp.allMatches fuel propsRegexp 2 (pre +:+ junk +:+ propListing nl kvs)
    (len pre) i prev n
  = map (fun kv => [propLine kv; kv.1; kv.2]) kvs.
Proof.
  intros Hnl. revert fuel pre junk i prev.
  induction kvs as [|kv kvs IH]; intros fuel pre junk i prev Hjunk Hkvs Hfuel Hn;
    (destruct fuel as [|fuel]; [simpl in Hfuel; lia |]);
    cbn [regexp.allMatches];
    (replace (i <? n) with true by (symmetry; apply Z.ltb_lt; lia));
    rewrite len_le_app; cbn [andb]; unfold len; rewrite Nat2Z.id, str_drop_app.
  - cbn [propListing]. rewrite app_empty_r, (find_at_none junk _ Hjunk). done.
  - cbn [forallb] in Hkvs. apply andb_true_iff in Hkvs as [Hkv Hkvs].
    cbn [propListing]. rewrite (find_at_skip junk _ _ Hjunk).
    rewrite (find_at_line kv _ _ Hkv). cbn [regexp.bounds].
    set (p := (String.length pre + String.length junk)%nat).
    set (e := (p + String.length kv.1 + String.length kv.2 + 6)%nat).
    replace (Z.of_nat e =? Z.of_nat (String.length pre)) with false
      by (symmetry; apply Z.eqb_neq; lia).
    cbn [andb negb map]. f_equal.
    + replace (pre +:+ junk +:+ propLine kv +:+ nl +:+ propListing nl kvs)
        with ((pre +:+ junk) +:+ propLine kv +:+ (nl +:+ propListing nl kvs))
        by (by rewrite !app_assoc_s).
      pose proof (groups_line (pre +:+ junk) (nl +:+ propListing nl kvs) kv) as Hg.
      cbv zeta in Hg. rewrite length_app_s in Hg. exact Hg.
    + replace (pre +:+ junk +:+ propLine kv +:+ nl +:+ propListing nl kvs)
        with (((pre +:+ junk) +:+ propLine kv) +:+ nl +:+ propListing nl kvs)
        by (by rewrite !app_assoc_s).
      replace (Z.of_nat e) with (len ((pre +:+ junk) +:+ propLine kv)).
      2:{ unfold len. rewrite !length_app_s, length_propLine. lia. }
      apply IH; try done; [simpl in Hfuel; lia |].
      cbn [length] in Hn. lia.
Qed.

Lemma length_propListing (nl : string) (kvs : list (string * string)) :
  (length kvs <= String.length (propListing nl kvs))%nat.
Proof.
  induction kvs as [|kv kvs IH]; [done |].
  cbn [propListing length]. rewrite !length_app_s, length_propLine. lia.
Qed.

Lemma FindAll_listing (nl : string) (kvs : list (string * string)) :
  str_mem "[" nl = false -> forallb plainEntry kvs = true ->
  regexp.FindAllStringSubmatch propsRegexp 2 (propListing nl kvs) (-1)
  = map (fun kv => [propLine kv; kv.1; kv.2]) kvs.
Proof.
  intros Hnl Hkvs. unfold regexp.FindAllStringSubmatch. cbv zeta.
  change (-1 <? 0) with true. cbv iota.
  pose proof (length_propListing nl kvs) as Hlen.
  apply (allMatches_listing nl kvs _ "" "" 0 (-1)); try done; unfold len; lia.
Qed.

Lemma propsOfMatches_entries (kvs : list (string * string)) :
  propsOfMatches (map (fun kv => [propLine kv; kv.1; kv.2]) kvs) = propsOf kvs.
Proof.
  unfold propsOfMatches, propsOf.
  induction kvs as [|kv kvs IH] using rev_ind; [done |].
  rewrite map_app, foldl_app, IH, reverse_app. done.
Qed.

(** Every entry of a listing is in what [Properties] reads from it. *)
Lemma parseProps_listing (nl : string) (kvs : list (string * string)) :
  str_mem "[" nl = false -> forallb plainEntry kvs = true ->
  parseProps (propListing nl kvs) = propsOf kvs.
Proof.
  intros Hnl Hkvs. unfold parseProps.
  by rewrite (FindAll_listing nl kvs Hnl Hkvs), propsOfMatches_entries.
Qed.

Lemma propsOf_lookup (kvs : list (string * string)) (k v : string) :
  NoDup kvs.*1 -> propsOf kvs !! k = Some v <-> (k, v) ∈ kvs.
Proof.
  intros Hnd. unfold propsOf.
  rewrite <- elem_of_list_to_map by (by rewrite fmap_reverse, reverse_Permutation).
  by rewrite elem_of_reverse.
Qed.

Lemma propsOf_size (kvs : list (string * string)) :
  NoDup kvs.*1 -> size (propsOf kvs) = length kvs.
Proof.
  intros Hnd. unfold propsOf.
  rewrite map_size_list_to_map by (by rewrite fmap_reverse, reverse_Permutation).
  apply length_reverse.
Qed.


(** ** Properties *)

Lemma lfOnly_line (u t : string) :
  str_mem LF u = false ->
  lfOnly (u +:+ CRLF +:+ t) = u +:+ NL +:+ lfOnly t.
Proof.
  induction u as [|c u IH]; intros Hu.
  - rewrite !app_nil_s. unfold CRLF, NL. rewrite !app_cons_s, !app_nil_s.
    rewrite lfOnly_cons. cbn [Ascii.eqb Bool.eqb andb CR LF].
    apply lfOnly_LF.
  - simpl in Hu. apply orb_false_iff in Hu as [Hc Hu].
    rewrite !app_cons_s. specialize (IH Hu).
    destruct u as [|d u].
    + rewrite app_nil_s in *. unfold CRLF in *. rewrite app_cons_s in *.
      rewrite lfOnly_cons. cbn [Ascii.eqb Bool.eqb andb CR LF].
      rewrite andb_false_r. by rewrite IH.
    + simpl in Hu. apply orb_false_iff in Hu as [Hd Hu].
      rewrite app_cons_s in *. rewrite lfOnly_cons, Hd, andb_false_r.
      by rewrite IH.
Qed.

Lemma propLine_no_LF (kv : string * string) :
  plainEntry kv = true -> str_mem LF (propLine kv) = false.
Proof.
  unfold plainEntry, plain.
  intros [[_ Hk]%andb_true_iff [_ Hv]%andb_true_iff]%andb_true_iff.
  apply negb_true_iff in Hk, Hv.
  rewrite propLine_cons. cbn [str_mem]. rewrite str_mem_app, Hk.
  cbn [str_mem]. rewrite str_mem_app, Hv. done.
Qed.

(** [RunCommand] turns a listing with lines ended by CRLF into the one
    with lines ended by LF. *)
Lemma lfOnly_listing (kvs : list (string * string)) :
  forallb plainEntry kvs = true ->
  lfOnly (propListing CRLF kvs) = propListing NL kvs.
Proof.
  induction kvs as [|kv kvs IH]; [done |].
  cbn [forallb propListing]. intros [Hkv Hkvs]%andb_true_iff.
  rewrite (lfOnly_line _ _ (propLine_no_LF kv Hkv)). by rewrite (IH Hkvs).
Qed.

Lemma getprop_listing : getpropOutput = propListing CRLF wifiEntries.
Proof. reflexivity. Qed.

Lemma wifiProps_entries : propsOf wifiEntries = wifiProps.
Proof.
  unfold propsOf, wifiProps.
  change (reverse wifiEntries)
    with [("wlan.driver.ath", "0"); ("wifi.interface", "wlan0")].
  change (list_to_map [("wlan.driver.ath", "0"); ("wifi.interface", "wlan0")])
    with (<["wlan.driver.ath" := "0"]>
            (<["wifi.interface" := "wlan0"]> (∅ : gmap string string))).
  by apply insert_insert_ne.
Qed.

Section PropertiesFacts.
Context `{Helpers} `{Runtime} `{Wire}.

(** C9, amended.  [Properties] reads every line [[key]: [value]] of the
    output of getprop into the mapping, for keys and values without a
    closing bracket and without a line feed; a key listed twice keeps its
    later value.  The [Properties] of device.go reads the stream as it is;
    the one of device_extra.go reads it through [RunCommand], which takes
    the record of the exit code off its end: with the lines followed by
    the record of a successful command it returns the same mapping.  The
    output of the test is the listing of the two entries wifi.interface
    and wlan.driver.ath, and its mapping has exactly these two. *)
Theorem Properties_getprop (c : Device) (w w' : World) (ex : list string)
        (kvs : list (string * string)) (record : string) :
  forallb plainEntry kvs = true ->
  (device.commandOutput c "getprop" (slice_of []) w
   = (((propListing CRLF kvs, None), ex), w') ->
   device.Properties c w = ((Some (propsOf kvs), None), w'))
  /\ (str_mem ":" record = false -> codeOfText (trim record) = 0 ->
      device.commandOutput c "getprop" (fst (append (slice_of []) sentinel)) w
      = (((propListing CRLF kvs +:+ String ":" record, None), ex), w') ->
      device_extra.Properties c w = ((Some (propsOf kvs), None), w'))
  /\ (NoDup kvs.*1 ->
      size (propsOf kvs) = length kvs
      /\ forall k v : string, propsOf kvs !! k = Some v <-> (k, v) ∈ kvs)
  /\ getpropOutput = propListing CRLF wifiEntries
  /\ propsOf wifiEntries = wifiProps
  /\ size wifiProps = 2%nat
  /\ wifiProps !! "wifi.interface" = Some "wlan0"
  /\ wifiProps !! "wlan.driver.ath" = Some "0".
Proof.
  intros Hkvs. split; [| split; [| split; [| split; [| split]]]].
  - intros Hrun. unfold device.Properties. io_unfold.
    rewrite Hrun. by rewrite (parseProps_listing CRLF kvs eq_refl Hkvs).
  - intros Hrecord Hcode Hrun.
    pose proof (RunCommand_found c "getprop" (slice_of []) w w'
                  (propListing CRLF kvs) record ex Hrun Hrecord) as Hfound.
    unfold device_extra.Properties. io_unfold. rewrite Hfound.
    unfold exitCodeOf. rewrite Hcode, exitError_zero.
    by rewrite (lfOnly_listing kvs Hkvs), (parseProps_listing NL kvs eq_refl Hkvs).
  - intros Hnd. split; [by apply propsOf_size |].
    intros k v. by apply propsOf_lookup.
  - exact getprop_listing.
  - exact wifiProps_entries.
  - by vm_compute.
Qed.

End PropertiesFacts.

(** ** The properties on the mock server *)

Lemma RunCommand_sentinel_witness :
  fst (fst (@device.RunCommand mock.helpers mock.runtime mock.wire
              anyClient "cmd" (slice_of []) (shellServer "output:0")))
  = ("output", None).
Proof.
  pose proof (@RunCommand_sentinel mock.helpers mock.runtime mock.wire
    anyClient "cmd" (slice_of []) (shellServer "output:0")
    (snd (@device.commandOutput mock.helpers mock.wire anyClient "cmd"
            (fst (@append mock.runtime (slice_of []) sentinel))
            (shellServer "output:0")))
    "output:0" sentinel) as Hthm.
  cbv zeta in Hthm.
  destruct Hthm as (_ & _ & Hout); [vm_compute; reflexivity |].
  rewrite surjective_pairing. apply Hout. reflexivity.
Defined.

(** The claim C1 as it stands fails: the text after the last colon of
    the output below does not parse as an int, Atoi reports it out of
    range, and yet the exit code is not 0 and an error is returned. *)
Lemma RunCommand_sentinel_counterexample :
  snd (strconv.Atoi (strings.TrimSpace "99999999999999999999"))
  = Some strconv.ErrRange
  /\ fst (fst (@device.RunCommand mock.helpers mock.runtime mock.wire
                 anyClient "cmd" (slice_of [])
                 (shellServer "output:99999999999999999999")))
     = ("output", Some (ShellExit {| Command := "";
                                     ExitCode := 9223372036854775807 |})).
Proof. split; vm_compute; reflexivity. Qed.

Lemma RunCommand_exit_error_witness :
  fst (fst (@device.RunCommand mock.helpers mock.runtime mock.wire
              anyClient "cmd" (slice_of ["a b"; "c"]) (shellServer "output:1")))
  = ("output", Some (ShellExit {| Command := "a b c"; ExitCode := 1 |})).
Proof.
  pose proof (@RunCommand_exit_error mock.helpers mock.runtime mock.wire
    anyClient "cmd" (slice_of ["a b"; "c"]) (shellServer "output:1")
    (snd (@device.commandOutput mock.helpers mock.wire anyClient "cmd"
            (fst (@append mock.runtime (slice_of ["a b"; "c"]) sentinel))
            (shellServer "output:1")))
    "output" "1"
    (@quoteArg mock.helpers <$> (["a b"; "c"] ++ sentinel))) as Hthm.
  destruct Hthm as [Hcode _]; [vm_compute; reflexivity | reflexivity |].
  rewrite Hcode; [reflexivity | vm_compute; discriminate].
Defined.

(** The claim C4 as it stands fails: the error of the command "ls"
    carries the empty string where the claim has the command text, and
    prints without it; the request that was sent shows the command
    line. *)
Lemma RunCommand_exit_error_counterexample :
  fst (fst (@device.RunCommand mock.helpers mock.runtime mock.wire
              anyClient "ls" (slice_of []) (shellServer "output:1")))
  = ("output", Some (ShellExit {| Command := ""; ExitCode := 1 |}))
  /\ ShellExitError_Error {| Command := ""; ExitCode := 1 |}
     = "shell  exit code 1"
  /\ mock.Requests
       (snd (@device.RunCommand mock.helpers mock.runtime mock.wire
               anyClient "ls" (slice_of []) (shellServer "output:1")))
     = ["host:transport-any"; "shell:ls ; echo :$?"].
Proof. repeat split; vm_compute; reflexivity. Qed.

(** The claim C8 as it stands fails: on the stream "output:0"
    [RunCommand] returns the output without error, and
    [RunCommandWithExitCode] returns an error. *)
Lemma RunCommandWithExitCode_counterexample :
  fst (fst (@device.RunCommand mock.helpers mock.runtime mock.wire
              anyClient "cmd" (slice_of []) (shellServer "output:0")))
  = ("output", None)
  /\ fst (@device_extra.RunCommandWithExitCode mock.helpers mock.runtime mock.wire
            anyClient "cmd" (slice_of []) (shellServer "output:0"))
     = ("output", 0, Some (Errorf "adb shell aborted, can not parse exit code"))
  /\ snd (fst (@device_extra.RunCommandWithExitCode mock.helpers mock.runtime
                 mock.wire anyClient "cmd" (slice_of []) (shellServer "output:0")))
     <> snd (fst (fst (@device.RunCommand mock.helpers mock.runtime mock.wire
                         anyClient "cmd" (slice_of []) (shellServer "output:0")))).
Proof.
  split; [vm_compute; reflexivity |]. split; [vm_compute; reflexivity |].
  vm_compute. discriminate.
Qed.

Lemma RunCommandWithExitCode_pipeline_witness :
  fst (@device_extra.RunCommandWithExitCode mock.helpers mock.runtime mock.wire
         anyClient "cmd" (slice_of ["x y"])
         (shellServer ("output:3" +:+ CRLF +:+ ":0" +:+ CRLF)))
  = ("output", 3, Some (ShellExit {| Command := "x y"; ExitCode := 3 |})).
Proof.
  pose proof (@RunCommandWithExitCode_pipeline mock.helpers mock.runtime mock.wire
    anyClient "cmd" (slice_of ["x y"])
    (shellServer ("output:3" +:+ CRLF +:+ ":0" +:+ CRLF))
    (snd (@device.commandOutput mock.helpers mock.wire anyClient "cmd"
            (fst (@append mock.runtime
                    (fst (@append mock.runtime (slice_of ["x y"]) sentinel))
                    sentinel))
            (shellServer ("output:3" +:+ CRLF +:+ ":0" +:+ CRLF))))
    ("output:3" +:+ CRLF +:+ ":0" +:+ CRLF)
    (@quoteArg mock.helpers <$> (["x y"] ++ sentinel ++ sentinel))) as Hthm.
  cbv zeta in Hthm.
  destruct Hthm as [_ Hfound]; [vm_compute; reflexivity |].
  destruct (Hfound ("output:3" +:+ CRLF) ("0" +:+ CRLF)) as (_ & _ & Hagain);
    [reflexivity | reflexivity |].
  destruct (Hagain ltac:(vm_compute; reflexivity) "output" ("3" +:+ NL))
    as (Hresult & _); [reflexivity | reflexivity |].
  rewrite Hresult. vm_compute. reflexivity.
Defined.

Lemma Properties_getprop_witness :
  fst (@device.Properties mock.helpers mock.wire anyClient
         (shellServer getpropOutput))
  = (Some wifiProps, None)
  /\ fst (@device_extra.Properties mock.helpers mock.runtime mock.wire anyClient
            (shellServer (getpropOutput +:+ ":0" +:+ CRLF)))
     = (Some wifiProps, None).
Proof.
  split.
  - pose proof (@Properties_getprop mock.helpers mock.runtime mock.wire
      anyClient (shellServer getpropOutput)
      (snd (@device.commandOutput mock.helpers mock.wire anyClient "getprop"
              (slice_of []) (shellServer getpropOutput)))
      [] wifiEntries ("0" +:+ CRLF) eq_refl) as (Hprops & _ & _ & _ & Hmap & _).
    rewrite Hprops; [by rewrite Hmap | vm_compute; reflexivity].
  - pose proof (@Properties_getprop mock.helpers mock.runtime mock.wire
      anyClient (shellServer (getpropOutput +:+ ":0" +:+ CRLF))
      (snd (@device.commandOutput mock.helpers mock.wire anyClient "getprop"
              (fst (@append mock.runtime (slice_of []) sentinel))
              (shellServer (getpropOutput +:+ ":0" +:+ CRLF))))
      sentinel wifiEntries ("0" +:+ CRLF) eq_refl) as (_ & Hprops & _ & _ & Hmap & _).
    rewrite Hprops; [by rewrite Hmap | reflexivity | vm_compute; reflexivity
                     | vm_compute; reflexivity].
Defined.

(** The claim C9 as it stands fails for the [Properties] of
    device_extra.go: on the output of the claim as the stream of the
    server, [RunCommand] takes the last colon of the last line for the
    record of the exit code, and the entry of that line is lost. *)
Lemma Properties_getprop_counterexample :
  fst (@device_extra.Properties mock.helpers mock.runtime mock.wire anyClient
         (shellServer getpropOutput))
  = (Some (<["wifi.interface" := "wlan0"]> ∅), None)
  /\ fst (fst (@device_extra.Properties mock.helpers mock.runtime mock.wire
                 anyClient (shellServer getpropOutput)))
     <> Some wifiProps.
Proof.
  split; [vm_compute; reflexivity |].
  intros Heq. apply (f_equal (fun m => size <$> m)) in Heq.
  vm_compute in Heq. discriminate.
Qed.

(** ** Further runs on the mock server *)

(** The tests of [prepareCommandLine], with the helpers modelled from the
    spec. *)
Example prepareCommandLine_no_args :
  fst (@prepareCommandLine mock.helpers "cmd" []) = ("cmd", None).
Proof. reflexivity. Qed.

Example prepareCommandLine_clean_args :
  fst (@prepareCommandLine mock.helpers "cmd" ["arg1"; "arg2"])
  = ("cmd arg1 arg2", None).
Proof. reflexivity. Qed.

Example prepareCommandLine_blank :
  errors.Code <$> snd (fst (@prepareCommandLine mock.helpers "  " []))
  = Some errors.AssertionError
  /\ errors.Message <$> snd (fst (@prepareCommandLine mock.helpers "" []))
     = Some "command cannot be empty".
Proof. split; reflexivity. Qed.

(** On a stream shaped like the output of a shell, with one record of the
    exit code for [RunCommand] and two for [RunCommandWithExitCode], the
    two agree on the output and on the error. *)
Example RunCommand_shell_stream :
  fst (fst (@device.RunCommand mock.helpers mock.runtime mock.wire
              anyClient "cmd" (slice_of ["x y"])
              (shellServer ("output:3" +:+ CRLF))))
  = ("output", Some (ShellExit {| Command := "x y"; ExitCode := 3 |}))
  /\ fst (@device_extra.RunCommandWithExitCode mock.helpers mock.runtime mock.wire
            anyClient "cmd" (slice_of ["x y"])
            (shellServer ("output:3" +:+ CRLF +:+ ":0" +:+ CRLF)))
     = ("output", 3, Some (ShellExit {| Command := "x y"; ExitCode := 3 |})).
Proof. split; vm_compute; reflexivity. Qed.

(** [RunCommandWithExitCode] replaces CRLF twice: a carriage return before
    a CRLF, which [RunCommand] keeps, is lost. *)
Example RunCommandWithExitCode_replaces_twice :
  fst (fst (fst (@device.RunCommand mock.helpers mock.runtime mock.wire
                   anyClient "cmd" (slice_of [])
                   (shellServer (String CR CRLF +:+ ":0" +:+ CRLF)))))
  = CRLF
  /\ fst (fst (@device_extra.RunCommandWithExitCode mock.helpers mock.runtime
                 mock.wire anyClient "cmd" (slice_of [])
                 (shellServer (String CR CRLF +:+ ":0" +:+ CRLF +:+ ":0" +:+ CRLF))))
     = (NL, 0).
Proof. split; vm_compute; reflexivity. Qed.

(** When the slice of the caller has room for the sentinel, the arguments
    are quoted in place and the error carries them quoted. *)
Example RunCommand_shared_slice :
  fst (@device.RunCommand mock.helpers mock.runtime mock.wire
         anyClient "cmd" {| elems := ["a b"; "c"]; spare := 3 |}
         (shellServer "output:1"))
  = ("output",
     Some (ShellExit {| Command := inQuotes "a b" +:+ " c"; ExitCode := 1 |}),
     [inQuotes "a b"; "c"]).
Proof. vm_compute. reflexivity. Qed.

(** A list-forward response with rows of several serials, one of them
    malformed and not of this device. *)
Example ForwardList_foreign_malformed :
  fst (@device.ForwardList mock.wire abcClient
         (rowsServer "serial tcp tcp:a:b abc tcp:1 udp:2"))
  = ([{| FSerial := "abc";
         Local_ := {| Protocol := "tcp"; PortOrName := "1" |};
         Remote := {| Protocol := "udp"; PortOrName := "2" |} |}], None).
Proof. vm_compute. reflexivity. Qed.

(** ** RunCommand on an invalid command line, and the arguments of the caller *)

Section CommandPaths.
Context `{Helpers} `{Runtime} `{Wire}.

Lemma sentinel_no_quote : Forall (fun a => hasQuote a = false) sentinel.
Proof. repeat constructor. Qed.

Lemma prepare_error_kind (cmd : string) (args : list string) (e : Err) :
  snd (fst (prepareCommandLine cmd args)) = Some e ->
  fst (fst (prepareCommandLine cmd args)) = ""
  /\ (errors.Code e = errors.AssertionError
      \/ errors.Code e = errors.ParseError).
Proof.
  unfold prepareCommandLine. destruct (isBlank cmd).
  - cbn [fst snd]. intros [= <-]. split; [done | by left].
  - assert (Hkind : forall i l e',
              snd (quoteArgs i l) = Some e' ->
              errors.Code e' = errors.ParseError).
    { intros i l. revert i. induction l as [|a l IH]; intros i e'; [done |].
      cbn [quoteArgs]. destruct (strings.ContainsRune a DQUOTE).
      - cbn [snd]. by intros [= <-].
      - specialize (IH (i + 1) e'). destruct (quoteArgs (i + 1) l). exact IH. }
    specialize (Hkind 0 args).
    destruct (quoteArgs 0 args) as [args' [e'|]]; cbn [fst snd]; [| done].
    intros [= <-]. split; [done | right; by apply Hkind].
Qed.

Lemma prepare_fails_when (cmd : string) (args : list string) :
  isBlank cmd = true \/ Exists (fun a => hasQuote a = true) args ->
  exists e, snd (fst (prepareCommandLine cmd args)) = Some e.
Proof.
  intros Hbad. unfold prepareCommandLine. destruct (isBlank cmd) eqn:Hcmd.
  - by eexists.
  - destruct Hbad as [? | Hex]; [done |].
    apply (quoteArgs_error 0) in Hex.
    destruct (quoteArgs 0 args) as [args' [e|]]; [by eexists | done].
Qed.

Lemma OpenCommand_invalid (c : Device) (cmd : string) (args : slice)
      (w : World) (e : Err) :
  snd (fst (prepareCommandLine cmd (elems args))) = Some e ->
  device.OpenCommand c cmd args w
  = ((inr (wrapErr e c "RunCommand"), snd (prepareCommandLine cmd (elems args))), w).
Proof.
  intros He. unfold device.OpenCommand.
  destruct (prepareCommandLine cmd (elems args)) as [[cl err] args'].
  cbn [fst snd] in *. subst err. reflexivity.
Qed.

Lemma commandOutput_invalid (c : Device) (cmd : string) (args : slice)
      (w : World) (e : Err) :
  snd (fst (prepareCommandLine cmd (elems args))) = Some e ->
  device.commandOutput c cmd args w
  = ((("", Some (wrapErr e c "RunCommand")),
      snd (prepareCommandLine cmd (elems args))), w).
Proof.
  intros He. unfold device.commandOutput. io_unfold.
  by rewrite (OpenCommand_invalid c cmd args w e He).
Qed.

Lemma append_elems (args : slice) (xs : list string) :
  elems (fst (append args xs)) = elems args ++ xs.
Proof. unfold append. by destruct (length xs <=? spare args)%nat. Qed.

Lemma blank_or_quote_sentinel (cmd : string) (args : slice) :
  isBlank cmd = true \/ Exists (fun a => hasQuote a = true) (elems args) ->
  exists e,
    snd (fst (prepareCommandLine cmd (elems (fst (append args sentinel)))))
    = Some e.
Proof.
  intros Hbad. apply prepare_fails_when. rewrite append_elems.
  destruct Hbad as [? | Hex]; [by left | right].
  apply Exists_app. by left.
Qed.

Lemma RunCommand_prepare_error (c : Device) (cmd : string) (args : slice)
      (w : World) (e : Err) :
  snd (fst (prepareCommandLine cmd (elems (fst (append args sentinel)))))
  = Some e ->
  fst (fst (device.RunCommand c cmd args w))
  = ("", Some (ErrOf (wrapErr e c "RunCommand")))
  /\ snd (device.RunCommand c cmd args w) = w.
Proof.
  intros He. unfold device.RunCommand. fold sentinel.
  pose proof (commandOutput_invalid c cmd (fst (append args sentinel)) w e He)
    as Hrun.
  destruct (append args sentinel) as [exArgs shared]. cbn [fst] in *.
  io_unfold. rewrite Hrun. done.
Qed.

(** X1.  When the command is blank or an argument holds a double quote,
    [RunCommand] returns the empty output and an error of kind
    AssertionError or ParseError, and leaves the world as it was: nothing
    is dialled or sent. *)
Theorem RunCommand_invalid_command (c : Device) (cmd : string) (args : slice)
        (w : World) :
  isBlank cmd = true \/ Exists (fun a => hasQuote a = true) (elems args) ->
  exists e : Err,
    fst (fst (device.RunCommand c cmd args w)) = ("", Some (ErrOf e))
    /\ (errors.Code e = errors.AssertionError
        \/ errors.Code e = errors.ParseError)
    /\ snd (device.RunCommand c cmd args w) = w.
Proof.
  intros Hbad. destruct (blank_or_quote_sentinel cmd args Hbad) as [e He].
  destruct (prepare_error_kind _ _ _ He) as [_ Hkind].
  destruct (RunCommand_prepare_error c cmd args w e He) as [Hres Hw].
  exists (wrapErr e c "RunCommand"). split; [exact Hres |].
  split; [exact Hkind | exact Hw].
Qed.

(** X2.  The same for [RunCommandWithExitCode], with the exit code 0. *)
Theorem RunCommandWithExitCode_invalid_command (c : Device) (cmd : string)
        (args : slice) (w : World) :
  isBlank cmd = true \/ Exists (fun a => hasQuote a = true) (elems args) ->
  exists e : Err,
    fst (device_extra.RunCommandWithExitCode c cmd args w)
    = ("", 0, Some (ErrOf e))
    /\ (errors.Code e = errors.AssertionError
        \/ errors.Code e = errors.ParseError)
    /\ snd (device_extra.RunCommandWithExitCode c cmd args w) = w.
Proof.
  intros Hbad.
  assert (Hbad' : isBlank cmd = true
                  \/ Exists (fun a => hasQuote a = true)
                            (elems (fst (append args sentinel)))).
  { destruct Hbad as [? | Hex]; [by left | right].
    rewrite append_elems. apply Exists_app. by left. }
  destruct (blank_or_quote_sentinel cmd _ Hbad') as [e He].
  destruct (prepare_error_kind _ _ _ He) as [_ Hkind].
  destruct (RunCommand_prepare_error c cmd _ w e He) as [Hres Hw].
  exists (wrapErr e c "RunCommand").
  unfold device_extra.RunCommandWithExitCode. fold sentinel.
  destruct (append args sentinel) as [exArgs shared]. cbn [fst] in *.
  io_unfold.
  destruct (device.RunCommand c cmd exArgs w) as [[[out err] ex'] w'].
  cbn [fst snd] in *. by inversion Hres; subst.
Qed.


End CommandPaths.

Section SharedSlice.
Context `{Helpers} `{Runtime} `{Wire}.

(** X4.  A slice with room for the three tokens of the sentinel is
    extended in place: once the command line is valid, [RunCommand] leaves
    every argument with white space quoted in the slice of its caller,
    whether the call then succeeds or fails on the way to the device. *)
Theorem RunCommand_args_quoted (c : Device) (cmd : string) (args : slice)
        (w : World) :
  (3 <= spare args)%nat ->
  isBlank cmd = false ->
  Forall (fun a => hasQuote a = false) (elems args) ->
  snd (fst (device.RunCommand c cmd args w)) = map quoteArg (elems args).
Proof.
  intros Hspare Hcmd Hargs.
  assert (Hprep : snd (prepareCommandLine cmd (elems args ++ sentinel))
                  = map quoteArg (elems args ++ sentinel)).
  { unfold prepareCommandLine. rewrite Hcmd.
    rewrite (quoteArgs_ok 0 (elems args ++ sentinel)); [done |].
    apply Forall_app. split; [exact Hargs | repeat constructor]. }
  pose proof (commandOutput_args c cmd (fst (append args sentinel)) w) as Hex.
  rewrite append_elems, Hprep in Hex.
  unfold device.RunCommand. fold sentinel. unfold append in *. cbn [length sentinel] in *.
  replace (3 <=? spare args)%nat with true in *
    by (symmetry; apply Nat.leb_le; lia).
  cbn [fst] in Hex. io_unfold.
  destruct (device.commandOutput c cmd _ w) as [[[out err] ex'] w'].
  cbn [fst snd] in Hex. subst ex'.
  assert (Htake : take (length (elems args))
                       (map quoteArg (elems args ++ [";"; "echo"; ":$?"]))
                  = map quoteArg (elems args)).
  { rewrite map_app. rewrite <- (length_map quoteArg (elems args)).
    by rewrite take_app_length. }
  destruct err as [e|]; [by cbn [fst snd] |].
  destruct (strings.LastIndexByte out ":" =? -1); [by cbn [fst snd] |].
  by destruct (strconv.Atoi _).
Qed.

End SharedSlice.

(** ** The error paths of ForwardList, DeviceInfo and State *)

Section ErrorPaths.
Context `{Wire} `{!Host}.

Lemma ForwardList_loop_error (fields : list string) (devSerial : string)
      (is_ : list nat) (fs : list ForwardPair) :
  snd (device.ForwardList_loop fields devSerial is_ fs) <> None ->
  fst (device.ForwardList_loop fields devSerial is_ fs) = [].
Proof.
  revert fs. induction is_ as [|i is_ IH]; intros fs; [done |].
  cbn [device.ForwardList_loop].
  destruct (negb (String.eqb _ devSerial)); [apply IH |].
  destruct (device.parseString _ (fields !!! (i * 3 + 1)%nat)) as [local [e|]];
    [done |].
  destruct (device.parseString _ (fields !!! (i * 3 + 2)%nat)) as [remote [e|]];
    [done |].
  apply IH.
Qed.

(** X5.  [ForwardList] never returns pairs together with an error,
    whatever the server answers; and when the serial cannot be fetched
    the error is that of [Serial] and the list-forward request is not
    made. *)
Theorem ForwardList_no_partial_result (c : Device) (w : World) :
  (snd (fst (device.ForwardList c w)) <> None ->
   fst (fst (device.ForwardList c w)) = [])
  /\ (forall (serial : string) (e : Err) (w1 : World),
        device.Serial c w = ((serial, Some e), w1) ->
        device.ForwardList c w = (([], Some (ErrOf e)), w1)).
Proof.
  split.
  - unfold device.ForwardList. io_unfold.
    destruct (device.Serial c w) as [[devSerial [e|]] w1]; [done |].
    destruct (device.getAttribute c "list-forward" w1) as [[attr [e|]] w2];
      [done |].
    destruct (negb (Z.of_nat (length (strings.Fields attr)) mod 3 =? 0));
      [done |].
    cbn [fst snd]. apply ForwardList_loop_error.
  - intros serial e w1 Hserial. unfold device.ForwardList. io_unfold.
    by rewrite Hserial.
Qed.

(** X6.  [DeviceInfo] never returns a device together with an error.
    When the serial cannot be fetched the lister is not run, and the
    error keeps the kind of the failure; when the lister fails its error
    keeps its kind too. *)
Theorem DeviceInfo_error_paths (c : Device) (w : World) :
  (snd (fst (device.DeviceInfo c w)) <> None ->
   fst (fst (device.DeviceInfo c w)) = None)
  /\ (forall (serial : string) (e : Err) (w1 : World),
        device.Serial c w = ((serial, Some e), w1) ->
        exists e' : Err,
          device.DeviceInfo c w = ((None, Some e'), w1)
          /\ errors.Code e' = errors.Code e
          /\ errors.Cause e' = Some e)
  /\ (forall (serial : string) (devices : list DeviceInfo) (e : Err)
             (w1 w2 : World),
        device.Serial c w = ((serial, None), w1) ->
        deviceListFunc c w1 = ((devices, Some e), w2) ->
        exists e' : Err,
          device.DeviceInfo c w = ((None, Some e'), w2)
          /\ errors.Code e' = errors.Code e
          /\ errors.Cause e' = Some e).
Proof.
  split; [| split].
  - unfold device.DeviceInfo. io_unfold.
    destruct (device.Serial c w) as [[serial [e|]] w1]; [done |].
    destruct (deviceListFunc c w1) as [[devices [e|]] w2]; [done |].
    by destruct (find _ devices).
  - intros serial e w1 Hserial.
    exists (wrapErr e c "GetDeviceInfo(GetSerial)").
    unfold device.DeviceInfo. io_unfold. by rewrite Hserial.
  - intros serial devices e w1 w2 Hserial Hlist.
    exists (wrapErr e c "DeviceInfo(ListDevices)").
    unfold device.DeviceInfo. io_unfold. by rewrite Hserial, Hlist.
Qed.

(** X7.  [State] overwrites the error of its request with that of the
    parser: when the request fails, the failure is dropped and the result
    is what [parseDeviceState] makes of the empty string. *)
Theorem State_drops_request_error (c : Device) (w w1 : World) (e : Err) :
  roundTripSingleResponse
    (fmt.Sprintf "%s:%s" [fmt.S_ (getHostPrefix (descriptor c));
                          fmt.S_ "get-state"]) w
  = (inr e, w1) ->
  device_rest.State c w
  = ((fst (parseDeviceState ""),
      wrapClientError (snd (parseDeviceState "")) c "State"), w1).
Proof.
  intros Hreq. unfold device_rest.State, device.getAttribute. io_unfold.
  rewrite Hreq. by destruct (parseDeviceState "").
Qed.

End ErrorPaths.

(** ** The mock server *)

Ltac mock_unfold :=
  unfold mock_rest.runOp, mock_rest.roundTripSingleNoResponse,
    mock.roundTripSingleResponse, mock.Dial, mock.ReadStatus,
    mock.ReadMessage, mock.ReadUntilEof, mock.SendMessage, mock.Close,
    mock_rest.Read, mock_rest.Write, mock.logMethod, mock.getNextErrToReturn,
    mock.setNextMsgIndex, mock.appendRequest, mock.get;
  io_unfold; cbn.

(** X8.  Every operation of the mock server appends its own name to the
    trace, takes one entry off the scheduled errors when there is one,
    and leaves the status and the messages as they are. *)
Theorem mock_operation_invariant (o : mock_rest.op) (s : mock.MockServer) :
  mock.Trace (snd (mock_rest.runOp o s)) = mock.Trace s ++ [mock_rest.opName o]
  /\ mock.Errs (snd (mock_rest.runOp o s)) = tail (mock.Errs s)
  /\ mock.Status (snd (mock_rest.runOp o s)) = mock.Status s
  /\ mock.Messages (snd (mock_rest.runOp o s)) = mock.Messages s.
Proof.
  destruct s as [errs status msgs idx reqs tr].
  destruct o; destruct errs as [|[e|] rest]; mock_unfold; try done.
  all: try (destruct (msgs !! idx); cbn; done).
  all: try (destruct (length msgs <=? idx)%nat; cbn; done).
Qed.


(** X10.  Without scheduled errors, [ReadUntilEof] returns the unread
    messages joined and leaves none unread: a [ReadMessage] after it fails
    with the end-of-file error, and a second [ReadUntilEof] returns the
    empty string. *)
Theorem mock_ReadUntilEof_drains (status : string) (msgs : list string)
        (idx : nat) (reqs tr : list string) :
  let s := {| mock.Errs := []; mock.Status := status; mock.Messages := msgs;
              mock.nextMsgIndex := idx; mock.Requests := reqs;
              mock.Trace := tr |} in
  fst (mock.ReadUntilEof s) = inl (strings.Join (drop idx msgs) "")
  /\ fst (mock.ReadMessage (snd (mock.ReadUntilEof s))) = inr mock.eofError
  /\ fst (mock.ReadUntilEof (snd (mock.ReadUntilEof s))) = inl "".
Proof.
  mock_unfold. split; [done |].
  assert (Hmax : (length msgs <= idx `max` length msgs)%nat) by lia.
  split.
  - by rewrite (lookup_ge_None_2 msgs _ Hmax).
  - by rewrite (drop_ge msgs _ Hmax).
Qed.

(** X11.  On the mock server, whatever errors are scheduled, [dialDevice]
    either returns a connection, after Dial, SendMessage and ReadStatus,
    or returns an error; and when it returns an error after Dial went
    through, the last operation is the Close of the connection. *)
Theorem dialDevice_closes_on_failure (c : @Device mock.wire)
        (s : mock.MockServer) :
  let r := @device.dialDevice mock.wire c s in
  (exists conn, fst r = inl conn
                /\ mock.Trace (snd r)
                   = mock.Trace s ++ ["Dial"; "SendMessage"; "ReadStatus"])
  \/ (exists e, fst r = inr e
                /\ (mock.Trace (snd r) = mock.Trace s ++ ["Dial"]
                    \/ mock.Trace (snd r)
                       = mock.Trace s ++ ["Dial"; "SendMessage"; "Close"]
                    \/ mock.Trace (snd r)
                       = mock.Trace s
                         ++ ["Dial"; "SendMessage"; "ReadStatus"; "Close"])).
Proof.
  destruct s as [errs status msgs idx reqs tr].
  cbv zeta. unfold device.dialDevice.
  destruct errs as [|[e1|] [|[e2|] [|[e3|] [|e4 rest]]]];
    cbn [Dial SendMessage ReadStatus Close mock.wire];
    mock_unfold; rewrite <- ?app_assoc; cbn; eauto 8.
Qed.

(** ** The requests of the client, on the mock server *)

Section MockRequests.
Context `{Helpers} `{Runtime}.

Lemma prepareCommandLine_valid (cmd : string) (l : list string) :
  isBlank cmd = false ->
  Forall (fun a => hasQuote a = false) l ->
  prepareCommandLine cmd l
  = ((strings.Join (cmd :: map quoteArg l) " ", None), map quoteArg l).
Proof.
  intros Hcmd Hl. unfold prepareCommandLine.
  rewrite Hcmd, (quoteArgs_ok 0 l Hl).
  destruct l as [|a l]; [done |].
  cbn [map length]. rewrite Sprintf_s_s. by rewrite (Join_cons cmd).
Qed.

Lemma RunCommand_world `{Wire} (c : Device) (cmd : string) (args : slice)
      (w : World) :
  snd (device.RunCommand c cmd args w)
  = snd (device.commandOutput c cmd (fst (append args sentinel)) w).
Proof.
  unfold device.RunCommand. fold sentinel.
  destruct (append args sentinel) as [exArgs shared]. cbn [fst]. io_unfold.
  destruct (device.commandOutput c cmd exArgs w) as [[[out err] ex'] w'].
  destruct err as [e|]; [done |].
  destruct (strings.LastIndexByte out ":" =? -1); [done |].
  by destruct (strconv.Atoi _).
Qed.

Lemma RunCommandWithExitCode_world `{Wire} (c : Device) (cmd : string)
      (args : slice) (w : World) :
  snd (device_extra.RunCommandWithExitCode c cmd args w)
  = snd (device.RunCommand c cmd (fst (append args sentinel)) w).
Proof.
  unfold device_extra.RunCommandWithExitCode. fold sentinel.
  destruct (append args sentinel) as [exArgs shared]. cbn [fst]. io_unfold.
  destruct (device.RunCommand c cmd exArgs w) as [[[out err] ex'] w'].
  destruct err as [e|]; [done |].
  destruct (strings.LastIndexByte out ":" =? -1); [done |].
  by destruct (strconv.Atoi _).
Qed.

Lemma commandOutput_mock (c : @Device mock.wire) (cmd : string) (args : slice)
      (status : string) (msgs : list string) (idx : nat)
      (reqs tr : list string) :
  isBlank cmd = false ->
  Forall (fun a => hasQuote a = false) (elems args) ->
  @device.commandOutput _ mock.wire c cmd args
    {| mock.Errs := []; mock.Status := status; mock.Messages := msgs;
       mock.nextMsgIndex := idx; mock.Requests := reqs; mock.Trace := tr |}
  = (((strings.Join (drop idx msgs) "", None), map quoteArg (elems args)),
     {| mock.Errs := []; mock.Status := status; mock.Messages := msgs;
        mock.nextMsgIndex := Nat.max idx (length msgs);
        mock.Requests :=
          reqs ++ ["host:" +:+ mock.getTransportDescriptor (descriptor c);
                   "shell:" +:+ strings.Join (cmd :: map quoteArg (elems args)) " "];
        mock.Trace :=
          tr ++ ["Dial"; "SendMessage"; "ReadStatus"; "SendMessage";
                 "ReadStatus"; "ReadUntilEof"] |}).
Proof.
  intros Hcmd Hargs.
  unfold device.commandOutput, device.OpenCommand, device.dialDevice.
  rewrite (prepareCommandLine_valid cmd (elems args) Hcmd Hargs).
  cbn [wrapClientError Dial SendMessage ReadStatus ReadUntilEof Close mock.wire
       getTransportDescriptor].
  run_sprintf. mock_unfold. rewrite <- !app_assoc. reflexivity.
Qed.

(** X12.  On the mock server without scheduled errors, a [RunCommand]
    with a valid command line sends two requests, the selector of the
    transport and the command line of the shell ended by the sentinel,
    reads the status twice and the output to its end, and never closes
    the connection that it opened. *)
Theorem RunCommand_requests (c : @Device mock.wire) (cmd : string)
        (args : slice) (status : string) (msgs : list string) (idx : nat)
        (reqs tr : list string) :
  isBlank cmd = false ->
  Forall (fun a => hasQuote a = false) (elems args) ->
  let s := {| mock.Errs := []; mock.Status := status; mock.Messages := msgs;
              mock.nextMsgIndex := idx; mock.Requests := reqs;
              mock.Trace := tr |} in
  let s' := snd (@device.RunCommand _ _ mock.wire c cmd args s) in
  mock.Requests s'
  = reqs ++ ["host:" +:+ mock.getTransportDescriptor (descriptor c);
             "shell:" +:+ strings.Join
                            (cmd :: map quoteArg (elems args ++ sentinel)) " "]
  /\ mock.Trace s'
     = tr ++ ["Dial"; "SendMessage"; "ReadStatus"; "SendMessage"; "ReadStatus";
              "ReadUntilEof"]
  /\ ~ In "Close" (drop (length tr) (mock.Trace s')).
Proof.
  intros Hcmd Hargs s s'. subst s s'.
  rewrite RunCommand_world, commandOutput_mock; [| done |].
  - rewrite append_elems. cbn [snd mock.Requests mock.Trace].
    split; [done |]. split; [done |].
    rewrite drop_app_length. cbn. intros Hin.
    repeat (destruct Hin as [Hin | Hin]; [discriminate Hin |]). exact Hin.
  - rewrite append_elems. apply Forall_app. split; [done | repeat constructor].
Qed.

(** X13.  On the mock server without scheduled errors, the command line
    that [RunCommandWithExitCode] sends ends with the sentinel twice. *)
Theorem RunCommandWithExitCode_requests (c : @Device mock.wire) (cmd : string)
        (args : slice) (status : string) (msgs : list string) (idx : nat)
        (reqs tr : list string) :
  isBlank cmd = false ->
  Forall (fun a => hasQuote a = false) (elems args) ->
  let s := {| mock.Errs := []; mock.Status := status; mock.Messages := msgs;
              mock.nextMsgIndex := idx; mock.Requests := reqs;
              mock.Trace := tr |} in
  mock.Requests
    (snd (@device_extra.RunCommandWithExitCode _ _ mock.wire c cmd args s))
  = reqs ++ ["host:" +:+ mock.getTransportDescriptor (descriptor c);
             "shell:" +:+ strings.Join
                            (cmd :: map quoteArg
                                      ((elems args ++ sentinel) ++ sentinel)) " "].
Proof.
  intros Hcmd Hargs s. subst s.
  rewrite RunCommandWithExitCode_world, RunCommand_world, commandOutput_mock;
    [| done |].
  - by rewrite !append_elems.
  - rewrite !append_elems. apply Forall_app. split; [| repeat constructor].
    apply Forall_app. split; [done | repeat constructor].
Qed.

End MockRequests.

(** X14.  On the mock server without scheduled errors, [getAttribute]
    sends the host prefix and the name of the attribute joined by a colon,
    returns the next message, or the end-of-file error when none is left,
    and closes its connection. *)
Theorem getAttribute_round_trip (c : @Device mock.wire) (attr status : string)
        (msgs : list string) (idx : nat) (reqs tr : list string) :
  let s := {| mock.Errs := []; mock.Status := status; mock.Messages := msgs;
              mock.nextMsgIndex := idx; mock.Requests := reqs;
              mock.Trace := tr |} in
  let r := @device.getAttribute mock.wire c attr s in
  fst r = match msgs !! idx with
          | Some msg => (msg, None)
          | None => ("", Some mock.eofError)
          end
  /\ mock.Requests (snd r)
     = reqs ++ [mock.getHostPrefix (descriptor c) +:+ String ":" attr]
  /\ mock.Trace (snd r)
     = tr ++ ["Dial"; "SendMessage"; "ReadStatus"; "ReadMessage"; "Close"].
Proof.
  cbv zeta. unfold device.getAttribute.
  cbn [roundTripSingleResponse mock.wire getHostPrefix].
  rewrite Sprintf_colon. mock_unfold.
  destruct (msgs !! idx); cbn; rewrite <- !app_assoc; done.
Qed.

(** X15.  On the mock server without scheduled errors, [Forward],
    [ForwardRemove] and [ForwardRemoveAll] succeed and send the requests
    forward:local;remote, killforward:local and killforward-all behind the
    host prefix, with the specs in their serialized form; a second
    [ForwardRemoveAll] succeeds like the first. *)
Theorem Forward_requests (c : @Device mock.wire) (local remote : ForwardSpec)
        (status : string) (msgs : list string) (idx : nat)
        (reqs tr : list string) :
  let s := {| mock.Errs := []; mock.Status := status; mock.Messages := msgs;
              mock.nextMsgIndex := idx; mock.Requests := reqs;
              mock.Trace := tr |} in
  let prefix := mock.getHostPrefix (descriptor c) in
  (fst (@device_rest.Forward mock.wire mock_host.host c local remote s) = None
   /\ mock.Requests (snd (@device_rest.Forward mock.wire mock_host.host c
                            local remote s))
      = reqs ++ [prefix +:+ ":forward:" +:+ device.ForwardSpec_String local
                 +:+ ";" +:+ device.ForwardSpec_String remote])
  /\ (fst (@device_rest.ForwardRemove mock.wire mock_host.host c local s) = None
      /\ mock.Requests (snd (@device_rest.ForwardRemove mock.wire mock_host.host
                               c local s))
         = reqs ++ [prefix +:+ ":killforward:"
                    +:+ device.ForwardSpec_String local])
  /\ (fst (@device_rest.ForwardRemoveAll mock.wire mock_host.host c s) = None
      /\ mock.Requests (snd (@device_rest.ForwardRemoveAll mock.wire
                               mock_host.host c s))
         = reqs ++ [prefix +:+ ":killforward-all"]
      /\ fst (@device_rest.ForwardRemoveAll mock.wire mock_host.host c
                (snd (@device_rest.ForwardRemoveAll mock.wire mock_host.host
                        c s))) = None).
Proof.
  cbv zeta.
  unfold device_rest.Forward, device_rest.ForwardRemove,
    device_rest.ForwardRemoveAll.
  cbn [roundTripSingleNoResponse mock_host.host getHostPrefix mock.wire].
  run_sprintf. mock_unfold. rewrite <- ?app_assoc. repeat split.
Qed.

(** ** OpenCommand on the mock server *)

Section OpenCommandOnMock.
Context `{Helpers}.


End OpenCommandOnMock.

(** ** ListProcesses *)

Section ListProcessesFacts.
Context `{Unicode}.



Lemma ListProcesses_loop_blank (l1 l2 : list string) (blank : string)
      (fieldNames : option (list string)) (ps : list Process) :
  strings.Fields (strings.TrimSpace blank) = [] ->
  device_extra_rest.ListProcesses_loop (l1 ++ blank :: l2) fieldNames ps
  = device_extra_rest.ListProcesses_loop l1 fieldNames ps.
Proof.
  intros Hblank. revert fieldNames ps.
  induction l1 as [|line l1 IH]; intros fieldNames ps.
  - cbn [app device_extra_rest.ListProcesses_loop]. by rewrite Hblank.
  - cbn [app device_extra_rest.ListProcesses_loop].
    destruct (Z.of_nat (length _) =? 0); [done |].
    destruct fieldNames as [names|]; [| by apply IH].
    destruct (negb _); [by apply IH |].
    destruct (Pid _ =? 0); by apply IH.
Qed.

(** X18.  [ListProcesses] stops at the first line without a field: what
    follows a blank line is not read into the result. *)
Theorem ListProcesses_stops_at_blank (l1 l2 : list string) (blank : string) :
  strings.Fields (strings.TrimSpace blank) = [] ->
  device_extra_rest.ListProcesses_lines (l1 ++ blank :: l2)
  = device_extra_rest.ListProcesses_lines l1.
Proof. intros Hblank. by apply ListProcesses_loop_blank. Qed.

End ListProcessesFacts.

(** ** The further properties on the mock server *)

Lemma RunCommand_invalid_command_witness :
  exists e : Err,
    fst (fst (@device.RunCommand mock.helpers mock.runtime mock.wire
                anyClient "  " (slice_of ["a"]) (shellServer "output:0")))
    = ("", Some (ErrOf e))
    /\ (errors.Code e = errors.AssertionError
        \/ errors.Code e = errors.ParseError)
    /\ snd (@device.RunCommand mock.helpers mock.runtime mock.wire
              anyClient "  " (slice_of ["a"]) (shellServer "output:0"))
       = shellServer "output:0".
Proof.
  apply (@RunCommand_invalid_command mock.helpers mock.runtime mock.wire
           anyClient "  " (slice_of ["a"]) (shellServer "output:0")).
  left. reflexivity.
Defined.

Lemma RunCommandWithExitCode_invalid_command_witness :
  exists e : Err,
    fst (@device_extra.RunCommandWithExitCode mock.helpers mock.runtime mock.wire
           anyClient "cmd" (slice_of [String DQUOTE "x"]) (shellServer "output:0"))
    = ("", 0, Some (ErrOf e))
    /\ (errors.Code e = errors.AssertionError
        \/ errors.Code e = errors.ParseError)
    /\ snd (@device_extra.RunCommandWithExitCode mock.helpers mock.runtime mock.wire
              anyClient "cmd" (slice_of [String DQUOTE "x"])
              (shellServer "output:0"))
       = shellServer "output:0".
Proof.
  apply (@RunCommandWithExitCode_invalid_command mock.helpers mock.runtime
           mock.wire anyClient "cmd" (slice_of [String DQUOTE "x"])
           (shellServer "output:0")).
  right. apply Exists_cons_hd. reflexivity.
Defined.


Lemma RunCommand_args_quoted_witness :
  snd (fst (@device.RunCommand mock.helpers mock.runtime mock.wire
              anyClient "cmd" {| elems := ["a b"; "c"]; spare := 3 |}
              (shellServer "output:0")))
  = [inQuotes "a b"; "c"].
Proof.
  apply (@RunCommand_args_quoted mock.helpers mock.runtime mock.wire
           anyClient "cmd" {| elems := ["a b"; "c"]; spare := 3 |}
           (shellServer "output:0")).
  - simpl. lia.
  - reflexivity.
  - repeat constructor.
Defined.

Lemma ForwardList_no_partial_result_witness :
  fst (fst (@device.ForwardList mock.wire abcClient failingServer)) = [].
Proof.
  apply (@ForwardList_no_partial_result mock.wire abcClient failingServer).
  vm_compute. discriminate.
Defined.

Lemma DeviceInfo_error_paths_witness :
  fst (fst (@device.DeviceInfo mock.wire abcClient failingServer)) = None.
Proof.
  apply (@DeviceInfo_error_paths mock.wire abcClient failingServer).
  vm_compute. discriminate.
Defined.

Lemma State_drops_request_error_witness :
  fst (@device_rest.State mock.wire mock_host.host abcClient failingServer)
  = ("", Some (wrapErr
                 (errors.Errorf errors.ParseError "invalid device state: %s"
                    [fmt.S_ ""])
                 abcClient "State")).
Proof.
  rewrite (@State_drops_request_error mock.wire mock_host.host abcClient
             failingServer
             (snd (@roundTripSingleResponse mock.wire
                     "host-serial:abc:get-state" failingServer))
             mock.eofError).
  - reflexivity.
  - vm_compute. reflexivity.
Defined.

Lemma RunCommand_requests_witness :
  mock.Requests
    (snd (@device.RunCommand mock.helpers mock.runtime mock.wire
            anyClient "cmd" (slice_of ["a b"]) (shellServer "output:0")))
  = ["host:transport-any";
     "shell:cmd " +:+ inQuotes "a b" +:+ " ; echo :$?"].
Proof.
  destruct (@RunCommand_requests mock.helpers mock.runtime anyClient "cmd"
              (slice_of ["a b"]) "OKAY" ["output:0"] 0%nat [] [])
    as (Hreq & _); [reflexivity | repeat constructor |].
  exact Hreq.
Defined.

Lemma RunCommandWithExitCode_requests_witness :
  mock.Requests
    (snd (@device_extra.RunCommandWithExitCode mock.helpers mock.runtime mock.wire
            anyClient "cmd" (slice_of []) (shellServer "output:0")))
  = ["host:transport-any"; "shell:cmd ; echo :$? ; echo :$?"].
Proof.
  apply (@RunCommandWithExitCode_requests mock.helpers mock.runtime anyClient
           "cmd" (slice_of []) "OKAY" ["output:0"] 0%nat [] []);
    [reflexivity | constructor].
Defined.


Lemma ListProcesses_stops_at_blank_witness :
  @device_extra_rest.ListProcesses_lines asciiUnicode
    (psLines ++ "  " :: ["shell 7 1 0 0 0 0 S sh"])
  = [ {| User := "root"; Pid := 1; Name := "/init" |};
      {| User := "root"; Pid := 2; Name := "kthreadd" |} ].
Proof.
  rewrite (@ListProcesses_stops_at_blank asciiUnicode psLines
             ["shell 7 1 0 0 0 0 S sh"] "  ");
    [vm_compute; reflexivity | reflexivity].
Defined.

